(** * P2S (Proposer in 2 Steps): commit/reveal pipeline of the consensus engine

    A shallow embedding of the Go package [p2s]: the commitment scheme and
    the PHT model (src/unnamed/part_001, the package's pht.go), the Merkle
    proof system and the MT model (the second file kept in
    src/consensus/p2s/validator_manager.go, the package's mt.go), the MEV
    detector (src/unnamed/part_002, mev_detector.go), proposer selection
    (src/consensus/p2s/validator_manager.go), the B1/B2 blocks with their
    cache (src/consensus/p2s/block.go) and the engine's block preparation and
    validation (src/consensus/p2s/p2s.go).

    Conventions of the embedding.
    - [[]byte] is [list byte]; a nil slice and an empty slice are both [[]]
      (the code only ever writes them to a hasher, ranges over them, takes
      their [len] or converts them to a string, where the two agree).
    - [*big.Int] is [Z]; [common.Address] and [common.Hash] are the numbers
      their 20 and 32 big-endian bytes denote; [uint64] and [uint8] are [Z]
      with the wrap-around written where the code converts.
    - A pointer the code dereferences without a test ([*big.Int] fields, the
      B1 block handed to [Validate], the values of the cache maps) is the
      value it points to; a pointer the code tests against [nil] (a header,
      the PHTs and MTs of a block) is an [option].
    - A [range] over a map visits it in an order Go leaves open: the
      functions that range over a map take the visiting order as a list.
    - [float64] is the binary64 type [float] of Rocq, whose operations are
      those of IEEE 754 that Go performs: a decimal literal is the nearest
      binary64 number and every operation rounds to nearest, ties to even.
      The analysis of one transaction is given a second time in exact
      rationals ([analyzeTransaction_exact]), to tell what the rounding does
      to a score; the engine does not use it.
    - The capacity of a slice is its length: a slice expression [s[lo:hi]]
      panics as soon as [hi] exceeds [len(s)].
    - [time.Now()] and the random draw are inputs of the functions that read
      them.
    - A Go run-time panic (index or slice bound out of range) is a result of
      its own, [Panic], next to the value and the [error]. *)

From Stdlib Require Import ZArith Zdivisibility QArith Lia List Bool Sorted Floats.
From Stdlib Require Import Init.Byte Strings.Byte Ascii String.
From stdpp Require Import gmap strings list fin_maps.
Import ListNotations.

Local Open Scope Z_scope.

(** Decimal literals of [float64] stand for the nearest binary64 number, as
    in Go. *)
#[local] Set Warnings "-inexact-float".

(** ** Bytes *)

Definition bytes := list byte.

Definition byte_to_Z (b : byte) : Z := Z.of_N (Byte.to_N b).

Definition byte_of_Z (z : Z) : byte :=
  match Byte.of_N (Z.to_N (z mod 256)) with
  | Some b => b
  | None => x00
  end.

#[global] Instance byte_eq_dec : EqDecision byte := Byte.byte_eq_dec.

(** Big-endian encoding of [z] on exactly [n] bytes (the low [8n] bits). *)
Fixpoint be_bytes (n : nat) (z : Z) : bytes :=
  match n with
  | O => []
  | S k => byte_of_Z (Z.shiftr z (8 * Z.of_nat k)) :: be_bytes k z
  end.

(** Little-endian encoding on [n] bytes: [byte(x >> (8*i))] for [i < n]. *)
Definition le_bytes (n : nat) (z : Z) : bytes :=
  map (fun i => byte_of_Z (Z.shiftr z (8 * Z.of_nat i))) (seq 0 n).

(** The number a big-endian byte string denotes. *)
Definition be_value (bs : bytes) : Z :=
  fold_left (fun acc b => acc * 256 + byte_to_Z b) bs 0.

(** ** crypto/sha256 (FIPS 180-4) *)

Module SHA256.

Definition w32 (x : Z) : Z := x mod 2 ^ 32.
Definition add32 (x y : Z) : Z := w32 (x + y).
Definition rotr (n x : Z) : Z :=
  Z.lor (Z.shiftr x n) (w32 (Z.shiftl x (32 - n))).
Definition not32 (x : Z) : Z := Z.lxor x 0xffffffff.

Definition Ch (x y z : Z) : Z := Z.lxor (Z.land x y) (Z.land (not32 x) z).
Definition Maj (x y z : Z) : Z :=
  Z.lxor (Z.lxor (Z.land x y) (Z.land x z)) (Z.land y z).
Definition bsig0 (x : Z) : Z := Z.lxor (Z.lxor (rotr 2 x) (rotr 13 x)) (rotr 22 x).
Definition bsig1 (x : Z) : Z := Z.lxor (Z.lxor (rotr 6 x) (rotr 11 x)) (rotr 25 x).
Definition ssig0 (x : Z) : Z := Z.lxor (Z.lxor (rotr 7 x) (rotr 18 x)) (Z.shiftr x 3).
Definition ssig1 (x : Z) : Z := Z.lxor (Z.lxor (rotr 17 x) (rotr 19 x)) (Z.shiftr x 10).

(** The round constants and the initial hash value are the first 32 bits of
    the fractional parts of the cube roots, and of the square roots, of the
    first primes: [floor (p^(1/3) * 2^32) mod 2^32] is the integer cube root
    of [p * 2^96], reduced. *)
Definition is_prime (n : nat) : bool :=
  forallb (fun d => negb (n mod d =? 0)%nat) (seq 2 (n - 2)).

Definition primes (count : nat) : list Z :=
  map Z.of_nat (firstn count (filter is_prime (seq 2 400))).

(** The integer cube root, bit by bit from bit [k-1] down. *)
Fixpoint cube_root_bits (k : nat) (n r : Z) : Z :=
  match k with
  | O => r
  | S k' =>
      let r' := r + 2 ^ Z.of_nat k' in
      if r' * r' * r' <=? n then cube_root_bits k' n r' else cube_root_bits k' n r
  end.

Definition K : list Z :=
  Eval vm_compute in
    map (fun p => w32 (cube_root_bits 40 (p * 2 ^ 96) 0)) (primes 64).

Definition H0 : list Z :=
  Eval vm_compute in map (fun p => w32 (Z.sqrt (p * 2 ^ 64))) (primes 8).

(** Message padding: a [0x80] byte, zeros up to 56 mod 64, the bit length on
    eight bytes. *)
Definition pad (msg : bytes) : bytes :=
  let len := Z.of_nat (length msg) in
  let zeros := Z.to_nat ((55 - len) mod 64) in
  msg ++ x80 :: repeat x00 zeros ++ be_bytes 8 (8 * len).

(** Cut a byte string into chunks of [n] bytes; [k] bounds the number of
    chunks. *)
Fixpoint chunks (k n : nat) (bs : bytes) : list bytes :=
  match k with
  | O => []
  | S k' =>
      match bs with
      | [] => []
      | _ => firstn n bs :: chunks k' n (skipn n bs)
      end
  end.

Definition words_of_block (blk : bytes) : list Z :=
  map be_value (chunks 16 4 blk).

(** The message schedule, kept newest word first: [sch] holds
    W(t-1), W(t-2), ... *)
Fixpoint extend (k : nat) (sch : list Z) : list Z :=
  match k with
  | O => sch
  | S k' =>
      let wt := add32 (add32 (ssig1 (nth 1 sch 0)) (nth 6 sch 0))
                      (add32 (ssig0 (nth 14 sch 0)) (nth 15 sch 0)) in
      extend k' (wt :: sch)
  end.

Definition schedule (blk : bytes) : list Z :=
  rev (extend 48 (rev (words_of_block blk))).

Record regs := Regs { ra : Z; rb : Z; rc : Z; rd : Z; re : Z; rf : Z; rg : Z; rh : Z }.

Definition round (s : regs) (kw : Z * Z) : regs :=
  let t1 := add32 (add32 (add32 (add32 (rh s) (bsig1 (re s)))
                                (Ch (re s) (rf s) (rg s))) (fst kw)) (snd kw) in
  let t2 := add32 (bsig0 (ra s)) (Maj (ra s) (rb s) (rc s)) in
  Regs (add32 t1 t2) (ra s) (rb s) (rc s) (add32 (rd s) t1) (re s) (rf s) (rg s).

Definition regs_of (h : list Z) : regs :=
  Regs (nth 0 h 0) (nth 1 h 0) (nth 2 h 0) (nth 3 h 0)
       (nth 4 h 0) (nth 5 h 0) (nth 6 h 0) (nth 7 h 0).

Definition list_of (s : regs) : list Z :=
  [ra s; rb s; rc s; rd s; re s; rf s; rg s; rh s].

Definition compress (h : list Z) (blk : bytes) : list Z :=
  let s := fold_left round (combine K (schedule blk)) (regs_of h) in
  map (fun p => add32 (fst p) (snd p)) (combine h (list_of s)).

Definition sum (msg : bytes) : bytes :=
  let p := pad msg in
  let h := fold_left compress (chunks (length p) 64 p) H0 in
  concat (map (be_bytes 4) h).

End SHA256.

Definition sha256 (msg : bytes) : bytes := SHA256.sum msg.

Definition hex_digit (n : Z) : Ascii.ascii :=
  nth (Z.to_nat n) (list_ascii_of_string "0123456789abcdef") "0"%char.

(** [common.Bytes2Hex]: lower-case hexadecimal, two digits a byte, no
    prefix. *)
Definition Bytes2Hex (bs : bytes) : string :=
  string_of_list_ascii
    (flat_map (fun b => [hex_digit (byte_to_Z b / 16); hex_digit (byte_to_Z b mod 16)]) bs).

(** A [hash.Hash] in use: [Write] appends to the pending input, [Sum(nil)]
    is the digest of everything written. *)
Definition hasher := bytes.
Definition sha256_New : hasher := [].
Definition Write (h : hasher) (d : bytes) : hasher := h ++ d.
Definition Sum (h : hasher) : bytes := sha256 h.

(** ** math/big *)

(** [x.Bytes()]: the absolute value, big-endian, without leading zeros. *)
Definition big_Bytes (x : Z) : bytes :=
  let a := Z.abs x in
  if a =? 0 then [] else be_bytes (Z.to_nat (Z.log2 a / 8 + 1)) a.

(** [SetBytes]: the unsigned big-endian value. *)
Definition big_SetBytes (bs : bytes) : Z := be_value bs.

Fixpoint pow_mod_pos (x : Z) (e : positive) (m : Z) : Z :=
  match e with
  | xH => x mod m
  | xO e' => let r := pow_mod_pos x e' m in (r * r) mod m
  | xI e' => let r := pow_mod_pos x e' m in ((r * r) mod m * x) mod m
  end.

(** [Exp(x, y, m)] for a modulus [m > 0] and an exponent [y >= 0], by
    square and multiply. *)
Definition big_Exp (x y m : Z) : Z :=
  match y with
  | Zpos e => pow_mod_pos x e m
  | _ => 1 mod m
  end.

(** [common.BytesToHash]: the last 32 bytes, right-aligned. *)
Definition BytesToHash (bs : bytes) : Z := be_value bs mod 2 ^ 256.

(** ** Results: a value, an [error], or a run-time panic *)

Inductive result (A : Type) : Type :=
| Ok (a : A)
| Err (msg : string)
| Panic (msg : string).
Arguments Ok {A} a.
Arguments Err {A} msg.
Arguments Panic {A} msg.

Definition rbind {A B} (r : result A) (k : A -> result B) : result B :=
  match r with
  | Ok a => k a
  | Err e => Err e
  | Panic e => Panic e
  end.

#[global] Instance result_bind : MBind result := fun A B k r => rbind r k.
#[global] Instance result_ret : MRet result := fun A a => Ok a.

(** A loop over a slice whose body can fail. *)
Fixpoint foldM {A S} (f : S -> A -> result S) (l : list A) (s : S) : result S :=
  match l with
  | [] => Ok s
  | a :: l' => s' ← f s a; foldM f l' s'
  end.

(** What a function of type [error] returns: [None] is [nil]. *)
Definition error := option string.

(** ** The commitment scheme (src/unnamed/part_001) *)

Class CommitmentScheme := {
  cs_Commit : list bytes -> result bytes;
  cs_Verify : bytes -> list bytes -> bool;
  cs_Open : bytes -> result bytes
}.

Module PedersenCommitment.

Definition generator : Z := 2.
(** [crypto.S256().P], the field prime of secp256k1. *)
Definition modulus : Z :=
  0xFFFFFFFFFFFFFFFFFFFFFFFFFFFFFFFFFFFFFFFFFFFFFFFFFFFFFFFEFFFFFC2F.

Definition Commit (data : list bytes) : result bytes :=
  if (length data =? 0)%nat then Err "no data to commit"
  else
    let hasher := fold_left Write data sha256_New in
    let hash := Sum hasher in
    let hashInt := big_SetBytes hash in
    let commitment := big_Exp generator hashInt modulus in
    Ok (big_Bytes commitment).

Definition Verify (commitment : bytes) (data : list bytes) : bool :=
  match Commit data with
  | Ok newCommitment => bool_decide (commitment = newCommitment)
  | _ => false
  end.

Definition Open (commitment : bytes) : result bytes := Ok commitment.

End PedersenCommitment.

#[global] Instance NewPedersenCommitment : CommitmentScheme := {
  cs_Commit := PedersenCommitment.Commit;
  cs_Verify := PedersenCommitment.Verify;
  cs_Open := PedersenCommitment.Open
}.

(** ** The proof system (src/consensus/p2s/validator_manager.go, from [MTManager] on) *)

Class ProofSystem := {
  ps_Prove : bytes -> list bytes -> result bytes;
  ps_Verify : bytes -> bytes -> list bytes -> result bool
}.

Module MerkleProofSystem.

(** [nextPower := 1; for nextPower < n { nextPower <<= 1 }]; the power
    passes [n] within [n] doublings. *)
Fixpoint nextPower_loop (fuel nextPower n : nat) : nat :=
  match fuel with
  | O => nextPower
  | S fuel' =>
      if (nextPower <? n)%nat then nextPower_loop fuel' (2 * nextPower) n
      else nextPower
  end.

Definition padToPowerOfTwo (data : list bytes) : list bytes :=
  let n := length data in
  if (n =? 0)%nat then data
  else
    let nextPower := nextPower_loop n 1 n in
    data ++ repeat (repeat x00 32) (nextPower - n).

(** One iteration of the loop that fills the internal nodes: the children
    are read at [2*i-len(paddedData)] and the next index. *)
Definition build_node (n : nat) (tree : list bytes) (i : nat) : result (list bytes) :=
  match tree !! (2 * i - n)%nat with
  | None => Panic "index out of range"
  | Some leftChild =>
      match tree !! (2 * i - n + 1)%nat with
      | None => Panic "index out of range"
      | Some rightChild =>
          let hasher := Write (Write sha256_New leftChild) rightChild in
          Ok (<[i := Sum hasher]> tree)
      end
  end.

Definition buildMerkleTree (data : list bytes) : result (list bytes) :=
  if (length data =? 0)%nat then Ok []
  else
    let paddedData := padToPowerOfTwo data in
    let n := length paddedData in
    let tree := paddedData ++ repeat [] (n * 2 - 1 - n) in
    foldM (build_node n) (seq n (length tree - n)) tree.

(** The first index whose node equals the commitment, [-1] when none. *)
Fixpoint findLeafIndex_from (i : Z) (tree : list bytes) (commitment : bytes) : Z :=
  match tree with
  | [] => -1
  | leaf :: rest =>
      if bool_decide (leaf = commitment) then i
      else findLeafIndex_from (i + 1) rest commitment
  end.

Definition findLeafIndex (tree : list bytes) (commitment : bytes) : Z :=
  findLeafIndex_from 0 tree commitment.

Fixpoint generateMerkleProof_loop (fuel : nat) (tree : list bytes)
    (currentIndex : nat) (proof : bytes) : result bytes :=
  match fuel with
  | O => Ok proof
  | S fuel' =>
      if (currentIndex <? length tree - 1)%nat then
        let siblingIndex := Nat.lxor currentIndex 1 in
        match tree !! siblingIndex with
        | None => Panic "index out of range"
        | Some sibling =>
            generateMerkleProof_loop fuel' tree
              ((currentIndex + length tree) / 2)%nat (proof ++ sibling)
        end
      else Ok proof
  end.

(** The index strictly grows while it is below [len(tree)-1], so
    [len(tree)] iterations are enough. *)
Definition generateMerkleProof (tree : list bytes) (leafIndex : nat) : result bytes :=
  generateMerkleProof_loop (length tree) tree leafIndex [].

(** [proof[proofIndex : proofIndex+32]] panics when fewer than 32 bytes are
    left. The capacity of [proof] is taken to be its length; on a proof cut
    from a longer buffer Go reads the sibling on into the spare capacity
    instead. No statement below runs the loop on a proof whose length is
    not a multiple of 32. *)
Fixpoint verify_loop (fuel : nat) (proof : bytes) (current : bytes) : result bytes :=
  match fuel with
  | O => Ok current
  | S fuel' =>
      match proof with
      | [] => Ok current
      | _ =>
          if (length proof <? 32)%nat then Panic "slice bounds out of range"
          else
            let sibling := firstn 32 proof in
            let hasher := Write (Write sha256_New current) sibling in
            verify_loop fuel' (skipn 32 proof) (Sum hasher)
      end
  end.

Definition verifyMerkleProof (proof commitment : bytes) (tree : list bytes) : result bool :=
  if (length proof =? 0)%nat then Ok false
  else
    current ← verify_loop (length proof) proof commitment;
    match last tree with
    | None => Panic "index out of range"
    | Some root => Ok (bool_decide (current = root))
    end.

Definition Prove (commitment : bytes) (data : list bytes) : result bytes :=
  if (length data =? 0)%nat then Err "no data to prove"
  else
    tree ← buildMerkleTree data;
    let leafIndex := findLeafIndex tree commitment in
    if leafIndex =? -1 then Err "commitment not found in tree"
    else generateMerkleProof tree (Z.to_nat leafIndex).

Definition Verify (proof commitment : bytes) (data : list bytes) : result bool :=
  if (length data =? 0)%nat then Ok false
  else
    tree ← buildMerkleTree data;
    verifyMerkleProof proof commitment tree.

End MerkleProofSystem.

#[global] Instance NewMerkleProofSystem : ProofSystem := {
  ps_Prove := MerkleProofSystem.Prove;
  ps_Verify := MerkleProofSystem.Verify
}.

(** ** Transactions ([PHTManager] and [MTManager]) *)

Definition uint64_max : Z := 2 ^ 64 - 1.
Definition to_uint64 (x : Z) : Z := x mod 2 ^ 64.
Definition to_int64 (x : Z) : Z := (x + 2 ^ 63) mod 2 ^ 64 - 2 ^ 63.

(** [common.Address.Bytes()] and [common.Hash.Bytes()]. *)
Definition Address_Bytes (a : Z) : bytes := be_bytes 20 a.
Definition Hash_Bytes (h : Z) : bytes := be_bytes 32 h.

Record PHTTransaction := {
  (* visible fields *)
  pht_Sender : Z;
  pht_GasPrice : Z;
  pht_Commitment : bytes;
  pht_Nonce : bytes;
  pht_Timestamp : Z;
  (* hidden fields *)
  pht_Recipient : Z;
  pht_Value : Z;
  pht_CallData : bytes;
  pht_TxType : Z;
  pht_GasLimit : Z;
  pht_TxHash : Z
}.

Record MTTransaction := {
  mt_Recipient : Z;
  mt_Value : Z;
  mt_CallData : bytes;
  mt_TxType : Z;
  mt_GasLimit : Z;
  mt_PHTHash : Z;
  mt_Proof : bytes;
  mt_Timestamp : Z;
  mt_TxHash : Z
}.

(** What the code reads of a [types.Transaction]; [tx_Sender] is the outcome
    of the signature recovery [types.Sender]. *)
Record Transaction := {
  tx_Sender : result Z;
  tx_To : option Z;
  tx_Value : Z;
  tx_Data : bytes;
  tx_Type : Z;
  tx_Gas : Z;
  tx_GasPrice : Z;
  tx_Hash : Z
}.

(** The five hidden fields as they are committed to and proved:
    [recipient.Bytes(), value.Bytes(), callData, {txType}, {byte(gasLimit)}]. *)
Definition hiddenData (recipient value : Z) (callData : bytes) (txType gasLimit : Z)
  : list bytes :=
  [ Address_Bytes recipient; big_Bytes value; callData;
    [byte_of_Z txType]; [byte_of_Z gasLimit] ].

Definition PHT_Hash (pht : PHTTransaction) : Z :=
  let hasher := Write sha256_New (Address_Bytes (pht_Sender pht)) in
  let hasher := Write hasher (big_Bytes (pht_GasPrice pht)) in
  let hasher := Write hasher (pht_Commitment pht) in
  let hasher := Write hasher (pht_Nonce pht) in
  let timestampBytes := le_bytes 8 (pht_Timestamp pht) in
  let hasher := Write hasher timestampBytes in
  BytesToHash (Sum hasher).

Definition MT_Hash (mt : MTTransaction) : Z :=
  let hasher := Write sha256_New (Address_Bytes (mt_Recipient mt)) in
  let hasher := Write hasher (big_Bytes (mt_Value mt)) in
  let hasher := Write hasher (mt_CallData mt) in
  let hasher := Write hasher [byte_of_Z (mt_TxType mt)] in
  let gasLimitBytes := le_bytes 8 (mt_GasLimit mt) in
  let hasher := Write hasher gasLimitBytes in
  let hasher := Write hasher (Hash_Bytes (mt_PHTHash mt)) in
  let timestampBytes := le_bytes 8 (mt_Timestamp mt) in
  let hasher := Write hasher timestampBytes in
  BytesToHash (Sum hasher).

Section Managers.
Context {CS : CommitmentScheme} {PS : ProofSystem}.

(** [now] is [time.Now().Unix()] and [nonce] the anti-MEV nonce drawn for
    this transaction. *)
Definition CreatePHT (now : Z) (nonce : bytes) (tx : Transaction) : result PHTTransaction :=
  sender ← tx_Sender tx;
  let recipient := match tx_To tx with Some a => a | None => 0 end in
  commitment ← cs_Commit
    (hiddenData recipient (tx_Value tx) (tx_Data tx) (tx_Type tx) (tx_Gas tx));
  Ok {| pht_Sender := sender;
        pht_GasPrice := tx_GasPrice tx;
        pht_Commitment := commitment;
        pht_Nonce := nonce;
        pht_Timestamp := to_uint64 now;
        pht_Recipient := recipient;
        pht_Value := tx_Value tx;
        pht_CallData := tx_Data tx;
        pht_TxType := tx_Type tx;
        pht_GasLimit := tx_Gas tx;
        pht_TxHash := tx_Hash tx |}.

Definition ValidatePHT (pht : PHTTransaction) : error :=
  if negb (cs_Verify (pht_Commitment pht)
             (hiddenData (pht_Recipient pht) (pht_Value pht) (pht_CallData pht)
                         (pht_TxType pht) (pht_GasLimit pht)))
  then Some "invalid commitment"
  else if (length (pht_Nonce pht) =? 0)%nat then Some "missing anti-MEV nonce"
  else if pht_Timestamp pht =? 0 then Some "missing timestamp"
  else if pht_GasPrice pht <=? 0 then Some "invalid gas price"
  else None.

Definition CreateMT (now : Z) (pht : PHTTransaction) : result MTTransaction :=
  proof ← ps_Prove (pht_Commitment pht)
    (hiddenData (pht_Recipient pht) (pht_Value pht) (pht_CallData pht)
                (pht_TxType pht) (pht_GasLimit pht));
  Ok {| mt_Recipient := pht_Recipient pht;
        mt_Value := pht_Value pht;
        mt_CallData := pht_CallData pht;
        mt_TxType := pht_TxType pht;
        mt_GasLimit := pht_GasLimit pht;
        mt_PHTHash := PHT_Hash pht;
        mt_Proof := proof;
        mt_Timestamp := to_uint64 now;
        mt_TxHash := pht_TxHash pht |}.

Definition VerifyMT (mt : MTTransaction) (pht : PHTTransaction) : result error :=
  valid ← ps_Verify (mt_Proof mt) (pht_Commitment pht)
    (hiddenData (mt_Recipient mt) (mt_Value mt) (mt_CallData mt)
                (mt_TxType mt) (mt_GasLimit mt));
  Ok (if negb valid then Some "invalid proof"
      else if negb (mt_PHTHash mt =? PHT_Hash pht) then Some "PHT hash mismatch"
      else if negb (mt_Recipient mt =? pht_Recipient pht) then Some "recipient mismatch"
      else if negb (mt_Value mt =? pht_Value pht) then Some "value mismatch"
      else if negb (bool_decide (mt_CallData mt = pht_CallData pht))
        then Some "call data mismatch"
      else if negb (mt_TxType mt =? pht_TxType pht) then Some "transaction type mismatch"
      else if negb (mt_GasLimit mt =? pht_GasLimit pht) then Some "gas limit mismatch"
      else None).

(** [VerifyMT] on the pointers a block holds: reading a field of a nil
    transaction panics. *)
Definition VerifyMT_ptr (mt : option MTTransaction) (pht : option PHTTransaction)
  : result error :=
  match mt, pht with
  | Some mt, Some pht => VerifyMT mt pht
  | _, _ => Panic "nil pointer dereference"
  end.

End Managers.

(** ** Binary64 numbers

    The numbers of [float64] that are zero or positive and finite are the
    multiples [m * 2^e] of 2^-1074 that [spec_float] writes with a mantissa
    [m] below 2^53. *)

(** The value of such a number, counted in units of 2^-1074. *)
Definition SFvalue (x : spec_float) : Z :=
  match x with
  | S754_finite false m e => Zpos m * 2 ^ (e + 1074)
  | _ => 0
  end.

(** Zero, or finite and positive. *)
Definition SFnonneg (x : spec_float) : bool :=
  match x with
  | S754_zero _ | S754_finite false _ _ => true
  | _ => false
  end.

(** Where the number [num / den] lies between the integers [m] and [m + 1]:
    on [m], below the middle, on it, or above. *)
Definition located (num den m : Z) (l : location) : Prop :=
  match l with
  | loc_Exact => num = m * den
  | loc_Inexact Lt => m * den < num /\ 2 * num < (2 * m + 1) * den
  | loc_Inexact Eq => 2 * num = (2 * m + 1) * den
  | loc_Inexact Gt => (2 * m + 1) * den < 2 * num /\ num < (m + 1) * den
  end.

(** The result of rounding to [m2] units of the grid of exponent [e1]:
    renormalised when [m2] has reached 2^53, infinite beyond the largest
    exponent. *)
Definition rounded (m2 e1 : Z) : spec_float :=
  if m2 =? 0 then S754_zero false
  else if m2 =? 2 ^ 53 then
    if e1 + 1 <=? 971 then S754_finite false (2 ^ 52) (e1 + 1) else S754_infinity false
  else if e1 <=? 971 then S754_finite false (Z.to_pos m2) e1 else S754_infinity false.

(** [float64(n)] for an [int] that is not negative, such as the [len] of a
    slice: the nearest binary64 number. *)
Definition float64_of_int (n : Z) : float := PrimFloat.of_uint63 (Uint63.of_Z n).

(** The exact value of a [float64], and 0 for an infinity or a NaN. *)
Definition float64_value (x : float) : Q :=
  match Prim2SF x with
  | S754_finite s m e =>
      let v := if 0 <=? e then inject_Z (Zpos m * 2 ^ e) else Zpos m # (2 ^ Z.to_pos (- e)) in
      if s then (- v)%Q else v
  | _ => 0%Q
  end.

(** ** The MEV detector (src/unnamed/part_002) *)

Module MEVDetector.

Definition has_signature (signatures : list string) (callData : bytes) : bool :=
  if (length callData <? 4)%nat then false
  else
    let signature := Bytes2Hex (firstn 4 callData) in
    existsb (String.eqb signature) signatures.

Definition hasDEXFunctionSignature : bytes -> bool :=
  has_signature
    [ "0x38ed1739"; "0x7ff36ab5"; "0x18cbafe5"; "0xfb3bdb41"; "0x8803dbee";
      "0x4a25d94a" ]%string.

Definition hasFrontRunPattern : bytes -> bool :=
  has_signature
    [ "0xa9059cbb"; "0x23b872dd"; "0x095ea7b3"; "0x40c10f19"; "0x42966c68" ]%string.

Definition hasArbitrageFunctionSignature : bytes -> bool :=
  has_signature [ "0x6a627842"; "0x79cc6790"; "0x18160ddd"; "0x70a08231" ]%string.

Definition hasLiquidationFunctionSignature : bytes -> bool :=
  has_signature [ "0x42842e0e"; "0xb88d4fde"; "0x23b872dd"; "0xa9059cbb" ]%string.

Definition isKnownArbitrageContract (address : Z) : bool :=
  existsb (Z.eqb address)
    [ 0x7a250d5630B4cF539739dF2C5dAcb4c659F2488D;
      0x1b02dA8Cb0d097eB8D57A175b88c7D8b47997506;
      0xE592427A0AEce92De3Edee1F18E0157C05861564 ].

Definition isKnownLiquidationContract (address : Z) : bool :=
  existsb (Z.eqb address)
    [ 0x3ed3B47Dd13EC9a98b44e6204A523E766B225811;
      0x7d2768dE32b0b80b7a3454c06BdAc94A69DDc7A9;
      0x398eC7346DcD622eDc5ae82352F02bE94C62d119 ].

Definition isSandwichPattern (pht : PHTTransaction) : bool :=
  if pht_GasPrice pht >? 10000000000 then true
  else if pht_Value pht >? 1000000000000000000 then true
  else if (0 <? length (pht_CallData pht))%nat
          && hasDEXFunctionSignature (pht_CallData pht) then true
  else false.

Definition isFrontRunPattern (pht : PHTTransaction) : bool :=
  if pht_GasPrice pht >? 50000000000 then true
  else if (0 <? length (pht_CallData pht))%nat
          && hasFrontRunPattern (pht_CallData pht) then true
  else false.

Definition isArbitragePattern (pht : PHTTransaction) : bool :=
  if (0 <? length (pht_CallData pht))%nat
     && hasArbitrageFunctionSignature (pht_CallData pht) then true
  else if isKnownArbitrageContract (pht_Recipient pht) then true
  else false.

Definition isLiquidationPattern (pht : PHTTransaction) : bool :=
  if (0 <? length (pht_CallData pht))%nat
     && hasLiquidationFunctionSignature (pht_CallData pht) then true
  else if isKnownLiquidationContract (pht_Recipient pht) then true
  else false.

(** The bound is the number the source writes, 10^19 wei (it does not fit
    the [int64] that [big.NewInt] takes). *)
Definition isHighValuePattern (pht : PHTTransaction) : bool :=
  pht_Value pht >? 10000000000000000000.

Definition isContractInteractionPattern (pht : PHTTransaction) : bool :=
  (0 <? length (pht_CallData pht))%nat.

(** [if cond { score -= penalty; attacks = append(attacks, label...) }] *)
Definition penalise (cond : bool) (penalty : float) (label : list string)
    (st : float * list string) : float * list string :=
  if cond then ((fst st - penalty)%float, snd st ++ label) else st.

Definition clamp01 (score : float) : float :=
  let score := if (score <? 0)%float then 0%float else score in
  if (1 <? score)%float then 1%float else score.

Definition analyzeTransaction (pht : PHTTransaction) : float * list string :=
  let st := (1%float, []) in
  let st := penalise (isSandwichPattern pht) 0.3 ["sandwich_attack"%string] st in
  let st := penalise (isFrontRunPattern pht) 0.2 ["front_running"%string] st in
  let st := penalise (isArbitragePattern pht) 0.1 ["arbitrage"%string] st in
  let st := penalise (isLiquidationPattern pht) 0.25 ["liquidation"%string] st in
  let st := penalise (isHighValuePattern pht) 0.15 [] st in
  let st := penalise (isContractInteractionPattern pht) 0.1 [] st in
  (clamp01 (fst st), snd st).

(** Keeps the first occurrence of every label, in order. *)
Definition removeDuplicateAttacks (attacks : list string) : list string :=
  snd (fold_left
    (fun (st : gset string * list string) attack =>
       let '(seen, result) := st in
       if bool_decide (attack ∈ seen) then st
       else ({[attack]} ∪ seen, result ++ [attack]))
    attacks (∅, [])).

(** The loop of [DetectMEV]: the running total, from 0, and the labels so
    far. *)
Definition accumulate (phts : list PHTTransaction) : float * list string :=
  fold_left
    (fun acc pht =>
       let '(score, attacks) := analyzeTransaction pht in
       ((fst acc + score)%float, snd acc ++ attacks))
    phts (0%float, []).

Definition DetectMEV (phts : list PHTTransaction) : float * list string :=
  if (length phts =? 0)%nat then (1%float, [])
  else
    let '(totalScore, detectedAttacks) := accumulate phts in
    let avgScore := (totalScore / float64_of_int (Z.of_nat (length phts)))%float in
    (avgScore, removeDuplicateAttacks detectedAttacks).

End MEVDetector.

(** ** The analysis of one transaction in exact arithmetic

    [analyzeTransaction] once more, the penalties being the decimal numbers
    the source writes and the subtractions exact. *)

Definition Qltb (x y : Q) : bool := negb (Qle_bool y x).

Definition penalise_exact (cond : bool) (penalty : Q) (label : list string)
    (st : Q * list string) : Q * list string :=
  if cond then (fst st - penalty, snd st ++ label)%Q else st.

Definition clamp01_exact (score : Q) : Q :=
  let score := if Qltb score 0 then 0%Q else score in
  if Qltb 1 score then 1%Q else score.

Definition analyzeTransaction_exact (pht : PHTTransaction) : Q * list string :=
  let st := (1%Q, []) in
  let st := penalise_exact (MEVDetector.isSandwichPattern pht) 0.3 ["sandwich_attack"%string] st in
  let st := penalise_exact (MEVDetector.isFrontRunPattern pht) 0.2 ["front_running"%string] st in
  let st := penalise_exact (MEVDetector.isArbitragePattern pht) 0.1 ["arbitrage"%string] st in
  let st := penalise_exact (MEVDetector.isLiquidationPattern pht) 0.25 ["liquidation"%string] st in
  let st := penalise_exact (MEVDetector.isHighValuePattern pht) 0.15 [] st in
  let st := penalise_exact (MEVDetector.isContractInteractionPattern pht) 0.1 [] st in
  (clamp01_exact (fst st), snd st).

(** ** Proposer selection (src/consensus/p2s/validator_manager.go) *)

Record Validator := {
  v_Address : Z;
  v_Stake : Z;
  v_Reputation : Z;
  v_IsActive : bool;
  v_LastBlock : Z;
  v_CreatedAt : Z;
  v_UpdatedAt : Z
}.

Module WeightedRandomSelection.

(** [stake * (reputation + 100)], the sum computed in [int64]. *)
Definition weight (validator : Validator) : Z :=
  let reputationFactor := to_int64 (v_Reputation validator + 100) in
  v_Stake validator * reputationFactor.

Definition totalWeight (range : list (Z * Validator)) : Z :=
  fold_left
    (fun total '(_, validator) =>
       if v_IsActive validator then total + weight validator else total)
    range 0.

(** [big.Int.Rand]: a number in [[0, n)], and [0] when [n <= 0]; [draw] is
    what the random source yields. *)
Definition big_Rand (draw n : Z) : Z := if n <=? 0 then 0 else draw mod n.

(** The weighted loop: the first active validator at which the running
    weight reaches the draw. *)
Fixpoint pick (range : list (Z * Validator)) (currentWeight randomWeight : Z)
  : option Z :=
  match range with
  | [] => None
  | (address, validator) :: rest =>
      if v_IsActive validator then
        let currentWeight := currentWeight + weight validator in
        if currentWeight >=? randomWeight then Some address
        else pick rest currentWeight randomWeight
      else pick rest currentWeight randomWeight
  end.

Fixpoint first_active (range : list (Z * Validator)) : option Z :=
  match range with
  | [] => None
  | (address, validator) :: rest =>
      if v_IsActive validator then Some address else first_active rest
  end.

(** [SelectProposer] with the order in which each of its three [range]
    statements visits the map (Go leaves that order unspecified); the result
    is the address and the error. *)
Definition SelectProposer_ranges (range1 range2 range3 : list (Z * Validator))
    (draw : Z) : Z * error :=
  if (length range1 =? 0)%nat then (0, Some "no validators available")
  else
    let totalWeight := totalWeight range1 in
    if totalWeight =? 0 then (0, Some "no active validators")
    else
      let randomWeight := big_Rand draw totalWeight in
      match pick range2 0 randomWeight with
      | Some address => (address, None)
      | None =>
          match first_active range3 with
          | Some address => (address, None)
          | None => (0, Some "no active validators found")
          end
      end.

Definition SelectProposer (validators : gmap Z Validator) (draw : Z) : Z * error :=
  let range := map_to_list validators in
  SelectProposer_ranges range range range draw.

End WeightedRandomSelection.

(** The registry and the operations that change what the selection sees. *)
Record ValidatorManager := {
  validators : gmap Z Validator;
  vm_MinStake : Z;
  vm_MaxValidators : Z
}.

Definition with_validators (vs : gmap Z Validator) (v : ValidatorManager)
  : ValidatorManager :=
  {| validators := vs; vm_MinStake := vm_MinStake v;
     vm_MaxValidators := vm_MaxValidators v |}.

(** [config] supplies [MinStake] and [MaxValidators]; [now] is
    [time.Now().Unix()]. *)
Definition NewValidatorManager (minStake maxValidators : Z) : ValidatorManager :=
  {| validators := ∅; vm_MinStake := minStake; vm_MaxValidators := maxValidators |}.

Definition AddValidator (now address stake : Z) (v : ValidatorManager)
  : error * ValidatorManager :=
  if stake <? vm_MinStake v then (Some "stake below minimum", v)
  else if Z.of_nat (size (validators v)) >=? vm_MaxValidators v
  then (Some "maximum validators reached", v)
  else
    let validator :=
      {| v_Address := address; v_Stake := stake; v_Reputation := 100;
         v_IsActive := true; v_LastBlock := 0;
         v_CreatedAt := to_uint64 now; v_UpdatedAt := to_uint64 now |} in
    (None, with_validators (<[address := validator]> (validators v)) v).

Definition UpdateReputation (now address score : Z) (v : ValidatorManager)
  : ValidatorManager :=
  match validators v !! address with
  | None => v
  | Some validator =>
      let reputation := to_int64 (v_Reputation validator + score) in
      let reputation := if reputation >? 1000 then 1000 else reputation in
      let reputation := if reputation <? -1000 then -1000 else reputation in
      let validator :=
        {| v_Address := v_Address validator; v_Stake := v_Stake validator;
           v_Reputation := reputation; v_IsActive := v_IsActive validator;
           v_LastBlock := v_LastBlock validator;
           v_CreatedAt := v_CreatedAt validator; v_UpdatedAt := to_uint64 now |} in
      with_validators (<[address := validator]> (validators v)) v
  end.

Definition ValidatorManager_SelectProposer (draw : Z) (v : ValidatorManager)
  : Z * error :=
  WeightedRandomSelection.SelectProposer (validators v) draw.

(** ** Blocks and their cache (src/consensus/p2s/block.go) *)

(** What the code reads of a [types.Header]; [h_Hash] stands for
    [header.Hash()]. *)
Record Header := {
  h_ParentHash : Z;
  h_Extra : bytes;
  h_Hash : Z
}.

(** [header.Hash()]. On a nil header go-ethereum hashes the RLP encoding
    of a nil pointer, the empty list [0xc0]: the call does not panic. *)
Definition nil_Header_Hash : Z :=
  0x1dcc4de8dec75d7aab85b567b6ccd41ad312451b948a7413f0a142fd40d49347.

Definition Header_Hash (header : option Header) : Z :=
  match header with
  | Some h => h_Hash h
  | None => nil_Header_Hash
  end.

Record B1Block := {
  b1_Header : option Header;
  b1_PHTs : list (option PHTTransaction);
  b1_BlockType : Z;
  b1_MEVScore : float;
  b1_DetectedAttacks : list string;
  b1_ValidatorSig : bytes;
  b1_Timestamp : Z;
  b1_BlockHash : Z
}.

Record B2Block := {
  b2_Header : option Header;
  b2_MTs : list (option MTTransaction);
  b2_BlockType : Z;
  b2_B1BlockHash : Z;
  b2_ValidatorSig : bytes;
  b2_Timestamp : Z;
  b2_BlockHash : Z
}.

(** [string(rune(i))]: the UTF-8 encoding of the code point [i], and of
    U+FFFD when [i] is not a valid code point. *)
Definition string_of_rune (i : Z) : string :=
  let ch z := ascii_of_N (Z.to_N z) in
  let str := string_of_list_ascii in
  if (i <? 0) || (0x10FFFF <? i) || ((0xD800 <=? i) && (i <=? 0xDFFF))
  then str [ch 0xEF; ch 0xBF; ch 0xBD]
  else if i <? 0x80 then str [ch i]
  else if i <? 0x800 then str [ch (0xC0 + i / 64); ch (0x80 + i mod 64)]
  else if i <? 0x10000 then
    str [ch (0xE0 + i / 4096); ch (0x80 + (i / 64) mod 64); ch (0x80 + i mod 64)]
  else
    str [ch (0xF0 + i / 262144); ch (0x80 + (i / 4096) mod 64);
         ch (0x80 + (i / 64) mod 64); ch (0x80 + i mod 64)].

Definition at_index (msg : string) (i : nat) : string :=
  (msg +:+ string_of_rune (Z.of_nat i))%string.

(** [uint64(time.Now().Unix()+60)], [now] being [time.Now().Unix()]. *)
Definition future_limit (now : Z) : Z := to_uint64 (to_int64 (now + 60)).

Definition B1_check_phts (phts : list (option PHTTransaction)) : error :=
  let fix loop (i : nat) (l : list (option PHTTransaction)) : error :=
    match l with
    | [] => None
    | None :: _ => Some (at_index "nil PHT at index " i)
    | Some pht :: rest =>
        if PHT_Hash pht =? 0 then Some (at_index "invalid PHT hash at index " i)
        else loop (S i) rest
    end in
  loop O phts.

Definition B1Block_Validate (now : Z) (b : B1Block) : error :=
  match b1_Header b with
  | None => Some "missing header"
  | Some _ =>
      if negb (b1_BlockType b =? 1) then Some "invalid block type for B1 block"
      else if (length (b1_PHTs b) =? 0)%nat then Some "no PHTs in B1 block"
      else
        match B1_check_phts (b1_PHTs b) with
        | Some e => Some e
        | None =>
            if (b1_MEVScore b <? 0)%float || (1 <? b1_MEVScore b)%float
            then Some "invalid MEV score"
            else if b1_Timestamp b =? 0 then Some "missing timestamp"
            else if b1_Timestamp b >? future_limit now
            then Some "timestamp in the future"
            else None
        end
  end.

(** The loop of [B2Block.Validate] over [b.MTs], reading [b1Block.PHTs[i]]. *)
Fixpoint B2_check_mts (i : nat) (mts : list (option MTTransaction))
    (phts : list (option PHTTransaction)) : result error :=
  match mts with
  | [] => Ok None
  | None :: _ => Ok (Some (at_index "nil MT at index " i))
  | Some mt :: rest =>
      match phts !! i with
      | None => Panic "index out of range"
      | Some None => Ok (Some (at_index "nil PHT at index " i))
      | Some (Some pht) =>
          if MT_Hash mt =? 0 then Ok (Some (at_index "invalid MT hash at index " i))
          else if negb (mt_PHTHash mt =? PHT_Hash pht)
          then Ok (Some (at_index "PHT hash mismatch at index " i))
          else B2_check_mts (S i) rest phts
      end
  end.

Definition B2Block_Validate (now : Z) (b : B2Block) (b1Block : B1Block) : result error :=
  match b2_Header b with
  | None => Ok (Some "missing header")
  | Some _ =>
      if negb (b2_BlockType b =? 2) then Ok (Some "invalid block type for B2 block")
      else if negb (b2_B1BlockHash b =? b1_BlockHash b1Block)
      then Ok (Some "B1 block hash mismatch")
      else if (length (b2_MTs b) =? 0)%nat then Ok (Some "no MTs in B2 block")
      else if negb (length (b2_MTs b) =? length (b1_PHTs b1Block))%nat
      then Ok (Some "MT count mismatch with B1 PHTs")
      else
        err ← B2_check_mts 0 (b2_MTs b) (b1_PHTs b1Block);
        match err with
        | Some e => Ok (Some e)
        | None =>
            if b2_Timestamp b =? 0 then Ok (Some "missing timestamp")
            else if b2_Timestamp b >? future_limit now
            then Ok (Some "timestamp in the future")
            else if b2_Timestamp b <=? b1_Timestamp b1Block
            then Ok (Some "B2 timestamp must be after B1 timestamp")
            else Ok None
        end
  end.

Record P2SCache := {
  b1Blocks : gmap Z B1Block;
  b2Blocks : gmap Z B2Block;
  phtCache : gmap Z PHTTransaction;
  mtCache : gmap Z MTTransaction;
  commitmentCache : gmap string bytes;
  maxSize : Z
}.

Definition NewP2SCache : P2SCache :=
  {| b1Blocks := ∅; b2Blocks := ∅; phtCache := ∅; mtCache := ∅;
     commitmentCache := ∅; maxSize := 1000 |}.

(** The scan of the [evictOldest...] functions over the entries in the
    order [range] visits them: the key and time of the first entry strictly
    older than everything before it, starting from the zero hash and the
    largest [uint64]. *)
Definition scan_oldest {V} (timestamp : V -> Z) (range : list (Z * V)) : Z * Z :=
  fold_left
    (fun '(oldestHash, oldestTime) '(hash, v) =>
       if timestamp v <? oldestTime then (hash, timestamp v)
       else (oldestHash, oldestTime))
    range (0, uint64_max).

Definition evict_oldest {V} (timestamp : V -> Z) (range : list (Z * V))
    (m : gmap Z V) : gmap Z V :=
  let '(oldestHash, _) := scan_oldest timestamp range in
  delete oldestHash m.

(** [range] is the order in which the scan visits the map; Go does not fix
    it. The functions without [_in] take the order of [map_to_list]. *)
Definition evictOldestB1Block_in (range : list (Z * B1Block)) (c : P2SCache) : P2SCache :=
  {| b1Blocks := evict_oldest b1_Timestamp range (b1Blocks c);
     b2Blocks := b2Blocks c; phtCache := phtCache c; mtCache := mtCache c;
     commitmentCache := commitmentCache c; maxSize := maxSize c |}.

Definition evictOldestB2Block_in (range : list (Z * B2Block)) (c : P2SCache) : P2SCache :=
  {| b1Blocks := b1Blocks c;
     b2Blocks := evict_oldest b2_Timestamp range (b2Blocks c);
     phtCache := phtCache c; mtCache := mtCache c;
     commitmentCache := commitmentCache c; maxSize := maxSize c |}.

Definition evictOldestPHT_in (range : list (Z * PHTTransaction)) (c : P2SCache) : P2SCache :=
  {| b1Blocks := b1Blocks c; b2Blocks := b2Blocks c;
     phtCache := evict_oldest pht_Timestamp range (phtCache c);
     mtCache := mtCache c;
     commitmentCache := commitmentCache c; maxSize := maxSize c |}.

Definition evictOldestPHT (c : P2SCache) : P2SCache :=
  evictOldestPHT_in (map_to_list (phtCache c)) c.

Definition with_b1Block (hash : Z) (block : B1Block) (c : P2SCache) : P2SCache :=
  {| b1Blocks := <[hash := block]> (b1Blocks c);
     b2Blocks := b2Blocks c; phtCache := phtCache c; mtCache := mtCache c;
     commitmentCache := commitmentCache c; maxSize := maxSize c |}.

Definition with_b2Block (hash : Z) (block : B2Block) (c : P2SCache) : P2SCache :=
  {| b1Blocks := b1Blocks c;
     b2Blocks := <[hash := block]> (b2Blocks c);
     phtCache := phtCache c; mtCache := mtCache c;
     commitmentCache := commitmentCache c; maxSize := maxSize c |}.

Definition with_pht (hash : Z) (pht : PHTTransaction) (c : P2SCache) : P2SCache :=
  {| b1Blocks := b1Blocks c; b2Blocks := b2Blocks c;
     phtCache := <[hash := pht]> (phtCache c);
     mtCache := mtCache c;
     commitmentCache := commitmentCache c; maxSize := maxSize c |}.

Definition set_b1_BlockHash (hash : Z) (b : B1Block) : B1Block :=
  {| b1_Header := b1_Header b; b1_PHTs := b1_PHTs b; b1_BlockType := b1_BlockType b;
     b1_MEVScore := b1_MEVScore b; b1_DetectedAttacks := b1_DetectedAttacks b;
     b1_ValidatorSig := b1_ValidatorSig b; b1_Timestamp := b1_Timestamp b;
     b1_BlockHash := hash |}.

Definition set_b2_BlockHash (hash : Z) (b : B2Block) : B2Block :=
  {| b2_Header := b2_Header b; b2_MTs := b2_MTs b; b2_BlockType := b2_BlockType b;
     b2_B1BlockHash := b2_B1BlockHash b; b2_ValidatorSig := b2_ValidatorSig b;
     b2_Timestamp := b2_Timestamp b; b2_BlockHash := hash |}.

(** [SetB1Block] and [SetB2Block] write [BlockHash] through the pointer
    they are given. The maps of [P2SCache] hold the blocks themselves, which
    says the same as long as a block is stored under one hash, as are the
    blocks the engine allocates and stores; [B1Store] below keeps the
    pointers. *)
Definition SetB1Block_in (range : list (Z * B1Block)) (hash : Z) (block : B1Block)
    (c : P2SCache) : P2SCache :=
  let c := if Z.of_nat (size (b1Blocks c)) >=? maxSize c
           then evictOldestB1Block_in range c else c in
  with_b1Block hash (set_b1_BlockHash hash block) c.

Definition SetB1Block (hash : Z) (block : B1Block) (c : P2SCache) : P2SCache :=
  SetB1Block_in (map_to_list (b1Blocks c)) hash block c.

Definition GetB1Block (hash : Z) (c : P2SCache) : option B1Block := b1Blocks c !! hash.

Definition SetB2Block_in (range : list (Z * B2Block)) (hash : Z) (block : B2Block)
    (c : P2SCache) : P2SCache :=
  let c := if Z.of_nat (size (b2Blocks c)) >=? maxSize c
           then evictOldestB2Block_in range c else c in
  with_b2Block hash (set_b2_BlockHash hash block) c.

Definition SetB2Block (hash : Z) (block : B2Block) (c : P2SCache) : P2SCache :=
  SetB2Block_in (map_to_list (b2Blocks c)) hash block c.

Definition GetB2Block (hash : Z) (c : P2SCache) : option B2Block := b2Blocks c !! hash.

Definition SetPHT_in (range : list (Z * PHTTransaction)) (hash : Z)
    (pht : PHTTransaction) (c : P2SCache) : P2SCache :=
  let c := if Z.of_nat (size (phtCache c)) >=? maxSize c
           then evictOldestPHT_in range c else c in
  with_pht hash pht c.

Definition SetPHT (hash : Z) (pht : PHTTransaction) (c : P2SCache) : P2SCache :=
  SetPHT_in (map_to_list (phtCache c)) hash pht c.

Definition GetPHT (hash : Z) (c : P2SCache) : option PHTTransaction := phtCache c !! hash.

(** *** The B1 blocks of the cache behind their pointers

    The B1 blocks by address, and the map of the cache from hashes to
    addresses: a block stored under two hashes is one block. *)
Record B1Store := {
  b1_at : Z -> B1Block;
  b1_index : gmap Z Z;
  b1_maxSize : Z
}.

Definition GetB1Block_at (hash : Z) (s : B1Store) : option B1Block :=
  b1_at s <$> b1_index s !! hash.

(** [SetB1Block(hash, block)] for the block at [address]: the eviction
    reads the time stamps through the pointers, [block.BlockHash = hash]
    changes the block where it is, and the pointer goes into the map. *)
Definition SetB1Block_at (range : list (Z * Z)) (hash address : Z) (s : B1Store)
  : B1Store :=
  let index := if Z.of_nat (size (b1_index s)) >=? b1_maxSize s
               then evict_oldest (fun a => b1_Timestamp (b1_at s a)) range (b1_index s)
               else b1_index s in
  {| b1_at := fun a => if decide (a = address)
                       then set_b1_BlockHash hash (b1_at s address) else b1_at s a;
     b1_index := <[hash := address]> index;
     b1_maxSize := b1_maxSize s |}.

(** The blocks a store holds, read through its pointers, as a cache. *)
Definition cache_of_store (s : B1Store) : P2SCache :=
  {| b1Blocks := b1_at s <$> b1_index s; b2Blocks := ∅; phtCache := ∅; mtCache := ∅;
     commitmentCache := ∅; maxSize := b1_maxSize s |}.

(** ** The consensus engine (src/consensus/p2s/p2s.go) *)

Record P2SConfig := {
  MinMEVScore : float;
  MaxMEVScore : float;
  MinStake : Z;
  MaxValidators : Z
}.

Definition DefaultP2SConfig : P2SConfig :=
  {| MinMEVScore := 0.7%float; MaxMEVScore := 1%float;
     MinStake := 1000000000000000000; MaxValidators := 100 |}.

(** The engine's mutable state. Its managers are fixed at construction:
    the Pedersen commitment scheme and the Merkle proof system. *)
Record P2SConsensus := {
  config : P2SConfig;
  cache : P2SCache
}.

Definition NewP2SConsensus (cfg : P2SConfig) : P2SConsensus :=
  {| config := cfg; cache := NewP2SCache |}.

Definition with_cache (c : P2SCache) (p : P2SConsensus) : P2SConsensus :=
  {| config := config p; cache := c |}.

Section Engine.
Context {CS : CommitmentScheme} {PS : ProofSystem}.

(** The clock and the nonce source as the conversions read them: for the
    [i]-th transaction, [time.Now().Unix()] and the nonce generated. *)
Variable readings : nat -> Z * bytes.

Fixpoint convertToPHTs_from (i : nat) (txs : list Transaction)
    (phts : list PHTTransaction) : result (list PHTTransaction) :=
  match txs with
  | [] => Ok phts
  | tx :: rest =>
      pht ← CreatePHT (fst (readings i)) (snd (readings i)) tx;
      convertToPHTs_from (S i) rest (phts ++ [pht])
  end.

Definition convertToPHTs (txs : list Transaction) : result (list PHTTransaction) :=
  convertToPHTs_from 0 txs [].

(** [p.getPendingTransactions()]: the mempool is not wired in, the batch is
    empty. *)
Definition getPendingTransactions : list Transaction := [].

(** The body of [prepareB1Block] after the pending batch is fetched; [now]
    is [time.Now().Unix()], read alike when the block is stamped and when
    [Validate] compares the stamp with the clock. The result is the returned
    error and the engine afterwards. *)
Definition prepareB1Block_on (pendingTxs : list Transaction) (now : Z)
    (header : option Header) (p : P2SConsensus) : result error * P2SConsensus :=
  match convertToPHTs pendingTxs with
  | Panic e => (Panic e, p)
  | Err e => (Ok (Some e), p)
  | Ok phts =>
      let '(mevScore, attacks) := MEVDetector.DetectMEV phts in
      if (mevScore <? MinMEVScore (config p))%float
      then (Ok (Some "insufficient MEV protection"), p)
      else
        let b1Block :=
          {| b1_Header := header; b1_PHTs := map Some phts; b1_BlockType := 1;
             b1_MEVScore := mevScore; b1_DetectedAttacks := attacks;
             b1_ValidatorSig := []; b1_Timestamp := to_uint64 now;
             b1_BlockHash := 0 |} in
        match B1Block_Validate now b1Block with
        | Some e => (Ok (Some e), p)
        | None =>
            (Ok None, with_cache (SetB1Block (Header_Hash header) b1Block (cache p)) p)
        end
  end.

Definition prepareB1Block (now : Z) (header : option Header) (p : P2SConsensus)
  : result error * P2SConsensus :=
  prepareB1Block_on getPendingTransactions now header p.

(** [CreateMT] on a pointer of a block: reading a field of a nil PHT
    panics. *)
Definition CreateMT_ptr (now : Z) (pht : option PHTTransaction) : result MTTransaction :=
  match pht with
  | Some pht => CreateMT now pht
  | None => Panic "nil pointer dereference"
  end.

(** [clock i] is [time.Now().Unix()] when the [i]-th PHT is converted. *)
Fixpoint convertPHTsToMTs_from (clock : nat -> Z) (i : nat)
    (phts : list (option PHTTransaction)) (mts : list MTTransaction)
  : result (list MTTransaction) :=
  match phts with
  | [] => Ok mts
  | pht :: rest =>
      mt ← CreateMT_ptr (clock i) pht;
      convertPHTsToMTs_from clock (S i) rest (mts ++ [mt])
  end.

Definition convertPHTsToMTs (clock : nat -> Z) (phts : list (option PHTTransaction))
  : result (list MTTransaction) :=
  convertPHTsToMTs_from clock 0 phts [].

(** [finalizeB2Block]: the B2 block over the B1 block cached under the
    header's parent hash. *)
Definition finalizeB2Block (clock : nat -> Z) (now : Z) (header : option Header)
    (p : P2SConsensus) : result error * P2SConsensus :=
  match header with
  | None => (Panic "nil pointer dereference", p)
  | Some h =>
      match GetB1Block (h_ParentHash h) (cache p) with
      | None => (Ok (Some "B1 block not found"), p)
      | Some b1Block =>
          match convertPHTsToMTs clock (b1_PHTs b1Block) with
          | Panic e => (Panic e, p)
          | Err e => (Ok (Some e), p)
          | Ok mts =>
              let b2Block :=
                {| b2_Header := header; b2_MTs := map Some mts; b2_BlockType := 2;
                   b2_B1BlockHash := Header_Hash (b1_Header b1Block);
                   b2_ValidatorSig := []; b2_Timestamp := to_uint64 now;
                   b2_BlockHash := 0 |} in
              match B2Block_Validate now b2Block b1Block with
              | Panic e | Err e => (Panic e, p)
              | Ok (Some e) => (Ok (Some e), p)
              | Ok None =>
                  (Ok None, with_cache (SetB2Block (h_Hash h) b2Block (cache p)) p)
              end
          end
      end
  end.

(** The loop of [validateB2Block] over the MTs of the cached B2 block. *)
Fixpoint validate_mts (i : nat) (mts : list (option MTTransaction))
    (phts : list (option PHTTransaction)) : result error :=
  match mts with
  | [] => Ok None
  | mt :: rest =>
      if (length phts <=? i)%nat then Ok (Some "MT count exceeds PHT count")
      else
        match phts !! i with
        | None => Panic "index out of range"
        | Some pht =>
            err ← VerifyMT_ptr mt pht;
            match err with
            | Some e => Ok (Some e)
            | None => validate_mts (S i) rest phts
            end
        end
  end.

(** [blockHash] is [block.Hash()]. *)
Definition validateB2Block (blockHash : Z) (p : P2SConsensus) : result error :=
  match GetB2Block blockHash (cache p) with
  | None => Ok (Some "B2 block not found in cache")
  | Some b2Block =>
      match GetB1Block (b2_B1BlockHash b2Block) (cache p) with
      | None => Ok (Some "corresponding B1 block not found")
      | Some b1Block => validate_mts 0 (b2_MTs b2Block) (b1_PHTs b1Block)
      end
  end.

End Engine.

(** ** Vocabulary of the statements, and the concrete inputs they are run on *)

Definition bs (l : list Z) : bytes := map byte_of_Z l.

(** The commitment to a message: [g^sha256(msg) mod p], as bytes. *)
Definition commitment_of (msg : bytes) : bytes :=
  big_Bytes (big_Exp PedersenCommitment.generator (big_SetBytes (sha256 msg))
                     PedersenCommitment.modulus).

Definition zero_weight_active (entry : Z * Validator) : Prop :=
  v_IsActive entry.2 = true -> WeightedRandomSelection.weight entry.2 = 0.

(** A registry with one validator: active, staking 1 ETH, whose reputation
    was lowered from 100 to -100. *)
Definition lone_validator : Validator :=
  {| v_Address := 0xA1; v_Stake := 1000000000000000000; v_Reputation := -100;
     v_IsActive := true; v_LastBlock := 0;
     v_CreatedAt := 1700000000; v_UpdatedAt := 1700000600 |}.

(** The list [l] rearranged by [σ]: position [i] receives [l[σ[i]]]. *)
Definition permute {A} (σ : list nat) (l : list A) : list A :=
  omap (fun j => l !! j) σ.

Definition with_MTs (mts : list (option MTTransaction)) (b : B2Block) : B2Block :=
  {| b2_Header := b2_Header b; b2_MTs := mts; b2_BlockType := b2_BlockType b;
     b2_B1BlockHash := b2_B1BlockHash b; b2_ValidatorSig := b2_ValidatorSig b;
     b2_Timestamp := b2_Timestamp b; b2_BlockHash := b2_BlockHash b |}.

(** The PHTs of a block have pairwise distinct hashes. *)
Definition distinct_hashes (phts : list (option PHTTransaction)) : Prop :=
  forall i j p q,
    phts !! i = Some (Some p) -> phts !! j = Some (Some q) ->
    PHT_Hash p = PHT_Hash q -> i = j.

Definition tx_a : Transaction :=
  {| tx_Sender := Ok 0xA11CE; tx_To := Some 0xB0B; tx_Value := 1000;
     tx_Data := []; tx_Type := 0; tx_Gas := 21000;
     tx_GasPrice := 1000000000; tx_Hash := 0x1111 |}.

Definition tx_b : Transaction :=
  {| tx_Sender := Ok 0xCA401; tx_To := Some 0xDA7E; tx_Value := 2500;
     tx_Data := []; tx_Type := 2; tx_Gas := 30000;
     tx_GasPrice := 900000000; tx_Hash := 0x2222 |}.

(** Very high gas price, 100 ETH, a payload, sent to a listed router. *)
Definition tx_risky : Transaction :=
  {| tx_Sender := Ok 0xBAD; tx_To := Some 0x7a250d5630B4cF539739dF2C5dAcb4c659F2488D;
     tx_Value := 100000000000000000000;
     tx_Data := bs [0x38; 0xed; 0x17; 0x39; 0x01]; tx_Type := 0; tx_Gas := 250000;
     tx_GasPrice := 100000000000; tx_Hash := 0x3333 |}.

Definition example_readings (i : nat) : Z * bytes :=
  (1700000000 + Z.of_nat i, be_bytes 32 (Z.of_nat i + 7)).

(** The PHTs [convertToPHTs] makes of these transactions, evaluated. *)
Definition example_phts : list PHTTransaction :=
  Eval vm_compute in
    match convertToPHTs example_readings [tx_a; tx_b] with
    | Ok phts => phts
    | _ => []
    end.

Definition risky_phts : list PHTTransaction :=
  Eval vm_compute in
    match convertToPHTs example_readings [tx_risky] with
    | Ok phts => phts
    | _ => []
    end.

(** The MT that reveals [pht], as [CreateMT] fills it, around a given proof. *)
Definition reveal (now : Z) (proof : bytes) (pht : PHTTransaction) : MTTransaction :=
  {| mt_Recipient := pht_Recipient pht; mt_Value := pht_Value pht;
     mt_CallData := pht_CallData pht; mt_TxType := pht_TxType pht;
     mt_GasLimit := pht_GasLimit pht; mt_PHTHash := PHT_Hash pht;
     mt_Proof := proof; mt_Timestamp := to_uint64 now;
     mt_TxHash := pht_TxHash pht |}.

Definition example_b1 : B1Block :=
  {| b1_Header := Some {| h_ParentHash := 0xB0; h_Extra := bs [1]; h_Hash := 0xB1 |};
     b1_PHTs := map Some example_phts; b1_BlockType := 1;
     b1_MEVScore := 1%float; b1_DetectedAttacks := []; b1_ValidatorSig := [];
     b1_Timestamp := 1700000002; b1_BlockHash := 0xB1 |}.

Definition example_b2_at (timestamp : Z) (mts : list (option MTTransaction)) : B2Block :=
  {| b2_Header := Some {| h_ParentHash := 0xB1; h_Extra := bs [2]; h_Hash := 0xB2 |};
     b2_MTs := mts; b2_BlockType := 2; b2_B1BlockHash := 0xB1;
     b2_ValidatorSig := []; b2_Timestamp := timestamp; b2_BlockHash := 0xB2 |}.

Definition example_mts : list (option MTTransaction) :=
  Eval vm_compute in
    map (fun pht => Some (reveal 1700000014 (bs [1]) pht)) example_phts.

Definition example_b2 : B2Block := example_b2_at 1700000014 example_mts.

(** The per-transaction scores of a batch, and the sum of a list of
    [float64] numbers, taken from 0 in the order of the list. *)
Definition scores (phts : list PHTTransaction) : list float :=
  map (fun pht => (MEVDetector.analyzeTransaction pht).1) phts.

Definition float_sum (l : list float) : float := fold_left PrimFloat.add l 0%float.

(** A plain transfer that bids 20 gwei, and a batch of three of them. *)
Definition brisk_pht (k : Z) : PHTTransaction :=
  {| pht_Sender := k; pht_GasPrice := 20000000000;
     pht_Commitment := bs [1]; pht_Nonce := bs [2]; pht_Timestamp := 1700000000;
     pht_Recipient := 0xB0B; pht_Value := 1000; pht_CallData := [];
     pht_TxType := 0; pht_GasLimit := 21000; pht_TxHash := k |}.

Definition brisk_phts : list PHTTransaction := [brisk_pht 1; brisk_pht 2; brisk_pht 3].

(** An engine whose cache holds [example_b1] and a B2 block on it with the
    given MTs. *)
Definition engine_with (mts : list (option MTTransaction)) : P2SConsensus :=
  {| config := DefaultP2SConfig;
     cache := SetB2Block 0xB2 (example_b2_at 1700000014 mts)
                (SetB1Block 0xB1 example_b1 NewP2SCache) |}.

(** A PHT stamped with the largest [uint64]. *)
Definition max_stamped (k : nat) : PHTTransaction :=
  {| pht_Sender := Z.of_nat k; pht_GasPrice := 1000000000;
     pht_Commitment := bs [1]; pht_Nonce := bs [2]; pht_Timestamp := uint64_max;
     pht_Recipient := 0; pht_Value := 0; pht_CallData := []; pht_TxType := 0;
     pht_GasLimit := 21000; pht_TxHash := Z.of_nat k |}.

(** The cache after [SetPHT] under the keys [1 .. n], from a new cache. *)
Definition filled (n : nat) : P2SCache :=
  fold_left (fun c k => SetPHT (Z.of_nat k) (max_stamped k) c) (seq 1 n) NewP2SCache.

(** [SetPHT] for each entry of a list in turn. *)
Definition insert_all (entries : list (Z * PHTTransaction)) (c : P2SCache) : P2SCache :=
  fold_left (fun c e => SetPHT e.1 e.2 c) entries c.

(** ** The risk report of the detector (src/unnamed/part_002) *)

Definition determineRiskLevel (score : float) : string :=
  if (0.8 <=? score)%float then "low"
  else if (0.6 <=? score)%float then "medium"
  else if (0.4 <=? score)%float then "high"
  else "critical".

Definition generateRecommendations (attacks : list string) (score : float) : list string :=
  let recommendations :=
    if (score <? 0.7)%float
    then ["Consider using private mempool or MEV protection service"%string]
    else [] in
  fold_left
    (fun recommendations attack =>
       if String.eqb attack "sandwich_attack" then
         recommendations ++
           ["Use smaller transaction sizes or split into multiple transactions"%string]
       else if String.eqb attack "front_running" then
         recommendations ++ ["Increase gas price or use commit-reveal scheme"%string]
       else if String.eqb attack "arbitrage" then
         recommendations ++ ["Monitor price differences across exchanges"%string]
       else if String.eqb attack "liquidation" then
         recommendations ++ ["Ensure sufficient collateralization ratio"%string]
       else recommendations)
    attacks recommendations.

Record MEVAnalysis := {
  Score : float;
  DetectedAttacks : list string;
  RiskLevel : string;
  Recommendations : list string
}.

Definition AnalyzeMEVRisk (pht : PHTTransaction) : MEVAnalysis :=
  let '(score, attacks) := MEVDetector.analyzeTransaction pht in
  let riskLevel := determineRiskLevel score in
  let recommendations := generateRecommendations attacks score in
  {| Score := score; DetectedAttacks := attacks; RiskLevel := riskLevel;
     Recommendations := recommendations |}.

(** [PHTManager.GetMEVScore] and [IsMEVSusceptible] (src/unnamed/part_001). *)
Definition PHTManager_GetMEVScore (pht : PHTTransaction) : float :=
  let score := 1%float in
  let score := if pht_GasPrice pht >? 1000000000 then (score - 0.1)%float else score in
  let score := if pht_Value pht >? 1000000000000000000 then (score - 0.2)%float else score in
  let score := if (0 <? length (pht_CallData pht))%nat then (score - 0.1)%float else score in
  MEVDetector.clamp01 score.

Definition IsMEVSusceptible (pht : PHTTransaction) : bool :=
  let score := PHTManager_GetMEVScore pht in
  (score <? 0.7)%float.

(** The two analyses as functions of the outcome of the six pattern tests. *)
Definition analysis_of_tests_exact (s f a l h c : bool) : Q * list string :=
  let st := (1%Q, []) in
  let st := penalise_exact s 0.3 ["sandwich_attack"%string] st in
  let st := penalise_exact f 0.2 ["front_running"%string] st in
  let st := penalise_exact a 0.1 ["arbitrage"%string] st in
  let st := penalise_exact l 0.25 ["liquidation"%string] st in
  let st := penalise_exact h 0.15 [] st in
  let st := penalise_exact c 0.1 [] st in
  (clamp01_exact (fst st), snd st).

Definition analysis_of_tests (s f a l h c : bool) : float * list string :=
  let st := (1%float, []) in
  let st := MEVDetector.penalise s 0.3 ["sandwich_attack"%string] st in
  let st := MEVDetector.penalise f 0.2 ["front_running"%string] st in
  let st := MEVDetector.penalise a 0.1 ["arbitrage"%string] st in
  let st := MEVDetector.penalise l 0.25 ["liquidation"%string] st in
  let st := MEVDetector.penalise h 0.15 [] st in
  let st := MEVDetector.penalise c 0.1 [] st in
  (MEVDetector.clamp01 (fst st), snd st).

(** ** Serialization of PHTs and MTs *)

(** [data[lo:hi]]; it panics unless [lo <= hi <= cap(data)], and the
    capacity of the slice is taken to be its length. *)
Definition slice (data : bytes) (lo hi : nat) : result bytes :=
  if (lo <=? hi)%nat && (hi <=? length data)%nat
  then Ok (firstn (hi - lo) (skipn lo data))
  else Panic "slice bounds out of range".

(** [data[i]] *)
Definition index (data : list byte) (i : nat) : result byte :=
  match data !! i with
  | Some b => Ok b
  | None => Panic "index out of range"
  end.

(** [x = 0; for i := 0; i < n; i++ { x |= uint64(data[offset+i]) << (8*i) }] *)
Definition read_le (n : nat) (data : bytes) (offset : nat) : result Z :=
  foldM
    (fun x i =>
       b ← index data (offset + i);
       Ok (Z.lor x (Z.shiftl (byte_to_Z b) (8 * Z.of_nat i))))
    (seq 0 n) 0.

(** [common.BytesToAddress]: the last 20 bytes, right-aligned. *)
Definition BytesToAddress (b : bytes) : Z := be_value b mod 2 ^ 160.

Definition PHT_Serialize (pht : PHTTransaction) : result bytes :=
  let data := [] in
  let data := data ++ Address_Bytes (pht_Sender pht) in
  let data := data ++ big_Bytes (pht_GasPrice pht) in
  let data := data ++ pht_Commitment pht in
  let data := data ++ pht_Nonce pht in
  let timestampBytes := le_bytes 8 (pht_Timestamp pht) in
  let data := data ++ timestampBytes in
  Ok data.

(** [pht.Deserialize(data)]: the returned error, or the receiver as the
    call leaves it. *)
Definition PHT_Deserialize (pht : PHTTransaction) (data : bytes) : result PHTTransaction :=
  if (length data <? 20 + 32 + 32 + 32 + 8)%nat then Err "insufficient data"
  else
    let offset := 0%nat in
    sender ← slice data offset (offset + 20);
    let offset := (offset + 20)%nat in
    gasPrice ← slice data offset (offset + 32);
    let offset := (offset + 32)%nat in
    commitment ← slice data offset (offset + 32);
    let offset := (offset + 32)%nat in
    nonce ← slice data offset (offset + 32);
    let offset := (offset + 32)%nat in
    timestamp ← read_le 8 data offset;
    Ok {| pht_Sender := BytesToAddress sender;
          pht_GasPrice := big_SetBytes gasPrice;
          pht_Commitment := commitment;
          pht_Nonce := nonce;
          pht_Timestamp := timestamp;
          pht_Recipient := pht_Recipient pht;
          pht_Value := pht_Value pht;
          pht_CallData := pht_CallData pht;
          pht_TxType := pht_TxType pht;
          pht_GasLimit := pht_GasLimit pht;
          pht_TxHash := pht_TxHash pht |}.

Definition MT_Serialize (mt : MTTransaction) : result bytes :=
  let data := [] in
  let data := data ++ Address_Bytes (mt_Recipient mt) in
  let data := data ++ big_Bytes (mt_Value mt) in
  let callDataLen := le_bytes 4 (Z.of_nat (length (mt_CallData mt))) in
  let data := data ++ callDataLen in
  let data := data ++ mt_CallData mt in
  let data := data ++ [byte_of_Z (mt_TxType mt)] in
  let gasLimitBytes := le_bytes 8 (mt_GasLimit mt) in
  let data := data ++ gasLimitBytes in
  let data := data ++ Hash_Bytes (mt_PHTHash mt) in
  let proofLen := le_bytes 4 (Z.of_nat (length (mt_Proof mt))) in
  let data := data ++ proofLen in
  let data := data ++ mt_Proof mt in
  let timestampBytes := le_bytes 8 (mt_Timestamp mt) in
  let data := data ++ timestampBytes in
  Ok data.

Definition MT_Deserialize (mt : MTTransaction) (data : bytes) : result MTTransaction :=
  if (length data <? 20 + 32 + 4 + 1 + 8 + 32 + 4 + 8)%nat then Err "insufficient data"
  else
    let offset := 0%nat in
    recipient ← slice data offset (offset + 20);
    let offset := (offset + 20)%nat in
    value ← slice data offset (offset + 32);
    let offset := (offset + 32)%nat in
    callDataLen ← read_le 4 data offset;
    let callDataLen := Z.to_nat callDataLen in
    let offset := (offset + 4)%nat in
    callData ← slice data offset (offset + callDataLen);
    let offset := (offset + callDataLen)%nat in
    txType ← index data offset;
    let offset := (offset + 1)%nat in
    gasLimit ← read_le 8 data offset;
    let offset := (offset + 8)%nat in
    phtHash ← slice data offset (offset + 32);
    let offset := (offset + 32)%nat in
    proofLen ← read_le 4 data offset;
    let proofLen := Z.to_nat proofLen in
    let offset := (offset + 4)%nat in
    proof ← slice data offset (offset + proofLen);
    let offset := (offset + proofLen)%nat in
    timestamp ← read_le 8 data offset;
    Ok {| mt_Recipient := BytesToAddress recipient;
          mt_Value := big_SetBytes value;
          mt_CallData := callData;
          mt_TxType := byte_to_Z txType;
          mt_GasLimit := gasLimit;
          mt_PHTHash := BytesToHash phtHash;
          mt_Proof := proof;
          mt_Timestamp := timestamp;
          mt_TxHash := mt_TxHash mt |}.

(** The number a little-endian byte string denotes. *)
Definition le_value (l : bytes) : Z :=
  fold_right (fun b acc => byte_to_Z b + 256 * acc) 0 l.

(** The receiver [r] after [Deserialize] has read the visible fields of
    [pht] into it. *)
Definition with_visible_of (pht r : PHTTransaction) : PHTTransaction :=
  {| pht_Sender := pht_Sender pht; pht_GasPrice := pht_GasPrice pht;
     pht_Commitment := pht_Commitment pht; pht_Nonce := pht_Nonce pht;
     pht_Timestamp := pht_Timestamp pht;
     pht_Recipient := pht_Recipient r; pht_Value := pht_Value r;
     pht_CallData := pht_CallData r; pht_TxType := pht_TxType r;
     pht_GasLimit := pht_GasLimit r; pht_TxHash := pht_TxHash r |}.

(** A PHT whose gas price fills 32 bytes, with a 32-byte commitment and
    nonce. *)
Definition wide_pht : PHTTransaction :=
  {| pht_Sender := 0xA11CE; pht_GasPrice := 2 ^ 255 + 1;
     pht_Commitment := be_bytes 32 7; pht_Nonce := be_bytes 32 9;
     pht_Timestamp := 1700000000;
     pht_Recipient := 0xB0B; pht_Value := 1000; pht_CallData := [];
     pht_TxType := 0; pht_GasLimit := 21000; pht_TxHash := 0x1111 |}.

(** The lengths an encoded MT declares for its call data and its proof: the
    4-byte little-endian numbers at offset 52 and, after the call data, at
    offset [97 + callDataLen]. *)
Definition declared_callDataLen (data : bytes) : nat :=
  Z.to_nat (le_value (firstn 4 (skipn 52 data))).

Definition declared_proofLen (data : bytes) : nat :=
  Z.to_nat (le_value (firstn 4 (skipn (97 + declared_callDataLen data) data))).

(** The receiver [r] after [Deserialize] has read the fields of [mt] into
    it: the transaction hash is not part of the encoding. *)
Definition with_fields_of (mt r : MTTransaction) : MTTransaction :=
  {| mt_Recipient := mt_Recipient mt; mt_Value := mt_Value mt;
     mt_CallData := mt_CallData mt; mt_TxType := mt_TxType mt;
     mt_GasLimit := mt_GasLimit mt; mt_PHTHash := mt_PHTHash mt;
     mt_Proof := mt_Proof mt; mt_Timestamp := mt_Timestamp mt;
     mt_TxHash := mt_TxHash r |}.

(** An MT whose value fills 32 bytes. *)
Definition wide_mt : MTTransaction :=
  {| mt_Recipient := 0xB0B; mt_Value := 2 ^ 255 + 1000;
     mt_CallData := bs [0x38; 0xed; 0x17; 0x39; 0x01]; mt_TxType := 2;
     mt_GasLimit := 250000; mt_PHTHash := 0xFACE;
     mt_Proof := be_bytes 32 5; mt_Timestamp := 1700000014; mt_TxHash := 0x3333 |}.

(** [PHTManager.VerifyCommitment] and [GetHiddenFields]. *)
Definition VerifyCommitment {CS : CommitmentScheme} (pht : PHTTransaction)
    (recipient value : Z) (callData : bytes) (txType gasLimit : Z) : bool :=
  cs_Verify (pht_Commitment pht) (hiddenData recipient value callData txType gasLimit).

Definition GetHiddenFields (pht : PHTTransaction) : Z * Z * bytes * Z * Z :=
  (pht_Recipient pht, pht_Value pht, pht_CallData pht, pht_TxType pht, pht_GasLimit pht).

(** ** The validator registry (src/consensus/p2s/validator_manager.go) *)

Definition RemoveValidator (address : Z) (v : ValidatorManager)
  : error * ValidatorManager :=
  match validators v !! address with
  | None => (Some "validator not found"%string, v)
  | Some _ => (None, with_validators (delete address (validators v)) v)
  end.

Definition UpdateStake (now address stake : Z) (v : ValidatorManager)
  : error * ValidatorManager :=
  match validators v !! address with
  | None => (Some "validator not found"%string, v)
  | Some validator =>
      let isActive := if stake <? vm_MinStake v then false else true in
      let validator :=
        {| v_Address := v_Address validator; v_Stake := stake;
           v_Reputation := v_Reputation validator; v_IsActive := isActive;
           v_LastBlock := v_LastBlock validator;
           v_CreatedAt := v_CreatedAt validator; v_UpdatedAt := to_uint64 now |} in
      (None, with_validators (<[address := validator]> (validators v)) v)
  end.

Definition UpdateLastBlock (now address blockNumber : Z) (v : ValidatorManager)
  : ValidatorManager :=
  match validators v !! address with
  | None => v
  | Some validator =>
      let validator :=
        {| v_Address := v_Address validator; v_Stake := v_Stake validator;
           v_Reputation := v_Reputation validator; v_IsActive := v_IsActive validator;
           v_LastBlock := blockNumber;
           v_CreatedAt := v_CreatedAt validator; v_UpdatedAt := to_uint64 now |} in
      with_validators (<[address := validator]> (validators v)) v
  end.

Definition GetValidator (address : Z) (v : ValidatorManager) : option Validator :=
  validators v !! address.

Definition IsValidator (address : Z) (v : ValidatorManager) : bool :=
  bool_decide (is_Some (validators v !! address)).

Definition IsActiveValidator (address : Z) (v : ValidatorManager) : bool :=
  match validators v !! address with
  | Some validator => v_IsActive validator
  | None => false
  end.

Definition GetValidatorCount (v : ValidatorManager) : Z :=
  Z.of_nat (size (validators v)).

(** The calls that change the registry, and a run of them. *)
Inductive registry_call :=
| CallAddValidator (now address stake : Z)
| CallRemoveValidator (address : Z)
| CallUpdateStake (now address stake : Z)
| CallUpdateReputation (now address score : Z)
| CallUpdateLastBlock (now address blockNumber : Z).

Definition call (c : registry_call) (v : ValidatorManager) : ValidatorManager :=
  match c with
  | CallAddValidator now address stake => (AddValidator now address stake v).2
  | CallRemoveValidator address => (RemoveValidator address v).2
  | CallUpdateStake now address stake => (UpdateStake now address stake v).2
  | CallUpdateReputation now address score => UpdateReputation now address score v
  | CallUpdateLastBlock now address blockNumber =>
      UpdateLastBlock now address blockNumber v
  end.

Definition calls (cs : list registry_call) (v : ValidatorManager) : ValidatorManager :=
  fold_left (fun v c => call c v) cs v.

(** What holds of every entry of a registry the calls can reach. *)
Definition registered_well (minStake : Z) (address : Z) (validator : Validator) : Prop :=
  v_Address validator = address /\
  v_IsActive validator = bool_decide (minStake <= v_Stake validator) /\
  -1000 <= v_Reputation validator <= 1000.

(** [validator] with a new reputation, updated at [now]. *)
Definition with_reputation (reputation now : Z) (validator : Validator) : Validator :=
  {| v_Address := v_Address validator; v_Stake := v_Stake validator;
     v_Reputation := reputation; v_IsActive := v_IsActive validator;
     v_LastBlock := v_LastBlock validator;
     v_CreatedAt := v_CreatedAt validator; v_UpdatedAt := to_uint64 now |}.

(** A validator as [AddValidator] registers it. *)
Definition fresh_validator : Validator :=
  {| v_Address := 0xA1; v_Stake := 1000000000000000000; v_Reputation := 100;
     v_IsActive := true; v_LastBlock := 0;
     v_CreatedAt := 1700000000; v_UpdatedAt := 1700000000 |}.

(** [SelectValidators]: [range] is the order in which the map is visited,
    [draws] what the random source yields, each reduced by [rand.Intn] into
    [[0, len(activeValidators))]. The loop runs until [count] distinct
    validators are selected; [None] says that the draws given are used up
    and the loop is still running. *)
Definition active_addresses (range : list (Z * Validator)) : list Z :=
  fold_left
    (fun activeValidators '(address, validator) =>
       if v_IsActive validator then activeValidators ++ [address]
       else activeValidators)
    range [].

Fixpoint select_loop (draws : list nat) (activeValidators : list Z) (count : nat)
    (selected : list Z) (used : gset Z) : option (list Z) :=
  if (length selected <? count)%nat then
    match draws with
    | [] => None
    | draw :: draws =>
        let randomIndex := (draw mod length activeValidators)%nat in
        let validator := nth randomIndex activeValidators 0 in
        if bool_decide (validator ∈ used)
        then select_loop draws activeValidators count selected used
        else select_loop draws activeValidators count
               (selected ++ [validator]) ({[validator]} ∪ used)
    end
  else Some selected.

Definition SelectValidators_in (range : list (Z * Validator)) (draws : list nat)
    (count : Z) : option (list Z) :=
  if (count <=? 0) || (length range =? 0)%nat then Some []
  else
    let activeValidators := active_addresses range in
    if (length activeValidators =? 0)%nat then Some []
    else
      let count :=
        if count >? Z.of_nat (length activeValidators)
        then Z.of_nat (length activeValidators) else count in
      select_loop draws activeValidators (Z.to_nat count) [] ∅.

Definition SelectValidators (registry : gmap Z Validator) (draws : list nat) (count : Z)
  : option (list Z) :=
  SelectValidators_in (map_to_list registry) draws count.

(** ** The commitment cache (src/consensus/p2s/block.go) *)

Definition with_commitmentCache (m : gmap string bytes) (c : P2SCache) : P2SCache :=
  {| b1Blocks := b1Blocks c; b2Blocks := b2Blocks c; phtCache := phtCache c;
     mtCache := mtCache c; commitmentCache := m; maxSize := maxSize c |}.

(** [for key := range c.commitmentCache { delete(...); break }]: the first
    key the [range] visits goes. *)
Definition evictOldestCommitment_in (range : list (string * bytes)) (c : P2SCache)
  : P2SCache :=
  match range with
  | [] => c
  | (key, _) :: _ => with_commitmentCache (delete key (commitmentCache c)) c
  end.

Definition SetCommitment_in (range : list (string * bytes)) (key : string)
    (commitment : bytes) (c : P2SCache) : P2SCache :=
  let c := if Z.of_nat (size (commitmentCache c)) >=? maxSize c
           then evictOldestCommitment_in range c else c in
  with_commitmentCache (<[key := commitment]> (commitmentCache c)) c.

Definition SetCommitment (key : string) (commitment : bytes) (c : P2SCache) : P2SCache :=
  SetCommitment_in (map_to_list (commitmentCache c)) key commitment c.

Definition GetCommitment (key : string) (c : P2SCache) : option bytes :=
  commitmentCache c !! key.

(** A cache of capacity 1 that holds [example_b1]. *)
Definition full_cache : P2SCache :=
  {| b1Blocks := {[ 0xB1 := example_b1 ]}; b2Blocks := ∅; phtCache := ∅; mtCache := ∅;
     commitmentCache := {[ "k"%string := bs [1] ]}; maxSize := 1 |}.

(** A store of capacity 2 that holds [example_b1] at the address 1 under
    its hash. *)
Definition example_store : B1Store :=
  {| b1_at := fun _ => example_b1; b1_index := {[ 0xB1 := 1 ]}; b1_maxSize := 2 |}.

(** ** Validation and the entry points of the engine (src/consensus/p2s/p2s.go) *)

(** [getBlockType]: the last byte of [header.Extra], 0 when there is none. *)
Definition getBlockType (header : Header) : Z :=
  match last (h_Extra header) with
  | Some b => byte_to_Z b
  | None => 0
  end.



(** [header.Extra = append(header.Extra, byte(blockType))]; [newHash] is
    [header.Hash()] from then on. *)
Definition mark (blockType newHash : Z) (header : Header) : Header :=
  {| h_ParentHash := h_ParentHash header;
     h_Extra := h_Extra header ++ [byte_of_Z blockType];
     h_Hash := newHash |}.

Section EntryPoints.
Context {CS : CommitmentScheme} {PS : ProofSystem}.
Variable readings : nat -> Z * bytes.

(** The loop of [validateB1Block]; [ValidatePHT] reads the fields of the
    PHT it is given, and panics on a nil one. *)
Fixpoint validate_phts (phts : list (option PHTTransaction)) : result error :=
  match phts with
  | [] => Ok None
  | None :: _ => Panic "nil pointer dereference"
  | Some pht :: rest =>
      match ValidatePHT pht with
      | Some e => Ok (Some e)
      | None => validate_phts rest
      end
  end.

Definition validateB1Block (blockHash : Z) (p : P2SConsensus) : result error :=
  match GetB1Block blockHash (cache p) with
  | None => Ok (Some "B1 block not found in cache"%string)
  | Some b1Block =>
      err ← validate_phts (b1_PHTs b1Block);
      match err with
      | Some e => Ok (Some e)
      | None =>
          if (b1_MEVScore b1Block <? MinMEVScore (config p))%float
          then Ok (Some "insufficient MEV protection"%string)
          else Ok None
      end
  end.

(** [header] is the header of the block and [h_Hash header] its hash. *)
Definition ValidateBlock (header : Header) (p : P2SConsensus) : result error :=
  let blockType := getBlockType header in
  if blockType =? 1 then validateB1Block (h_Hash header) p
  else if blockType =? 2 then validateB2Block (h_Hash header) p
  else Ok (Some "invalid block type"%string).

(** [Prepare] and [Finalize]: the returned error, the header as the call
    leaves it, and the engine afterwards. *)
Definition Prepare (now newHash : Z) (header : Header) (p : P2SConsensus)
  : result error * Header * P2SConsensus :=
  let header := mark 1 newHash header in
  let '(err, p) := prepareB1Block readings now (Some header) p in
  (err, header, p).

Definition Finalize (clock : nat -> Z) (now newHash : Z) (header : Header)
    (p : P2SConsensus) : result error * Header * P2SConsensus :=
  let header := mark 2 newHash header in
  let '(err, p) := finalizeB2Block clock now (Some header) p in
  (err, header, p).

End EntryPoints.

(** A PHT that bids 60 gwei and carries a payload. *)
Definition hurried_pht : PHTTransaction :=
  {| pht_Sender := 0xA11CE; pht_GasPrice := 60000000000;
     pht_Commitment := bs [1]; pht_Nonce := bs [2]; pht_Timestamp := 1700000000;
     pht_Recipient := 0xB0B; pht_Value := 1000; pht_CallData := bs [1];
     pht_TxType := 0; pht_GasLimit := 21000; pht_TxHash := 0x4444 |}.

(** A PHT stamped [t], and an empty cache of capacity [n]. *)
Definition stamped (t : Z) : PHTTransaction :=
  {| pht_Sender := 0; pht_GasPrice := 1; pht_Commitment := []; pht_Nonce := [];
     pht_Timestamp := t; pht_Recipient := 0; pht_Value := 0; pht_CallData := [];
     pht_TxType := 0; pht_GasLimit := 0; pht_TxHash := 0 |}.

Definition cache_of_capacity (n : Z) : P2SCache :=
  {| b1Blocks := ∅; b2Blocks := ∅; phtCache := ∅; mtCache := ∅;
     commitmentCache := ∅; maxSize := n |}.

(** * Properties *)

(** ** SHA-256 on the test vectors of FIPS 180-4 *)

Example sha256_empty :
  Bytes2Hex (sha256 []) =
  "e3b0c44298fc1c149afbf4c8996fb92427ae41e4649b934ca495991b7852b855"%string.
Proof. vm_compute. reflexivity. Qed.

Example sha256_abc :
  Bytes2Hex (sha256 [byte_of_Z 97; byte_of_Z 98; byte_of_Z 99]) =
  "ba7816bf8f01cfea414140de5dae2223b00361a396177a9cb410ff61f20015ad"%string.
Proof. vm_compute. reflexivity. Qed.

Example sha256_two_blocks :
  Bytes2Hex (sha256 (list_byte_of_string
    "abcdbcdecdefdefgefghfghighijhijkijkljklmklmnlmnomnopnopq")) =
  "248d6a61d20638b8e5c026930c3e6039a33ce45964ff2167f6ecedd419db06c1"%string.
Proof. vm_compute. reflexivity. Qed.

#[local] Arguments sha256 : simpl never.
#[local] Arguments big_Exp : simpl never.
#[local] Arguments big_Bytes : simpl never.

(** ** The commitment scheme *)

Lemma fold_left_Write (data : list bytes) (h : hasher) :
  fold_left Write data h = h ++ concat data.
Proof.
  revert h. induction data as [|d data IH]; intros h; simpl.
  - by rewrite app_nil_r.
  - rewrite IH. unfold Write. by rewrite app_assoc.
Qed.

Lemma Commit_concat (data : list bytes) :
  data ≠ [] -> PedersenCommitment.Commit data = Ok (commitment_of (concat data)).
Proof.
  intros Hne. unfold PedersenCommitment.Commit.
  destruct data as [|d data]; [done|].
  cbn [length Nat.eqb]. unfold Sum. by rewrite fold_left_Write.
Qed.

Lemma Commit_empty : PedersenCommitment.Commit [] = Err "no data to commit".
Proof. reflexivity. Qed.

(** Square and multiply computes the power. *)
Lemma pow_mod_pos_spec (x : Z) (e : positive) (m : Z) :
  pow_mod_pos x e m = x ^ Zpos e mod m.
Proof.
  induction e as [e IH|e IH|]; cbn [pow_mod_pos].
  - replace (Z.pos e~1) with (Z.pos e + Z.pos e + 1) by lia.
    rewrite !Z.pow_add_r, Z.pow_1_r, IH by lia.
    by rewrite <- Zmult_mod, Zmult_mod_idemp_l.
  - replace (Z.pos e~0) with (Z.pos e + Z.pos e) by lia.
    rewrite Z.pow_add_r, IH by lia.
    by rewrite <- Zmult_mod.
  - by rewrite Z.pow_1_r.
Qed.

Lemma big_Exp_spec (x y m : Z) : 0 <= y -> big_Exp x y m = x ^ y mod m.
Proof.
  intros Hy. unfold big_Exp. destruct y as [|e|e]; [done| |lia].
  apply pow_mod_pos_spec.
Qed.

Lemma Verify_iff (c : bytes) (data : list bytes) :
  PedersenCommitment.Verify c data = true <-> PedersenCommitment.Commit data = Ok c.
Proof.
  unfold PedersenCommitment.Verify.
  destruct (PedersenCommitment.Commit data) as [c'| |]; [|split; discriminate..].
  rewrite bool_decide_eq_true. split; [by intros ->|by intros [= ->]].
Qed.

(** The round trip holds: every non-empty field list commits and
    verifies against its own commitment. [Verify] compares commitments, and
    a commitment is a function of the concatenation of the fields: that is
    where binding is lost. *)
Lemma commit_verify_roundtrip (F1 F2 : list bytes) (H1 : F1 ≠ []) (H2 : F2 ≠ []) :
  exists c1 c2,
    PedersenCommitment.Commit F1 = Ok c1 /\
    PedersenCommitment.Commit F2 = Ok c2 /\
    PedersenCommitment.Verify c1 F1 = true /\
    (PedersenCommitment.Verify c1 F2 = true <-> c1 = c2) /\
    (concat F1 = concat F2 -> c1 = c2).
Proof.
  exists (commitment_of (concat F1)), (commitment_of (concat F2)).
  split; [by apply Commit_concat|]. split; [by apply Commit_concat|].
  split; [by apply Verify_iff, Commit_concat|].
  split; [|by intros ->].
  rewrite Verify_iff, Commit_concat by done.
  split; [by intros [= ->]|by intros ->].
Qed.

(** C2. The commitment does not bind the field list: the one-field list
    [[01 02]] and the two-field list [[01], [02]] are distinct, have the
    same commitment, and the commitment of the first verifies against the
    second. *)
Theorem commit_split_collision :
  [bs [1; 2]] ≠ [bs [1]; bs [2]] /\
  PedersenCommitment.Commit [bs [1; 2]] = PedersenCommitment.Commit [bs [1]; bs [2]] /\
  exists c,
    PedersenCommitment.Commit [bs [1; 2]] = Ok c /\
    PedersenCommitment.Verify c [bs [1]; bs [2]] = true.
Proof.
  split; [discriminate|].
  rewrite !Commit_concat by discriminate.
  split; [reflexivity|].
  eexists. split; [reflexivity|].
  apply Verify_iff. by rewrite Commit_concat.
Qed.

(** The same happens between transactions: the value 1 with the call data
    [02] and the value 258 with no call data have the same hidden-field
    bytes, hence the same commitment, and so have two gas limits that differ
    by 256, of which only the low byte is committed. *)
Example hidden_fields_collision (recipient txType gasLimit : Z) :
  PedersenCommitment.Commit (hiddenData recipient 1 (bs [2]) txType gasLimit) =
  PedersenCommitment.Commit (hiddenData recipient 258 [] txType gasLimit) /\
  PedersenCommitment.Commit (hiddenData recipient 1 [] txType 21000) =
  PedersenCommitment.Commit (hiddenData recipient 1 [] txType 21256).
Proof. by rewrite !Commit_concat. Qed.

(** ** The Merkle proof system *)

Lemma foldM_app {A S} (f : S -> A -> result S) (l1 l2 : list A) (s : S) :
  foldM f (l1 ++ l2) s = s' ← foldM f l1 s; foldM f l2 s'.
Proof.
  revert s. induction l1 as [|a l1 IH]; intros s; [done|].
  cbn [foldM app]. destruct (f s a) as [s'| |]; [apply IH|done..].
Qed.

Lemma build_node_cases (n : nat) (tree : list bytes) (i : nat) :
  (exists tree', MerkleProofSystem.build_node n tree i = Ok tree' /\ length tree' = length tree) \/
  MerkleProofSystem.build_node n tree i = Panic "index out of range".
Proof.
  unfold MerkleProofSystem.build_node.
  destruct (tree !! (2 * i - n)%nat) as [l|]; [|by right].
  destruct (tree !! (2 * i - n + 1)%nat) as [r|]; [|by right].
  left. eexists. split; [done|]. by rewrite length_insert.
Qed.

Lemma build_nodes_cases (n : nat) (l : list nat) (tree : list bytes) :
  (exists tree', foldM (MerkleProofSystem.build_node n) l tree = Ok tree' /\ length tree' = length tree) \/
  foldM (MerkleProofSystem.build_node n) l tree = Panic "index out of range".
Proof.
  revert tree. induction l as [|i l IH]; intros tree; cbn [foldM].
  - left. by exists tree.
  - destruct (build_node_cases n tree i) as [(t' & -> & Hlen)| ->]; [|by right].
    cbn. rewrite <- Hlen. apply IH.
Qed.

(** The doubling loop is given enough iterations: it stops at a power of
    the start that is at least [n]. *)
Lemma nextPower_loop_reaches (fuel nextPower n : nat) :
  (n <= nextPower * 2 ^ fuel)%nat ->
  (n <= MerkleProofSystem.nextPower_loop fuel nextPower n)%nat.
Proof.
  revert nextPower. induction fuel as [|fuel IH]; intros nextPower Hn;
    cbn [MerkleProofSystem.nextPower_loop].
  - cbn in Hn. lia.
  - destruct (Nat.ltb_spec nextPower n) as [_|Hge]; [|done].
    apply IH. rewrite Nat.pow_succ_r' in Hn. lia.
Qed.

Lemma padToPowerOfTwo_covers (data : list bytes) :
  data ≠ [] ->
  length (MerkleProofSystem.padToPowerOfTwo data) =
  MerkleProofSystem.nextPower_loop (length data) 1 (length data).
Proof.
  intros Hne. unfold MerkleProofSystem.padToPowerOfTwo.
  destruct data as [|d data]; [done|]. cbn [length Nat.eqb].
  rewrite length_app, repeat_length.
  pose proof (nextPower_loop_reaches (S (length data)) 1 (S (length data))) as Hle.
  pose proof (Nat.pow_gt_lin_r 2 (S (length data))). cbn [length] in *. lia.
Qed.

Lemma padToPowerOfTwo_length (data : list bytes) :
  (length data <= length (MerkleProofSystem.padToPowerOfTwo data))%nat.
Proof.
  unfold MerkleProofSystem.padToPowerOfTwo.
  destruct (length data =? 0)%nat; [done|]. rewrite length_app. lia.
Qed.

(** With two fields or more the tree is never built: filling the last
    internal node reads past the end of the tree. *)
Lemma buildMerkleTree_panics (data : list bytes) :
  (2 <= length data)%nat ->
  MerkleProofSystem.buildMerkleTree data = Panic "index out of range".
Proof.
  intros Hlen. unfold MerkleProofSystem.buildMerkleTree.
  destruct (Nat.eqb_spec (length data) 0) as [|_]; [lia|].
  pose proof (padToPowerOfTwo_length data) as Hpad.
  set (padded := MerkleProofSystem.padToPowerOfTwo data) in *.
  set (n := length padded) in *.
  set (tree := padded ++ repeat [] (n * 2 - 1 - n)).
  assert (Htree : length tree = (2 * n - 1)%nat).
  { unfold tree. rewrite length_app, repeat_length. fold n. lia. }
  rewrite Htree.
  replace (2 * n - 1 - n)%nat with (S (n - 2)) by lia.
  rewrite seq_S, foldM_app.
  destruct (build_nodes_cases n (seq n (n - 2)) tree) as [(t' & -> & Hlen')| ->];
    [|done].
  cbn. unfold MerkleProofSystem.build_node.
  destruct (t' !! (2 * (n + (n - 2)) - n)%nat) as [l|]; [|done].
  rewrite (lookup_ge_None_2 t') by lia. done.
Qed.

(** X29. For every commitment and every field list, the proof [Prove] returns,
    if it returns one, is rejected by [Verify]. *)
Lemma Prove_then_Verify_rejects (c : bytes) (F : list bytes) :
  match MerkleProofSystem.Prove c F with
  | Ok proof => MerkleProofSystem.Verify proof c F = Ok false
  | Err _ | Panic _ => True
  end.
Proof.
  destruct F as [|d [|d' F]].
  - done.
  - unfold MerkleProofSystem.Prove. cbn.
    unfold MerkleProofSystem.findLeafIndex. cbn.
    case_bool_decide; cbn; done.
  - unfold MerkleProofSystem.Prove.
    rewrite buildMerkleTree_panics by (cbn; lia). done.
Qed.

Lemma CreateMT_panics (now : Z) (pht : PHTTransaction) :
  CreateMT (PS := NewMerkleProofSystem) now pht = Panic "index out of range".
Proof.
  unfold CreateMT. cbn [ps_Prove NewMerkleProofSystem].
  unfold MerkleProofSystem.Prove, hiddenData.
  rewrite buildMerkleTree_panics by (cbn; lia). done.
Qed.

Lemma VerifyMT_panics (mt : MTTransaction) (pht : PHTTransaction) :
  VerifyMT (PS := NewMerkleProofSystem) mt pht = Panic "index out of range".
Proof.
  unfold VerifyMT. cbn [ps_Verify NewMerkleProofSystem].
  unfold MerkleProofSystem.Verify, hiddenData.
  rewrite buildMerkleTree_panics by (cbn; lia). done.
Qed.

Lemma big_Bytes_empty (x : Z) : big_Bytes x = [] -> x = 0.
Proof.
  unfold big_Bytes. destruct (Z.eqb_spec (Z.abs x) 0) as [Hz|Hnz]; [lia|].
  assert (0 <= Z.log2 (Z.abs x) / 8) by (apply Z.div_pos; [apply Z.log2_nonneg|lia]).
  destruct (Z.to_nat (Z.log2 (Z.abs x) / 8 + 1)) eqn:Hn; [lia|discriminate].
Qed.

(** A commitment is never the empty byte string: the modulus is odd, so no
    power of two is a multiple of it. *)
Lemma commitment_nonempty (msg : bytes) : commitment_of msg ≠ [].
Proof.
  unfold commitment_of. intros Hempty. apply big_Bytes_empty in Hempty.
  assert (Hh : 0 <= big_SetBytes (sha256 msg)).
  { unfold big_SetBytes, be_value. generalize (sha256 msg). intros l.
    assert (Hacc : forall acc, 0 <= acc ->
              0 <= fold_left (fun acc b => acc * 256 + byte_to_Z b) l acc).
    { induction l as [|b l IH]; intros acc Hacc; [done|]. cbn [fold_left].
      apply IH. unfold byte_to_Z. lia. }
    by apply Hacc. }
  rewrite big_Exp_spec in Hempty by done.
  set (h := big_SetBytes (sha256 msg)) in *.
  assert (Hrel : Z.coprime (PedersenCommitment.generator ^ h) PedersenCommitment.modulus).
  { apply Z.coprime_pow_l; [done|]. reflexivity. }
  apply Z.mod_divide in Hempty; [|done].
  apply Z.divide_gcd_iff in Hempty; [|done].
  unfold Z.coprime in Hrel. rewrite Z.gcd_comm, Hempty in Hrel. discriminate Hrel.
Qed.

(** C1 at two inputs. The hidden fields of the transaction the repository's
    own test reveals (zero recipient, value 1000, call data "test data", type
    0, gas limit 21000) commit, and [Prove] on that commitment and those
    fields panics. The list of one empty field commits, and [Prove] returns
    the error that the commitment is not in the tree. *)
Theorem proof_roundtrip_fails :
  let F := hiddenData 0 1000 (list_byte_of_string "test data") 0 21000 in
  (exists C, PedersenCommitment.Commit F = Ok C /\
             MerkleProofSystem.Prove C F = Panic "index out of range") /\
  (exists C, PedersenCommitment.Commit [[]] = Ok C /\
             MerkleProofSystem.Prove C [[]] = Err "commitment not found in tree").
Proof.
  split.
  - eexists. split; [by apply Commit_concat|].
    unfold MerkleProofSystem.Prove.
    rewrite buildMerkleTree_panics by (cbn; lia). done.
  - exists (commitment_of []). split; [by apply (Commit_concat [[]])|].
    generalize (commitment_nonempty []). generalize (commitment_of []).
    intros C HC. unfold MerkleProofSystem.Prove. cbn.
    unfold MerkleProofSystem.findLeafIndex. cbn.
    rewrite bool_decide_eq_false_2; [done|congruence].
Qed.

(** ** Proposer selection *)

Lemma totalWeight_zero (range : list (Z * Validator)) (acc : Z) :
  Forall zero_weight_active range ->
  fold_left
    (fun total '(_, validator) =>
       if v_IsActive validator
       then total + WeightedRandomSelection.weight validator else total)
    range acc = acc.
Proof.
  intros Hall. revert acc.
  induction Hall as [|[a v] range Hv _ IH]; intros acc; [done|].
  cbn [fold_left]. rewrite IH. unfold zero_weight_active in Hv. cbn in Hv.
  destruct (v_IsActive v); [rewrite Hv by done; lia|done].
Qed.

(** Whenever every active validator has zero weight, the selection stops at
    the zero-total check, whatever the visiting orders and the draw. *)
Lemma SelectProposer_zero_weight (range1 range2 range3 : list (Z * Validator)) (draw : Z) :
  range1 ≠ [] -> Forall zero_weight_active range1 ->
  WeightedRandomSelection.SelectProposer_ranges range1 range2 range3 draw =
  (0, Some "no active validators"%string).
Proof.
  intros Hne Hall. unfold WeightedRandomSelection.SelectProposer_ranges.
  destruct range1 as [|e range1]; [done|]. cbn [length Nat.eqb].
  unfold WeightedRandomSelection.totalWeight. by rewrite totalWeight_zero.
Qed.

(** The registry the manager is in after registering a validator with the
    minimum stake and lowering its reputation by 200. *)
Example lone_validator_reached :
  validators
    (UpdateReputation 1700000600 0xA1 (-200)
       (AddValidator 1700000000 0xA1 1000000000000000000
          (NewValidatorManager 1000000000000000000 100)).2) =
  {[ 0xA1 := lone_validator ]}.
Proof. vm_compute. reflexivity. Qed.

(** C3 at the failing input: the registry's only validator is active and has
    weight zero, and [SelectProposer] returns the zero address and the error
    "no active validators", for every draw. *)
Theorem SelectProposer_rejects_zero_weight (draw : Z) :
  v_IsActive lone_validator = true /\
  WeightedRandomSelection.weight lone_validator = 0 /\
  WeightedRandomSelection.SelectProposer {[ 0xA1 := lone_validator ]} draw =
  (0, Some "no active validators"%string).
Proof.
  split; [done|]. split; [done|].
  unfold WeightedRandomSelection.SelectProposer.
  rewrite map_to_list_singleton.
  apply SelectProposer_zero_weight; [done|].
  by repeat constructor.
Qed.

(** ** Validation of a B2 block against its B1 block *)

(** Boolean tests of the code as propositions. *)
Ltac bool_facts :=
  repeat match goal with
  | H : negb _ = true |- _ => apply negb_true_iff in H
  | H : negb _ = false |- _ => apply negb_false_iff in H
  | H : (_ =? _) = true |- _ => apply Z.eqb_eq in H
  | H : (_ =? _) = false |- _ => apply Z.eqb_neq in H
  | H : (_ =? _)%nat = true |- _ => apply Nat.eqb_eq in H
  | H : (_ =? _)%nat = false |- _ => apply Nat.eqb_neq in H
  | H : (_ <=? _) = true |- _ => apply Z.leb_le in H
  | H : (_ <=? _) = false |- _ => apply Z.leb_gt in H
  | H : (_ >? _) = true |- _ => rewrite Z.gtb_ltb in H; apply Z.ltb_lt in H
  | H : (_ >? _) = false |- _ => rewrite Z.gtb_ltb in H; apply Z.ltb_ge in H
  | H : (_ <=? _)%nat = true |- _ => apply Nat.leb_le in H
  | H : (_ <=? _)%nat = false |- _ => apply Nat.leb_gt in H
  end.

Lemma B2_check_mts_total (mts : list (option MTTransaction))
    (phts : list (option PHTTransaction)) (i : nat) :
  (i + length mts <= length phts)%nat ->
  exists r, B2_check_mts i mts phts = Ok r.
Proof.
  revert i. induction mts as [|mt mts IH]; intros i Hlen; cbn [B2_check_mts].
  - by eexists.
  - destruct mt as [mt|]; [|by eexists].
    cbn [length] in Hlen.
    destruct (lookup_lt_is_Some_2 phts i) as [pht Hpht]; [lia|].
    rewrite Hpht. destruct pht as [pht|]; [|by eexists].
    destruct (MT_Hash mt =? 0); [by eexists|].
    destruct (negb _); [by eexists|].
    apply IH. lia.
Qed.

(** What the loop has checked when it reports no error: every MT is
    present, so is the PHT at its index, and the MT names that PHT's hash. *)
Lemma B2_check_mts_ok (mts : list (option MTTransaction))
    (phts : list (option PHTTransaction)) (i : nat) :
  B2_check_mts i mts phts = Ok None ->
  forall k, (k < length mts)%nat ->
  exists mt pht,
    mts !! k = Some (Some mt) /\ phts !! (i + k)%nat = Some (Some pht) /\
    mt_PHTHash mt = PHT_Hash pht.
Proof.
  revert i. induction mts as [|mt mts IH]; intros i Hok k Hk; cbn [length] in Hk; [lia|].
  cbn [B2_check_mts] in Hok.
  destruct mt as [mt|]; [|done].
  destruct (phts !! i) as [[pht|]|] eqn:Hpht; [|done..].
  destruct (MT_Hash mt =? 0); [done|].
  destruct (negb (mt_PHTHash mt =? PHT_Hash pht)) eqn:Hh; [done|]. bool_facts.
  destruct k as [|k].
  - exists mt, pht. by rewrite Nat.add_0_r.
  - destruct (IH (S i) Hok k) as (mt' & pht' & ? & ? & ?); [lia|].
    exists mt', pht'. by rewrite <- Nat.add_succ_comm.
Qed.

Lemma B2Block_Validate_total (now : Z) (b : B2Block) (b1Block : B1Block) :
  exists r, B2Block_Validate now b b1Block = Ok r.
Proof.
  unfold B2Block_Validate.
  destruct (b2_Header b); [|by eexists].
  destruct (negb (b2_BlockType b =? 2)); [by eexists|].
  destruct (negb (b2_B1BlockHash b =? b1_BlockHash b1Block)); [by eexists|].
  destruct (length (b2_MTs b) =? 0)%nat; [by eexists|].
  destruct (negb (length (b2_MTs b) =? length (b1_PHTs b1Block))%nat) eqn:Hlen;
    [by eexists|]. bool_facts.
  destruct (B2_check_mts_total (b2_MTs b) (b1_PHTs b1Block) 0) as [r ->]; [lia|].
  cbn. destruct r; [by eexists|].
  repeat (destruct (_ : bool); [by eexists|]). by eexists.
Qed.

Lemma B2Block_Validate_ok (now : Z) (b : B2Block) (b1Block : B1Block) :
  B2Block_Validate now b b1Block = Ok None ->
  length (b2_MTs b) = length (b1_PHTs b1Block) /\
  B2_check_mts 0 (b2_MTs b) (b1_PHTs b1Block) = Ok None /\
  b1_Timestamp b1Block < b2_Timestamp b.
Proof.
  unfold B2Block_Validate. intros Hok.
  destruct (b2_Header b); [|done].
  destruct (negb (b2_BlockType b =? 2)); [done|].
  destruct (negb (b2_B1BlockHash b =? b1_BlockHash b1Block)); [done|].
  destruct (length (b2_MTs b) =? 0)%nat; [done|].
  destruct (negb (length (b2_MTs b) =? length (b1_PHTs b1Block))%nat) eqn:Hlen;
    [done|].
  destruct (B2_check_mts 0 (b2_MTs b) (b1_PHTs b1Block)) as [[e|]| |]; [done| |done..].
  cbn in Hok.
  destruct (b2_Timestamp b =? 0); [done|].
  destruct (b2_Timestamp b >? future_limit now); [done|].
  destruct (b2_Timestamp b <=? b1_Timestamp b1Block) eqn:Hts; [done|].
  bool_facts. done.
Qed.

(** C6. A B2 block whose timestamp is at most its parent's is rejected:
    [Validate] returns an error. *)
Theorem reveal_timestamp_ordering (now : Z) (b : B2Block) (b1Block : B1Block)
    (Hts : b2_Timestamp b <= b1_Timestamp b1Block) :
  exists e, B2Block_Validate now b b1Block = Ok (Some e).
Proof.
  destruct (B2Block_Validate_total now b b1Block) as [[e|] Hr]; [by exists e|].
  apply B2Block_Validate_ok in Hr. lia.
Qed.

Lemma permute_lookup {A} (σ : list nat) (l : list A) (i : nat) :
  Forall (fun j => (j < length l)%nat) σ ->
  permute σ l !! i = σ !! i ≫= (fun j => l !! j).
Proof.
  intros Hσ. revert i. induction Hσ as [|j σ Hj _ IH]; intros i; [done|].
  unfold permute in *. cbn.
  destruct (lookup_lt_is_Some_2 l j Hj) as [x Hx]. rewrite Hx.
  destruct i as [|i]; cbn; [done|apply IH].
Qed.

Lemma permute_length {A} (σ : list nat) (l : list A) :
  Forall (fun j => (j < length l)%nat) σ -> length (permute σ l) = length σ.
Proof.
  induction 1 as [|j σ Hj _ IH]; [done|].
  unfold permute in *. cbn.
  destruct (lookup_lt_is_Some_2 l j Hj) as [x ->]. cbn. by rewrite IH.
Qed.

Lemma list_eq_seq (σ : list nat) (n : nat) :
  length σ = n -> (forall i, (i < n)%nat -> σ !! i = Some i) -> σ = seq 0 n.
Proof.
  intros Hlen Hσ. apply list_eq. intros i.
  destruct (decide (i < n)%nat) as [Hi|Hi].
  - rewrite Hσ by done. symmetry. by apply lookup_seq_lt.
  - rewrite !lookup_ge_None_2; [done|rewrite length_seq; lia|lia].
Qed.

(** The MTs [convertPHTsToMTs] builds, under any proof system that returns
    proofs, are as many as the PHTs, in their order, each naming the hash of
    the PHT at its index. *)
Lemma convertPHTsToMTs_from_positional {PS : ProofSystem} (clock : nat -> Z)
    (phts : list (option PHTTransaction)) (i : nat) (acc mts : list MTTransaction) :
  convertPHTsToMTs_from clock i phts acc = Ok mts ->
  exists new,
    mts = acc ++ new /\ length new = length phts /\
    forall k, (k < length phts)%nat ->
      exists mt pht,
        new !! k = Some mt /\ phts !! k = Some (Some pht) /\
        mt_PHTHash mt = PHT_Hash pht.
Proof.
  revert i acc. induction phts as [|pht phts IH]; intros i acc Hconv;
    cbn [convertPHTsToMTs_from] in Hconv.
  - injection Hconv as <-. exists []. rewrite app_nil_r.
    split; [done|]. split; [done|]. cbn. lia.
  - destruct pht as [pht|]; [|done]. cbn [CreateMT_ptr] in Hconv.
    unfold CreateMT in Hconv.
    destruct (ps_Prove _ _) as [proof| |]; [|done..]. cbn in Hconv.
    destruct (IH _ _ Hconv) as (new & -> & Hlen & Hnew).
    eexists (_ :: new). rewrite <- app_assoc. split; [reflexivity|].
    split; [cbn; lia|]. intros [|k] Hk.
    + eexists _, pht. done.
    + cbn [length] in Hk. destruct (Hnew k) as (mt & pht' & ? & ? & ?); [lia|].
      by exists mt, pht'.
Qed.

Lemma convertPHTsToMTs_positional {PS : ProofSystem} (clock : nat -> Z)
    (phts : list (option PHTTransaction)) (mts : list MTTransaction) :
  convertPHTsToMTs clock phts = Ok mts ->
  length mts = length phts /\
  forall k, (k < length phts)%nat ->
    exists mt pht,
      mts !! k = Some mt /\ phts !! k = Some (Some pht) /\
      mt_PHTHash mt = PHT_Hash pht.
Proof.
  intros Hconv.
  destruct (convertPHTsToMTs_from_positional clock phts 0 [] mts Hconv)
    as (new & -> & Hlen & Hnew).
  done.
Qed.

(** C5. When [Validate] accepts a B2 block against its parent, the two lists
    have the same length and every MT names the hash of the PHT at its own
    index; and then, if the parent's PHTs have pairwise distinct hashes,
    rearranging the MTs by any permutation of the indices other than the
    identity makes [Validate] return an error, at any time of validation. *)
Theorem positional_pairing (now : Z) (b : B2Block) (b1Block : B1Block)
    (Hvalid : B2Block_Validate now b b1Block = Ok None) :
  length (b2_MTs b) = length (b1_PHTs b1Block) /\
  (forall i, (i < length (b2_MTs b))%nat ->
     exists mt pht,
       b2_MTs b !! i = Some (Some mt) /\ b1_PHTs b1Block !! i = Some (Some pht) /\
       mt_PHTHash mt = PHT_Hash pht) /\
  (forall (σ : list nat) (now' : Z),
     distinct_hashes (b1_PHTs b1Block) ->
     σ ≡ₚ seq 0 (length (b2_MTs b)) -> σ ≠ seq 0 (length (b2_MTs b)) ->
     exists e,
       B2Block_Validate now' (with_MTs (permute σ (b2_MTs b)) b) b1Block = Ok (Some e)).
Proof.
  destruct (B2Block_Validate_ok _ _ _ Hvalid) as (Hlen & Hcheck & _).
  pose proof (B2_check_mts_ok _ _ _ Hcheck) as Hpairs. cbn in Hpairs.
  split; [done|]. split; [done|].
  intros σ now' Hdistinct Hperm Hne.
  destruct (B2Block_Validate_total now' (with_MTs (permute σ (b2_MTs b)) b) b1Block)
    as [[e|] Hr]; [by exists e|].
  exfalso. apply Hne.
  assert (Hσ : Forall (fun j => (j < length (b2_MTs b))%nat) σ).
  { rewrite Forall_forall. intros j Hj. rewrite Hperm in Hj.
    apply elem_of_seq in Hj. lia. }
  assert (Hσlen : length σ = length (b2_MTs b)).
  { by rewrite Hperm, length_seq. }
  destruct (B2Block_Validate_ok _ _ _ Hr) as (_ & Hcheck' & _).
  pose proof (B2_check_mts_ok _ _ _ Hcheck') as Hpairs'. cbn in Hpairs'.
  rewrite permute_length, Hσlen in Hpairs' by done.
  apply list_eq_seq; [done|]. intros i Hi.
  destruct (Hpairs' i Hi) as (mt' & pht' & Hmt' & Hpht' & Hh').
  rewrite permute_lookup in Hmt' by done.
  destruct (σ !! i) as [j|] eqn:Hj; [|done]. cbn in Hmt'.
  destruct (Hpairs j) as (mt & pht & Hmt & Hpht & Hh).
  { by apply lookup_lt_Some in Hmt'. }
  rewrite Hmt in Hmt'. injection Hmt' as <-.
  f_equal. apply (Hdistinct j i pht pht'); congruence.
Qed.

(** *** A concrete B1/B2 pair *)

Example example_phts_created :
  convertToPHTs example_readings [tx_a; tx_b] = Ok example_phts.
Proof. vm_compute. reflexivity. Qed.

Example risky_phts_created :
  convertToPHTs example_readings [tx_risky] = Ok risky_phts.
Proof. vm_compute. reflexivity. Qed.

Example example_mts_reveal :
  example_mts = map (fun pht => Some (reveal 1700000014 (bs [1]) pht)) example_phts.
Proof. vm_compute. reflexivity. Qed.

Example example_pair_valid :
  B2Block_Validate 1700000014 example_b2 example_b1 = Ok None.
Proof. vm_compute. reflexivity. Qed.

Example example_swapped_rejected :
  B2Block_Validate 1700000014
    (with_MTs (permute [1; 0]%nat (b2_MTs example_b2)) example_b2) example_b1 =
  Ok (Some (at_index "PHT hash mismatch at index " 0)).
Proof. vm_compute. reflexivity. Qed.

Example example_simultaneous_rejected :
  B2Block_Validate 1700000014 (example_b2_at 1700000002 example_mts) example_b1 =
  Ok (Some "B2 timestamp must be after B1 timestamp"%string).
Proof. vm_compute. reflexivity. Qed.

Lemma distinct_hashes_NoDup (phts : list (option PHTTransaction)) :
  NoDup (map (fun pht => PHT_Hash <$> pht) phts) -> distinct_hashes phts.
Proof.
  intros Hnd i j p q Hi Hj Heq.
  apply (NoDup_lookup _ i j (Some (PHT_Hash p)) Hnd).
  - change (map ?f phts) with (f <$> phts). by rewrite list_lookup_fmap, Hi.
  - change (map ?f phts) with (f <$> phts). by rewrite list_lookup_fmap, Hj, Heq.
Qed.

Lemma example_distinct_hashes : distinct_hashes (b1_PHTs example_b1).
Proof.
  apply distinct_hashes_NoDup, (bool_decide_unpack _). vm_compute. exact I.
Qed.

Lemma positional_pairing_witness :
  B2Block_Validate 1700000014 example_b2 example_b1 = Ok None /\
  length (b2_MTs example_b2) = length (b1_PHTs example_b1) /\
  (forall i, (i < length (b2_MTs example_b2))%nat ->
     exists mt pht,
       b2_MTs example_b2 !! i = Some (Some mt) /\
       b1_PHTs example_b1 !! i = Some (Some pht) /\
       mt_PHTHash mt = PHT_Hash pht) /\
  (forall (σ : list nat) (now' : Z),
     distinct_hashes (b1_PHTs example_b1) ->
     σ ≡ₚ seq 0 (length (b2_MTs example_b2)) ->
     σ ≠ seq 0 (length (b2_MTs example_b2)) ->
     exists e,
       B2Block_Validate now' (with_MTs (permute σ (b2_MTs example_b2)) example_b2)
         example_b1 = Ok (Some e)).
Proof.
  split; [exact example_pair_valid|].
  apply (positional_pairing 1700000014 example_b2 example_b1).
  exact example_pair_valid.
Defined.

Lemma reveal_timestamp_ordering_witness :
  b2_Timestamp (example_b2_at 1700000002 example_mts) <= b1_Timestamp example_b1 /\
  exists e,
    B2Block_Validate 1700000014 (example_b2_at 1700000002 example_mts) example_b1 =
    Ok (Some e).
Proof.
  split; [simpl; lia|].
  apply (reveal_timestamp_ordering 1700000014
           (example_b2_at 1700000002 example_mts) example_b1).
  simpl; lia.
Defined.

(** ** Rounding in binary64 *)

Lemma fexp_eq (e : Z) : fexp prec emax e = Z.max (e - 53) (-1074).
Proof. reflexivity. Qed.

Lemma digits2_pos_bounds (p : positive) :
  2 ^ (Zpos (digits2_pos p) - 1) <= Zpos p < 2 ^ Zpos (digits2_pos p).
Proof.
  induction p as [p IH|p IH|]; cbn [digits2_pos].
  - rewrite Pos2Z.inj_succ, Z.pow_succ_r by lia.
    replace (Z.succ (Zpos (digits2_pos p)) - 1) with (Z.succ (Zpos (digits2_pos p) - 1)) by lia.
    rewrite Z.pow_succ_r by lia. lia.
  - rewrite Pos2Z.inj_succ, Z.pow_succ_r by lia.
    replace (Z.succ (Zpos (digits2_pos p)) - 1) with (Z.succ (Zpos (digits2_pos p) - 1)) by lia.
    rewrite Z.pow_succ_r by lia. lia.
  - cbn. lia.
Qed.

Lemma Zdigits2_bounds (m : Z) :
  0 <= m -> 0 <= Zdigits2 m /\ m < 2 ^ Zdigits2 m /\ (0 < m -> 2 ^ (Zdigits2 m - 1) <= m).
Proof.
  intros Hm. destruct m as [|p|p]; [cbn; lia| |lia].
  cbn [Zdigits2]. pose proof (digits2_pos_bounds p). lia.
Qed.

Lemma located_floor (num den m : Z) (l : location) :
  0 < den -> located num den m l -> m * den <= num < (m + 1) * den.
Proof. destruct l as [|[]]; cbn; nia. Qed.

Lemma shr_1_located (num den : Z) (mrs : shr_record) :
  0 < den -> 0 <= shr_m mrs ->
  located num den (shr_m mrs) (loc_of_shr_record mrs) ->
  0 <= shr_m (shr_1 mrs) /\
  located num (2 * den) (shr_m (shr_1 mrs)) (loc_of_shr_record (shr_1 mrs)).
Proof.
  destruct mrs as [m r s]. cbn [shr_m]. intros Hden Hm.
  destruct m as [|[p|p|]|p]; [| | | |lia]; destruct r, s; cbn; nia.
Qed.

Lemma pow2_double (n : Z) : 0 <= n -> 2 ^ (2 * n) = 2 ^ n * 2 ^ n.
Proof. intros Hn. replace (2 * n) with (n + n) by lia. by rewrite Z.pow_add_r. Qed.

Lemma iter_pos_shr_1_located (p : positive) :
  forall (num den : Z) (mrs : shr_record),
  0 < den -> 0 <= shr_m mrs ->
  located num den (shr_m mrs) (loc_of_shr_record mrs) ->
  0 <= shr_m (SpecFloat.iter_pos shr_1 p mrs) /\
  located num (2 ^ Zpos p * den) (shr_m (SpecFloat.iter_pos shr_1 p mrs))
    (loc_of_shr_record (SpecFloat.iter_pos shr_1 p mrs)).
Proof.
  induction p as [p IH|p IH|]; intros num den mrs Hden Hm Hloc; cbn [SpecFloat.iter_pos].
  - destruct (shr_1_located num den mrs Hden Hm Hloc) as [Hm1 Hloc1].
    destruct (IH num (2 * den) _ ltac:(lia) Hm1 Hloc1) as [Hm2 Hloc2].
    assert (Hpow : 0 < 2 ^ Zpos p) by (apply Z.pow_pos_nonneg; lia).
    destruct (IH num (2 ^ Zpos p * (2 * den)) _ ltac:(nia) Hm2 Hloc2) as [Hm3 Hloc3].
    split; [done|].
    replace (2 ^ Zpos p~1 * den) with (2 ^ Zpos p * (2 ^ Zpos p * (2 * den))); [done|].
    change (Zpos p~1) with (2 * Zpos p + 1). rewrite Z.pow_add_r, pow2_double by lia. ring.
  - destruct (IH num den _ Hden Hm Hloc) as [Hm2 Hloc2].
    assert (Hpow : 0 < 2 ^ Zpos p) by (apply Z.pow_pos_nonneg; lia).
    destruct (IH num (2 ^ Zpos p * den) _ ltac:(nia) Hm2 Hloc2) as [Hm3 Hloc3].
    split; [done|].
    replace (2 ^ Zpos p~0 * den) with (2 ^ Zpos p * (2 ^ Zpos p * den)); [done|].
    change (Zpos p~0) with (2 * Zpos p). rewrite pow2_double by lia. ring.
  - rewrite Z.pow_1_r. by apply shr_1_located.
Qed.

Lemma shr_record_of_loc_m (m : Z) (l : location) : shr_m (shr_record_of_loc m l) = m.
Proof. by destruct l as [|[]]. Qed.

Lemma loc_of_shr_record_of_loc (m : Z) (l : location) :
  loc_of_shr_record (shr_record_of_loc m l) = l.
Proof. by destruct l as [|[]]. Qed.

Lemma shr_nonpos (mrs : shr_record) (e n : Z) : n <= 0 -> shr mrs e n = (mrs, e).
Proof. destruct n; [done|lia|done]. Qed.

Lemma shr_located (num den : Z) (mrs : shr_record) (e n : Z) :
  0 < den -> 0 <= shr_m mrs ->
  located num den (shr_m mrs) (loc_of_shr_record mrs) ->
  (shr mrs e n).2 = e + Z.max n 0 /\
  0 <= shr_m (shr mrs e n).1 /\
  located num (2 ^ Z.max n 0 * den) (shr_m (shr mrs e n).1)
    (loc_of_shr_record (shr mrs e n).1).
Proof.
  intros Hden Hm Hloc. destruct n as [|p|p]; cbn [shr fst snd].
  - cbn [Z.max Z.compare]. rewrite Z.add_0_r, Z.pow_0_r, Z.mul_1_l. done.
  - replace (Z.max (Zpos p) 0) with (Zpos p) by lia.
    split; [done|]. by apply iter_pos_shr_1_located.
  - replace (Z.max (Zneg p) 0) with 0 by lia.
    rewrite Z.add_0_r, Z.pow_0_r, Z.mul_1_l. done.
Qed.

Lemma round_nearest_even_located (num den m : Z) (l : location) :
  0 < den -> located num den m l ->
  m <= round_nearest_even m l <= m + 1 /\
  (forall g, num <= g * den -> round_nearest_even m l <= g) /\
  (forall g, g * den <= num -> g <= round_nearest_even m l) /\
  (forall g, g * den <= num -> 2 * num <= (2 * g + 1) * den -> Z.even g = true ->
     round_nearest_even m l = g).
Proof.
  intros Hden Hloc. pose proof (located_floor _ _ _ _ Hden Hloc) as Hfloor.
  assert (Hle : forall a b, a * den <= b * den -> a <= b)
    by (intros a b; apply Z.mul_le_mono_pos_r; lia).
  assert (Hlt : forall a b, a * den < b * den -> a < b)
    by (intros a b; apply Z.mul_lt_mono_pos_r; lia).
  split; [destruct l as [|[]]; cbn; try lia; destruct (Z.even m); lia|].
  split; [|split].
  - intros g Hg. assert (m <= g) by (apply Hle; lia).
    destruct l as [|[]]; cbn in *; try lia.
    + assert (2 * m + 1 <= 2 * g) by (apply Hle; lia). destruct (Z.even m); lia.
    + assert (2 * m + 1 < 2 * g) by (apply Hlt; lia). lia.
  - intros g Hg. assert (g < m + 1) by (apply Hlt; lia).
    destruct l as [|[]]; cbn in *; try lia. destruct (Z.even m); lia.
  - intros g Hg Hhalf Heven. assert (g < m + 1) by (apply Hlt; lia).
    assert (m < g + 1) by (apply Hlt; lia). assert (m = g) as -> by lia.
    destruct l as [|[]]; cbn in *; try lia. by rewrite Heven.
Qed.

Lemma binary_round_aux_spec (mx ex : Z) (lx : location) (num den : Z) :
  0 <= mx -> 0 < den -> located num den mx lx ->
  let e1 := Z.max ex (fexp prec emax (Zdigits2 mx + ex)) in
  let den1 := 2 ^ (e1 - ex) * den in
  exists m2,
    0 <= m2 <= 2 ^ 53 /\
    (forall g, num <= g * den1 -> m2 <= g) /\
    (forall g, g * den1 <= num -> g <= m2) /\
    (forall g, g * den1 <= num -> 2 * num <= (2 * g + 1) * den1 -> Z.even g = true ->
       m2 = g) /\
    binary_round_aux prec emax false mx ex lx = rounded m2 e1.
Proof.
  intros Hmx Hden Hloc e1 den1.
  unfold binary_round_aux. unfold shr_fexp at 1.
  set (n := fexp prec emax (Zdigits2 mx + ex) - ex).
  assert (He1 : e1 = ex + Z.max n 0) by (unfold e1, n; lia).
  assert (Hk : e1 - ex = Z.max n 0) by lia.
  destruct (shr_located num den (shr_record_of_loc mx lx) ex n Hden) as (He' & Hm' & Hloc').
  { by rewrite shr_record_of_loc_m. }
  { by rewrite shr_record_of_loc_m, loc_of_shr_record_of_loc. }
  destruct (shr (shr_record_of_loc mx lx) ex n) as [mrs' e']. cbn [fst snd] in *.
  rewrite <- Hk in Hloc'. fold den1 in Hloc'. rewrite <- He1 in He'. subst e'.
  assert (Hpow : 0 < 2 ^ (e1 - ex)) by (apply Z.pow_pos_nonneg; lia).
  assert (Hden1 : 0 < den1) by (unfold den1; nia).
  destruct (round_nearest_even_located _ _ _ _ Hden1 Hloc') as (Hm2 & HU & HL & HT).
  set (m2 := round_nearest_even (shr_m mrs') (loc_of_shr_record mrs')) in *.
  assert (Hsmall : shr_m mrs' < 2 ^ 53).
  { pose proof (located_floor _ _ _ _ Hden1 Hloc') as [Hlo _].
    pose proof (located_floor _ _ _ _ Hden Hloc) as [_ Hhi].
    destruct (Zdigits2_bounds mx Hmx) as (Hd0 & Hd & _).
    assert (Hfexp : Zdigits2 mx + ex - 53 <= e1) by (unfold e1; rewrite fexp_eq; lia).
    assert (shr_m mrs' * 2 ^ (e1 - ex) < 2 ^ 53 * 2 ^ (e1 - ex)); [|nia].
    rewrite <- Z.pow_add_r by lia.
    apply Z.le_lt_trans with mx.
    - unfold den1 in Hlo. assert (shr_m mrs' * 2 ^ (e1 - ex) < mx + 1); [|lia].
      apply Z.mul_lt_mono_pos_r with den; [done|]. lia.
    - apply Z.lt_le_trans with (2 ^ Zdigits2 mx); [done|].
      apply Z.pow_le_mono_r; lia. }
  assert (He1min : -1074 <= e1) by (unfold e1; rewrite fexp_eq; lia).
  exists m2. split; [lia|]. split; [done|]. split; [done|]. split; [done|].
  unfold rounded, shr_fexp, shr_record_of_loc.
  change (Z.sub emax prec) with 971.
  destruct (m2 =? 0) eqn:Hzero; [apply Z.eqb_eq in Hzero|apply Z.eqb_neq in Hzero].
  { rewrite Hzero. rewrite shr_nonpos; [done|]. cbn [Zdigits2]. rewrite fexp_eq. lia. }
  destruct (m2 =? 2 ^ 53) eqn:Hbig; [apply Z.eqb_eq in Hbig|apply Z.eqb_neq in Hbig].
  { rewrite Hbig. change (Zdigits2 (2 ^ 53)) with 54.
    replace (fexp prec emax (54 + e1) - e1) with 1 by (rewrite fexp_eq; lia).
    done. }
  rewrite shr_nonpos.
  - cbn [shr_m]. destruct m2 as [|p|p]; [done| |lia]. done.
  - destruct (Zdigits2_bounds m2 ltac:(lia)) as (Hd0 & _ & Hd).
    assert (Zdigits2 m2 - 1 < 53); [|rewrite fexp_eq; lia].
    apply (Z.pow_lt_mono_r_iff 2); [lia|lia|]. lia.
Qed.

Lemma valid_finite (s : bool) (m : positive) (e : Z) :
  valid_binary (S754_finite s m e) = true ->
  -1074 <= e <= 971 /\ Zpos m < 2 ^ 53 /\ (e = -1074 \/ 2 ^ 52 <= Zpos m).
Proof.
  unfold SpecFloat.valid_binary, bounded, canonical_mantissa.
  rewrite andb_true_iff, Z.eqb_eq, Z.leb_le, fexp_eq. change (emax - prec) with 971.
  intros [Hcanon Hmax]. pose proof (digits2_pos_bounds m) as [Hlo Hhi].
  assert (Hd : Zpos (digits2_pos m) <= 53) by lia.
  split; [lia|]. split.
  - apply Z.lt_le_trans with (2 ^ Zpos (digits2_pos m)); [done|].
    apply Z.pow_le_mono_r; lia.
  - destruct (decide (e = -1074)) as [|Hne]; [by left|right].
    assert (Zpos (digits2_pos m) = 53) as Heq by lia. by rewrite Heq in Hlo.
Qed.

Lemma rounded_value (m2 e1 : Z) :
  0 <= m2 <= 2 ^ 53 -> -1074 <= e1 <= 970 ->
  SFnonneg (rounded m2 e1) = true /\ SFvalue (rounded m2 e1) = m2 * 2 ^ (e1 + 1074).
Proof.
  intros Hm2 He1. unfold rounded.
  destruct (m2 =? 0) eqn:Hzero; [apply Z.eqb_eq in Hzero|apply Z.eqb_neq in Hzero].
  { by subst m2. }
  destruct (m2 =? 2 ^ 53) eqn:Hbig; [apply Z.eqb_eq in Hbig|apply Z.eqb_neq in Hbig].
  - destruct (e1 + 1 <=? 971) eqn:Hmax; [|apply Z.leb_gt in Hmax; lia].
    split; [done|]. cbn [SFvalue]. subst m2.
    replace (e1 + 1 + 1074) with (Z.succ (e1 + 1074)) by lia.
    rewrite Z.pow_succ_r by lia. change (Zpos (2 ^ 52)) with (2 ^ 52). lia.
  - destruct (e1 <=? 971) eqn:Hmax; [|apply Z.leb_gt in Hmax; lia].
    split; [done|]. cbn [SFvalue]. rewrite Z2Pos.id by lia. done.
Qed.

Lemma Pos_iter_xO (m d : positive) :
  Zpos (Pos.iter xO m d) = Zpos m * 2 ^ Zpos d /\
  Zpos (digits2_pos (Pos.iter xO m d)) = Zpos (digits2_pos m) + Zpos d.
Proof.
  induction d as [|d [IH1 IH2]] using Pos.peano_ind.
  - cbn [Pos.iter digits2_pos]. rewrite Z.pow_1_r. lia.
  - rewrite Pos.iter_succ. cbn [digits2_pos].
    rewrite Pos2Z.inj_xO, IH1, !Pos2Z.inj_succ, IH2, Z.pow_succ_r by lia. lia.
Qed.

Lemma shl_align_spec (mx : positive) (ex ex' : Z) :
  (shl_align mx ex ex').2 = Z.min ex ex' /\
  Zpos (shl_align mx ex ex').1 = Zpos mx * 2 ^ (ex - Z.min ex ex') /\
  Zpos (digits2_pos (shl_align mx ex ex').1) + Z.min ex ex' =
    Zpos (digits2_pos mx) + ex.
Proof.
  unfold shl_align. destruct (ex' - ex) as [|d|d] eqn:Hd; cbn [fst snd].
  - replace (Z.min ex ex') with ex by lia. rewrite Z.sub_diag, Z.pow_0_r. lia.
  - replace (Z.min ex ex') with ex by lia. rewrite Z.sub_diag, Z.pow_0_r. lia.
  - replace (Z.min ex ex') with ex' by lia.
    destruct (Pos_iter_xO mx d) as [-> ->].
    replace (ex - ex') with (Zpos d) by lia. lia.
Qed.

(** Rounding an integer multiple [m * 2^e] of 2^-1074: the result is [m2]
    units of the grid of exponent [e1], and [m2] is the grid point below or
    above the number, the even one on a tie. *)
Lemma binary_round_spec (m : positive) (e : Z) :
  -1074 <= e ->
  let e1 := fexp prec emax (Zpos (digits2_pos m) + e) in
  let T := Zpos m * 2 ^ (e + 1074) in
  let P := 2 ^ (e1 + 1074) in
  exists m2,
    0 <= m2 <= 2 ^ 53 /\
    (forall g, T <= g * P -> m2 <= g) /\
    (forall g, g * P <= T -> g <= m2) /\
    (forall g, g * P <= T -> 2 * T <= (2 * g + 1) * P -> Z.even g = true -> m2 = g) /\
    binary_round prec emax false m e = rounded m2 e1.
Proof.
  intros He e1 T P. unfold binary_round.
  destruct (shl_align_spec m e e1) as (Hez & Hmz & Hdz). fold e1.
  destruct (shl_align m e e1) as [mz ez]. cbn [fst snd] in *.
  assert (He1 : -1074 <= e1) by (unfold e1; rewrite fexp_eq; lia).
  destruct (binary_round_aux_spec (Zpos mz) ez loc_Exact (Zpos mz) 1)
    as (m2 & Hm2 & HU & HL & HT & Hround); [lia|lia|cbn; lia|].
  cbn [Zdigits2] in *. rewrite Hez, Hdz in *. fold e1 in HU, HL, HT, Hround.
  replace (Z.max (Z.min e e1) e1) with e1 in * by lia.
  set (k := Z.min e e1) in *.
  assert (Hk : 0 < 2 ^ (k + 1074)) by (apply Z.pow_pos_nonneg; lia).
  assert (HT' : T = Zpos mz * 2 ^ (k + 1074)).
  { unfold T. rewrite Hmz, <- Z.mul_assoc, <- Z.pow_add_r by lia. f_equal. f_equal. lia. }
  assert (HP : P = 2 ^ (e1 - k) * 1 * 2 ^ (k + 1074)).
  { unfold P. rewrite Z.mul_1_r, <- Z.pow_add_r by lia. f_equal. lia. }
  exists m2. split; [done|]. rewrite HT', HP. split; [|split; [|split; [|done]]].
  - intros g Hg. apply HU. apply Z.mul_le_mono_pos_r with (2 ^ (k + 1074)); [done|]. lia.
  - intros g Hg. apply HL. apply Z.mul_le_mono_pos_r with (2 ^ (k + 1074)); [done|]. lia.
  - intros g Hg Hhalf. apply HT.
    + apply Z.mul_le_mono_pos_r with (2 ^ (k + 1074)); [done|]. lia.
    + apply Z.mul_le_mono_pos_r with (2 ^ (k + 1074)); [done|]. lia.
Qed.

Lemma pow2_pos (n : Z) : 0 <= n -> 0 < 2 ^ n.
Proof. intros. apply Z.pow_pos_nonneg; lia. Qed.

(** The exponent of the grid on which [m * 2^e] is rounded, from the size of
    the number. *)
Lemma grid_exponent (m : positive) (e : Z) (hi : Z) :
  -1074 <= e -> 0 <= hi ->
  Zpos m * 2 ^ (e + 1074) < 2 ^ (hi + 1074) ->
  Zpos (digits2_pos m) + e <= hi.
Proof.
  intros He Hhi Hlt. pose proof (digits2_pos_bounds m) as [Hlo _].
  assert (Zpos (digits2_pos m) - 1 + (e + 1074) < hi + 1074); [|lia].
  apply (Z.pow_lt_mono_r_iff 2); [lia|lia|].
  rewrite Z.pow_add_r by lia. pose proof (pow2_pos (e + 1074)). nia.
Qed.

Lemma grid_exponent_low (m : positive) (e : Z) (lo : Z) :
  -1074 <= e -> 0 <= lo ->
  2 ^ (lo + 1074) <= Zpos m * 2 ^ (e + 1074) ->
  lo < Zpos (digits2_pos m) + e.
Proof.
  intros He Hlo Hle. pose proof (digits2_pos_bounds m) as [_ Hhi].
  assert (lo + 1074 < Zpos (digits2_pos m) + (e + 1074)); [|lia].
  apply (Z.pow_lt_mono_r_iff 2); [lia|lia|].
  rewrite (Z.pow_add_r 2 (Zpos (digits2_pos m))) by lia.
  pose proof (pow2_pos (e + 1074)). nia.
Qed.

(** Rounding never crosses an integer [G] up to 2^53. *)
Lemma binary_round_le (m : positive) (e G : Z) :
  -1074 <= e -> 0 <= G <= 2 ^ 53 ->
  Zpos m * 2 ^ (e + 1074) <= G * 2 ^ 1074 ->
  SFnonneg (binary_round prec emax false m e) = true /\
  SFvalue (binary_round prec emax false m e) <= G * 2 ^ 1074.
Proof.
  intros He HG Hle.
  destruct (binary_round_spec m e He) as (m2 & Hm2 & HU & _ & _ & ->).
  set (e1 := fexp prec emax (Zpos (digits2_pos m) + e)) in *.
  assert (Hd : Zpos (digits2_pos m) + e <= 54).
  { apply grid_exponent; [done|lia|]. rewrite (Z.pow_add_r 2 54) by lia.
    pose proof (pow2_pos 1074). nia. }
  assert (He1 : -1074 <= e1 <= 1) by (unfold e1; rewrite fexp_eq; lia).
  destruct (rounded_value m2 e1) as [-> ->]; [done|lia|]. split; [done|].
  destruct (decide (e1 <= 0)) as [Hneg|Hpos].
  - assert (Hsplit : 2 ^ 1074 = 2 ^ (- e1) * 2 ^ (e1 + 1074)).
    { rewrite <- Z.pow_add_r by lia. f_equal. lia. }
    pose proof (pow2_pos (e1 + 1074)) as Hp.
    specialize (HU (G * 2 ^ (- e1))). rewrite Hsplit, Z.mul_assoc in *.
    apply Z.mul_le_mono_nonneg_r; [lia|]. apply HU. lia.
  - assert (e1 = 1) as Heq by lia. rewrite Heq in *.
    assert (Hdig : 53 < Zpos (digits2_pos m) + e) by (unfold e1 in Heq; rewrite fexp_eq in Heq; lia).
    pose proof (digits2_pos_bounds m) as [Hlo _].
    assert (Hbig : 2 ^ (53 + 1074) <= Zpos m * 2 ^ (e + 1074)).
    { apply Z.le_trans with (2 ^ (Zpos (digits2_pos m) - 1) * 2 ^ (e + 1074)).
      - rewrite <- Z.pow_add_r by lia. apply Z.pow_le_mono_r; lia.
      - apply Z.mul_le_mono_nonneg_r; [|done]. pose proof (pow2_pos (e + 1074)). lia. }
    rewrite Z.pow_add_r in Hbig by lia.
    assert (G = 2 ^ 53) as -> by (pose proof (pow2_pos 1074); nia).
    specialize (HU (2 ^ 52)).
    change (1 + 1074) with (Z.succ 1074) in *. rewrite Z.pow_succ_r in * by lia.
    assert (m2 <= 2 ^ 52) by (apply HU; lia). pose proof (pow2_pos 1074). nia.
Qed.

(** Just above 2^53 the grid has step 2, and a number up to 2^53 + 1 is
    rounded down to 2^53. *)
Lemma binary_round_tie (m : positive) (e : Z) :
  -1074 <= e ->
  2 ^ 53 * 2 ^ 1074 <= Zpos m * 2 ^ (e + 1074) <= (2 ^ 53 + 1) * 2 ^ 1074 ->
  SFnonneg (binary_round prec emax false m e) = true /\
  SFvalue (binary_round prec emax false m e) = 2 ^ 53 * 2 ^ 1074.
Proof.
  intros He [Hlo Hhi].
  destruct (binary_round_spec m e He) as (m2 & Hm2 & _ & _ & HT & ->).
  set (e1 := fexp prec emax (Zpos (digits2_pos m) + e)) in *.
  pose proof (pow2_pos 1074) as Hp.
  assert (Hd : Zpos (digits2_pos m) + e <= 54).
  { apply grid_exponent; [done|lia|]. rewrite (Z.pow_add_r 2 54) by lia. lia. }
  assert (Hd' : 53 < Zpos (digits2_pos m) + e).
  { apply grid_exponent_low; [done|lia|]. rewrite (Z.pow_add_r 2 53) by lia. lia. }
  assert (He1 : e1 = 1) by (unfold e1; rewrite fexp_eq; lia). rewrite He1 in *.
  destruct (rounded_value m2 1) as [-> ->]; [done|lia|]. split; [done|].
  change (1 + 1074) with (Z.succ 1074) in *. rewrite Z.pow_succ_r in * by lia.
  rewrite (HT (2 ^ 52)); [lia|lia|lia|done].
Qed.

(** Rounding a number below 2^63 never goes below an integer [G] up to
    2^53 that the number has reached. *)
Lemma binary_round_ge (m : positive) (e G : Z) :
  -1074 <= e -> 0 <= G <= 2 ^ 53 ->
  G * 2 ^ 1074 <= Zpos m * 2 ^ (e + 1074) < 2 ^ 63 * 2 ^ 1074 ->
  SFnonneg (binary_round prec emax false m e) = true /\
  G * 2 ^ 1074 <= SFvalue (binary_round prec emax false m e).
Proof.
  intros He HG [Hlo Hhi].
  destruct (binary_round_spec m e He) as (m2 & Hm2 & _ & HL & _ & ->).
  set (e1 := fexp prec emax (Zpos (digits2_pos m) + e)) in *.
  pose proof (pow2_pos 1074) as Hp.
  assert (Hd : Zpos (digits2_pos m) + e <= 63).
  { apply grid_exponent; [done|lia|]. rewrite (Z.pow_add_r 2 63) by lia. lia. }
  assert (He1 : -1074 <= e1 <= 10) by (unfold e1; rewrite fexp_eq; lia).
  destruct (rounded_value m2 e1) as [-> ->]; [done|lia|]. split; [done|].
  pose proof (pow2_pos (e1 + 1074)) as Hp1.
  destruct (decide (e1 <= 0)) as [Hneg|Hpos].
  - assert (Hsplit : 2 ^ 1074 = 2 ^ (- e1) * 2 ^ (e1 + 1074)).
    { rewrite <- Z.pow_add_r by lia. f_equal. lia. }
    specialize (HL (G * 2 ^ (- e1))). rewrite Hsplit, Z.mul_assoc in *.
    apply Z.mul_le_mono_nonneg_r; [lia|]. apply HL. lia.
  - assert (Hdig : Zpos (digits2_pos m) + e = e1 + 53)
      by (unfold e1; rewrite fexp_eq; unfold e1 in Hpos; rewrite fexp_eq in Hpos; lia).
    pose proof (digits2_pos_bounds m) as [Hdlo _].
    assert (Hbig : 2 ^ 52 * 2 ^ (e1 + 1074) <= Zpos m * 2 ^ (e + 1074)).
    { apply Z.le_trans with (2 ^ (Zpos (digits2_pos m) - 1) * 2 ^ (e + 1074)).
      - rewrite <- !Z.pow_add_r by lia. apply Z.pow_le_mono_r; lia.
      - apply Z.mul_le_mono_nonneg_r; [|done]. pose proof (pow2_pos (e + 1074)). lia. }
    assert (2 ^ 52 <= m2) by (by apply HL).
    apply Z.le_trans with (2 ^ 52 * 2 ^ (e1 + 1074)); [|nia].
    apply Z.le_trans with (2 ^ 53 * 2 ^ 1074); [nia|].
    replace (e1 + 1074) with (Z.succ (e1 - 1 + 1074)) by lia.
    rewrite Z.pow_succ_r by lia.
    assert (2 ^ 1074 <= 2 ^ (e1 - 1 + 1074)) by (apply Z.pow_le_mono_r; lia).
    change (2 ^ 53) with (2 ^ 52 * 2). nia.
Qed.

(** Adding a number of at most 1 to a number of at most [B]. *)
Lemma SF64add_bound (x y : spec_float) (B : Z) :
  valid_binary x = true -> valid_binary y = true ->
  SFnonneg x = true -> SFnonneg y = true ->
  0 <= B <= 2 ^ 53 ->
  SFvalue x <= B * 2 ^ 1074 -> SFvalue y <= 2 ^ 1074 ->
  SFnonneg (SF64add x y) = true /\
  SFvalue (SF64add x y) <= Z.min (B + 1) (2 ^ 53) * 2 ^ 1074.
Proof.
  intros Hvx Hvy Hx Hy HB Hxle Hyle. pose proof (pow2_pos 1074) as Hp.
  destruct x as [sx| | |[] mx ex], y as [sy| | |[] my ey]; try done.
  - split; [by destruct sx, sy|]. destruct sx, sy; cbn; nia.
  - split; [done|]. cbn [SF64add SFadd]. nia.
  - split; [done|]. cbn [SF64add SFadd]. nia.
  - destruct (valid_finite _ _ _ Hvx) as (Hex & _ & _).
    destruct (valid_finite _ _ _ Hvy) as (Hey & _ & _).
    unfold SF64add, SFadd. cbn [cond_Zopp].
    set (ez := Z.min ex ey).
    destruct (shl_align_spec mx ex ez) as (_ & Ha & _).
    destruct (shl_align_spec my ey ez) as (_ & Hb & _).
    replace (Z.min ex ez) with ez in Ha by lia.
    replace (Z.min ey ez) with ez in Hb by lia.
    set (a := (shl_align mx ex ez).1) in *. set (b := (shl_align my ey ez).1) in *.
    change (Zpos a + Zpos b) with (Zpos (a + b)). cbn [binary_normalize].
    assert (HT : Zpos (a + b) * 2 ^ (ez + 1074) =
                 Zpos mx * 2 ^ (ex + 1074) + Zpos my * 2 ^ (ey + 1074)).
    { rewrite Pos2Z.inj_add, Ha, Hb, Z.mul_add_distr_r, <- !Z.mul_assoc.
      rewrite <- !Z.pow_add_r by lia. f_equal; f_equal; f_equal; lia. }
    cbn [SFvalue] in Hxle, Hyle.
    destruct (decide (Zpos (a + b) * 2 ^ (ez + 1074) <= Z.min (B + 1) (2 ^ 53) * 2 ^ 1074))
      as [Hle|Hgt].
    + apply binary_round_le; [lia|lia|done].
    + assert (B = 2 ^ 53) as -> by nia.
      destruct (binary_round_tie (a + b) ez) as [-> ->]; [lia|nia|]. split; [done|]. lia.
Qed.

(** The conversion of an integer below 2^63. *)
Lemma binary_normalize_ge (n : Z) :
  0 < n < 2 ^ 63 ->
  SFnonneg (binary_normalize prec emax n 0 false) = true /\
  Z.min n (2 ^ 53) * 2 ^ 1074 <= SFvalue (binary_normalize prec emax n 0 false).
Proof.
  intros Hn. destruct n as [|p|p]; [lia| |lia]. cbn [binary_normalize].
  pose proof (pow2_pos 1074). apply binary_round_ge; [lia|lia|].
  change (0 + 1074) with 1074. nia.
Qed.

Lemma new_location_located (den q r : Z) :
  0 < den -> 0 <= r < den -> located (den * q + r) den q (new_location den r).
Proof.
  intros Hden Hr. unfold new_location, new_location_even, new_location_odd.
  destruct (Z.even den) eqn:Heven.
  - destruct (r =? 0) eqn:Hzero; [apply Z.eqb_eq in Hzero|apply Z.eqb_neq in Hzero].
    { cbn. nia. }
    destruct (Z.compare_spec (2 * r) den); cbn; nia.
  - destruct (r =? 0) eqn:Hzero; [apply Z.eqb_eq in Hzero|apply Z.eqb_neq in Hzero].
    { cbn. nia. }
    assert (Hodd : Z.odd den = true) by (by rewrite <- Z.negb_even, Heven).
    apply Z.odd_spec in Hodd as [c Hc].
    destruct (Z.compare_spec (2 * r + 1) den); cbn; nia.
Qed.

(** Dividing a number by one that is not smaller. *)
Lemma SF64div_bound (x y : spec_float) :
  valid_binary x = true -> valid_binary y = true ->
  SFnonneg x = true -> SFnonneg y = true ->
  0 < SFvalue y -> SFvalue x <= SFvalue y ->
  SFnonneg (SF64div x y) = true /\ SFvalue (SF64div x y) <= 2 ^ 1074.
Proof.
  intros Hvx Hvy Hx Hy Hpos Hle. pose proof (pow2_pos 1074) as Hp.
  destruct y as [sy| | |[] my ey]; try done.
  destruct x as [sx| | |[] mx ex]; try done.
  destruct (valid_finite _ _ _ Hvx) as (Hex & _ & _).
  destruct (valid_finite _ _ _ Hvy) as (Hey & _ & _).
  cbn [SFvalue] in Hle.
  unfold SF64div, SFdiv, SFdiv_core_binary. cbn [xorb Zdigits2].
  set (d1 := Zpos (digits2_pos mx)). set (d2 := Zpos (digits2_pos my)).
  set (e' := Z.min (fexp prec emax (d1 + ex - (d2 + ey))) (ex - ey)).
  set (s := ex - ey - e').
  assert (Hs : 0 <= s) by (unfold s, e'; lia).
  set (m' := match s with Zpos _ => Z.shiftl (Zpos mx) s | 0 => Zpos mx | Zneg _ => 0 end).
  assert (Hm' : m' = Zpos mx * 2 ^ s).
  { unfold m'. destruct s as [|p|p]; [by rewrite Z.pow_0_r, Z.mul_1_r| |lia].
    by rewrite Z.shiftl_mul_pow2. }
  clearbody m'.
  pose proof (Z_div_mod m' (Zpos my) ltac:(lia)) as Hdiv.
  destruct (Z.div_eucl m' (Zpos my)) as [q r]. destruct Hdiv as [Hq Hr].
  pose proof (pow2_pos s Hs) as Hps.
  assert (Hq0 : 0 <= q) by nia.
  pose proof (new_location_located (Zpos my) q r ltac:(lia) Hr) as Hloc.
  rewrite <- Hq in Hloc.
  destruct (binary_round_aux_spec q e' _ m' (Zpos my) Hq0 ltac:(lia) Hloc)
    as (m2 & Hm2 & HU & _ & _ & ->).
  set (e1 := Z.max e' (fexp prec emax (Zdigits2 q + e'))) in *.
  pose proof (digits2_pos_bounds mx) as [Hd1 _]. fold d1 in Hd1.
  pose proof (digits2_pos_bounds my) as [_ Hd2]. fold d2 in Hd2.
  pose proof (pow2_pos (ex + 1074)) as Hpx. pose proof (pow2_pos (ey + 1074)) as Hpy.
  assert (Hd : d1 + ex <= d2 + ey).
  { assert (d1 - 1 + (ex + 1074) < d2 + (ey + 1074)); [|lia].
    apply (Z.pow_lt_mono_r_iff 2); [lia|lia|].
    rewrite (Z.pow_add_r 2 (d1 - 1)), (Z.pow_add_r 2 d2) by lia.
    apply Z.le_lt_trans with (Zpos mx * 2 ^ (ex + 1074));
      [apply Z.mul_le_mono_nonneg_r; lia|].
    apply Z.le_lt_trans with (Zpos my * 2 ^ (ey + 1074)); [done|].
    apply Z.mul_lt_mono_pos_r; lia. }
  assert (He' : e' <= -53) by (unfold e'; rewrite fexp_eq; lia).
  pose proof (pow2_pos (- e')) as Hpe.
  assert (Hunit : m' <= 2 ^ (- e') * Zpos my).
  { apply Z.mul_le_mono_pos_r with (2 ^ (ey + 1074)); [lia|].
    assert (Hsplit : Zpos mx * 2 ^ s * 2 ^ (ey + 1074) =
                     Zpos mx * 2 ^ (ex + 1074) * 2 ^ (- e')).
    { rewrite <- !Z.mul_assoc, <- !Z.pow_add_r by lia. do 2 f_equal. unfold s. lia. }
    rewrite Hm', Hsplit.
    replace (2 ^ (- e') * Zpos my * 2 ^ (ey + 1074))
      with (Zpos my * 2 ^ (ey + 1074) * 2 ^ (- e')) by ring.
    apply Z.mul_le_mono_nonneg_r; [lia|done]. }
  assert (Hqle : q <= 2 ^ (- e')) by nia.
  assert (He1 : -1074 <= e1 <= -52).
  { destruct (Zdigits2_bounds q Hq0) as (Hdq0 & _ & Hdq).
    assert (Zdigits2 q + e' <= 1); [|unfold e1; rewrite fexp_eq; lia].
    destruct (decide (q = 0)) as [->|Hne]; [cbn; lia|].
    assert (Zdigits2 q - 1 < - e' + 1); [|lia].
    apply (Z.pow_lt_mono_r_iff 2); [lia|lia|].
    rewrite Z.pow_add_r by lia. lia. }
  destruct (rounded_value m2 e1) as [-> ->]; [done|lia|]. split; [done|].
  pose proof (pow2_pos (e1 + 1074)) as Hp1.
  replace (2 ^ 1074) with (2 ^ (- e1) * 2 ^ (e1 + 1074))
    by (rewrite <- Z.pow_add_r by lia; f_equal; lia).
  apply Z.mul_le_mono_nonneg_r; [lia|]. apply HU.
  rewrite Z.mul_assoc, <- Z.pow_add_r by lia.
  replace (- e1 + (e1 - e')) with (- e') by lia. done.
Qed.

(** The order of two non-negative numbers is the order of their values. *)
Lemma SFleb_value (x y : spec_float) :
  valid_binary x = true -> valid_binary y = true ->
  SFnonneg x = true -> SFnonneg y = true ->
  SFleb x y = (SFvalue x <=? SFvalue y).
Proof.
  intros Hvx Hvy Hx Hy.
  destruct x as [sx| | |[] mx ex], y as [sy| | |[] my ey]; try done.
  - destruct (valid_finite _ _ _ Hvy) as (Hey & _ & _).
    pose proof (pow2_pos (ey + 1074)). cbn. symmetry. apply Z.leb_le. nia.
  - destruct (valid_finite _ _ _ Hvx) as (Hex & _ & _).
    pose proof (pow2_pos (ex + 1074)). cbn. symmetry. apply Z.leb_gt. nia.
  - destruct (valid_finite _ _ _ Hvx) as (Hex & Hmx & Hnx).
    destruct (valid_finite _ _ _ Hvy) as (Hey & Hmy & Hny).
    pose proof (pow2_pos (ex + 1074)) as Hpx. pose proof (pow2_pos (ey + 1074)) as Hpy.
    unfold SFleb, SFcompare. cbn [SFvalue].
    destruct (Z.compare_spec ex ey) as [->|Hlt|Hgt].
    + rewrite Pos.compare_cont_spec. cbn [Pos.switch_Eq].
      destruct (Pos.compare_spec mx my) as [->|Hm|Hm]; symmetry.
      * apply Z.leb_le. lia.
      * apply Z.leb_le. nia.
      * apply Z.leb_gt. nia.
    + symmetry. apply Z.leb_le.
      assert (Hsplit : 2 ^ (ey + 1074) = 2 ^ (ey - ex - 1) * (2 * 2 ^ (ex + 1074))).
      { rewrite <- Z.pow_succ_r, <- Z.pow_add_r by lia. f_equal. lia. }
      pose proof (pow2_pos (ey - ex - 1)). rewrite Hsplit.
      assert (2 ^ 52 <= Zpos my) by lia. change (2 ^ 53) with (2 * 2 ^ 52) in Hmx.
      apply Z.le_trans with (Zpos my * (2 * 2 ^ (ex + 1074))); nia.
    + symmetry. apply Z.leb_gt.
      assert (Hsplit : 2 ^ (ex + 1074) = 2 ^ (ex - ey - 1) * (2 * 2 ^ (ey + 1074))).
      { rewrite <- Z.pow_succ_r, <- Z.pow_add_r by lia. f_equal. lia. }
      pose proof (pow2_pos (ex - ey - 1)). rewrite Hsplit.
      assert (2 ^ 52 <= Zpos mx) by lia. change (2 ^ 53) with (2 * 2 ^ 52) in Hmy.
      apply Z.lt_le_trans with (Zpos mx * (2 * 2 ^ (ey + 1074))); nia.
Qed.

(** ** Numbers of [float64] between 0 and 1 *)

Lemma SFcompare_swap (x y : spec_float) :
  SFcompare y x = option_map CompOpp (SFcompare x y).
Proof.
  destruct x as [sx|sx| |sx mx ex], y as [sy|sy| |sy my ey]; cbn;
    try by (repeat match goal with s : bool |- _ => destruct s end).
  destruct sx, sy; try done.
  - rewrite (Z.compare_antisym ex ey). destruct (ex ?= ey); cbn; try done.
    by rewrite CompOpp_involutive, Pos.compare_cont_antisym.
  - rewrite (Z.compare_antisym ex ey). destruct (ex ?= ey); cbn; try done.
    by rewrite Pos.compare_cont_antisym.
Qed.

(** [x <= y] excludes [y < x], also for infinities and NaN. *)
Lemma leb_not_ltb (x y : float) : (x <=? y)%float = true -> (y <? x)%float = false.
Proof.
  rewrite leb_spec, ltb_spec. unfold SFleb, SFltb. rewrite (SFcompare_swap (Prim2SF x)).
  by destruct (SFcompare (Prim2SF x) (Prim2SF y)) as [[]|].
Qed.

Lemma unit_value (x : float) :
  (0 <=? x)%float = true -> (x <=? 1)%float = true ->
  SFnonneg (Prim2SF x) = true /\ SFvalue (Prim2SF x) <= 2 ^ 1074.
Proof.
  rewrite !leb_spec. pose proof (Prim2SF_valid x) as Hvalid.
  change (Prim2SF 0) with (S754_zero false).
  change (Prim2SF 1) with (S754_finite false (2 ^ 52) (-52)).
  intros Hlo Hhi.
  assert (Hx : SFnonneg (Prim2SF x) = true).
  { destruct (Prim2SF x) as [s|[]| |[] m e]; done. }
  split; [done|]. rewrite SFleb_value in Hhi by done. apply Z.leb_le in Hhi.
  etrans; [exact Hhi|]. cbn [SFvalue].
  change (-52 + 1074) with 1022. change (Zpos (2 ^ 52)) with (2 ^ 52).
  rewrite <- Z.pow_add_r by lia. done.
Qed.

Lemma value_unit (x : float) :
  SFnonneg (Prim2SF x) = true -> SFvalue (Prim2SF x) <= 2 ^ 1074 ->
  (0 <=? x)%float = true /\ (x <=? 1)%float = true.
Proof.
  rewrite !leb_spec. pose proof (Prim2SF_valid x) as Hvalid.
  change (Prim2SF 0) with (S754_zero false).
  change (Prim2SF 1) with (S754_finite false (2 ^ 52) (-52)).
  intros Hx Hle. split.
  - destruct (Prim2SF x) as [s| | |[] m e]; done.
  - rewrite SFleb_value by done. apply Z.leb_le.
    etrans; [exact Hle|]. cbn [SFvalue].
    change (-52 + 1074) with 1022. change (Zpos (2 ^ 52)) with (2 ^ 52).
    rewrite <- Z.pow_add_r by lia. done.
Qed.

(** ** The MEV score *)

Lemma analyzeTransaction_tests (pht : PHTTransaction) :
  MEVDetector.analyzeTransaction pht =
  analysis_of_tests
    (MEVDetector.isSandwichPattern pht) (MEVDetector.isFrontRunPattern pht)
    (MEVDetector.isArbitragePattern pht) (MEVDetector.isLiquidationPattern pht)
    (MEVDetector.isHighValuePattern pht) (MEVDetector.isContractInteractionPattern pht).
Proof. reflexivity. Qed.

(** Whatever the six tests answer, the score of one transaction is a number
    between 0 and 1. *)
Lemma analyzeTransaction_bounds (pht : PHTTransaction) :
  (0 <=? (MEVDetector.analyzeTransaction pht).1)%float = true /\
  ((MEVDetector.analyzeTransaction pht).1 <=? 1)%float = true.
Proof.
  rewrite analyzeTransaction_tests.
  generalize (MEVDetector.isSandwichPattern pht) (MEVDetector.isFrontRunPattern pht)
             (MEVDetector.isArbitragePattern pht) (MEVDetector.isLiquidationPattern pht)
             (MEVDetector.isHighValuePattern pht)
             (MEVDetector.isContractInteractionPattern pht).
  intros [] [] [] [] [] []; vm_compute; done.
Qed.

Lemma accumulate_total (phts : list PHTTransaction) (acc : float * list string) :
  (fold_left
     (fun acc pht =>
        let '(score, attacks) := MEVDetector.analyzeTransaction pht in
        ((acc.1 + score)%float, acc.2 ++ attacks))
     phts acc).1 = fold_left PrimFloat.add (scores phts) acc.1.
Proof.
  revert acc. induction phts as [|pht phts IH]; intros acc; [done|].
  cbn [fold_left scores map]. rewrite IH.
  by destruct (MEVDetector.analyzeTransaction pht) as [score attacks].
Qed.

(** A running total of numbers between 0 and 1 stays at or below their
    count, and at or below 2^53, where a further number of at most 1 no
    longer changes it. *)
Lemma float_sum_bound (l : list float) (acc : float) (B : Z) :
  Forall (fun s => (0 <=? s)%float = true /\ (s <=? 1)%float = true) l ->
  SFnonneg (Prim2SF acc) = true -> 0 <= B <= 2 ^ 53 ->
  SFvalue (Prim2SF acc) <= B * 2 ^ 1074 ->
  SFnonneg (Prim2SF (fold_left PrimFloat.add l acc)) = true /\
  SFvalue (Prim2SF (fold_left PrimFloat.add l acc)) <=
    Z.min (B + Z.of_nat (length l)) (2 ^ 53) * 2 ^ 1074.
Proof.
  intros Hall. revert acc B.
  induction Hall as [|s l [Hlo Hhi] _ IH]; intros acc B Hacc HB Hle; cbn [fold_left length].
  - split; [done|]. replace (Z.min (B + Z.of_nat 0) (2 ^ 53)) with B by lia. done.
  - destruct (unit_value s Hlo Hhi) as [Hs Hsle].
    destruct (SF64add_bound (Prim2SF acc) (Prim2SF s) B) as [Hsum Hsumle];
      [apply Prim2SF_valid|apply Prim2SF_valid|done..|].
    rewrite <- add_spec in Hsum, Hsumle.
    destruct (IH (acc + s)%float (Z.min (B + 1) (2 ^ 53))) as [Hnn Hbound]; [done|lia|done|].
    split; [done|]. etrans; [exact Hbound|].
    apply Z.mul_le_mono_nonneg_r; [|lia]. apply Z.lt_le_incl, Z.pow_pos_nonneg; lia.
Qed.

Lemma float64_of_int_ge (n : Z) :
  0 < n < 2 ^ 63 ->
  SFnonneg (Prim2SF (float64_of_int n)) = true /\
  Z.min n (2 ^ 53) * 2 ^ 1074 <= SFvalue (Prim2SF (float64_of_int n)).
Proof.
  intros Hn. unfold float64_of_int. rewrite of_uint63_spec, Uint63.of_Z_spec.
  rewrite Z.mod_small by (change Uint63.wB with (2 ^ 63); lia).
  by apply binary_normalize_ge.
Qed.

Lemma DetectMEV_score (phts : list PHTTransaction) :
  (MEVDetector.DetectMEV phts).1 =
  match phts with
  | [] => 1%float
  | _ => (float_sum (scores phts) / float64_of_int (Z.of_nat (length phts)))%float
  end.
Proof.
  unfold MEVDetector.DetectMEV, float_sum.
  destruct phts as [|pht phts]; [done|]. cbn [length Nat.eqb].
  pose proof (accumulate_total (pht :: phts) (0%float, [])) as Htotal.
  fold (MEVDetector.accumulate (pht :: phts)) in Htotal.
  destruct (MEVDetector.accumulate (pht :: phts)) as [total attacks].
  cbn [fst] in *. by rewrite Htotal.
Qed.

Lemma DetectMEV_bounds (phts : list PHTTransaction) :
  Z.of_nat (length phts) < 2 ^ 63 ->
  (0 <=? (MEVDetector.DetectMEV phts).1)%float = true /\
  ((MEVDetector.DetectMEV phts).1 <=? 1)%float = true.
Proof.
  intros Hlen. rewrite DetectMEV_score.
  destruct phts as [|pht phts]; [done|].
  set (n := Z.of_nat (length (pht :: phts))) in *.
  assert (Hn : 0 < n) by (unfold n; cbn [length]; lia).
  destruct (float_sum_bound (scores (pht :: phts)) 0%float 0) as [Hsum Hsumle];
    [|done|lia|done|].
  { unfold scores. apply Forall_map, Forall_forall. intros p _.
    apply analyzeTransaction_bounds. }
  unfold scores in Hsumle. rewrite length_map in Hsumle. fold (scores (pht :: phts)) in Hsumle.
  fold n in Hsumle. rewrite Z.add_0_l in Hsumle.
  destruct (float64_of_int_ge n) as [Hcount Hcountle]; [lia|].
  apply value_unit; rewrite div_spec; apply SF64div_bound;
    try done; try apply Prim2SF_valid.
  all: pose proof (Z.pow_pos_nonneg 2 1074); try (unfold float_sum in *; nia).
Qed.

(** C7, as amended. Every per-transaction score lies in [0,1]; the
    aggregate score of a non-empty batch is the sum of the per-transaction
    scores, added one after the other in [float64] from 0, divided in
    [float64] by their number, and that of the empty batch is 1; the
    aggregate score lies in [0,1]. The length of a slice is an [int]. *)
Theorem DetectMEV_mean_bounded (phts : list PHTTransaction)
    (Hlen : Z.of_nat (length phts) < 2 ^ 63) :
  Forall (fun s => (0 <=? s)%float = true /\ (s <=? 1)%float = true) (scores phts) /\
  (MEVDetector.DetectMEV phts).1 =
    match phts with
    | [] => 1%float
    | _ => (float_sum (scores phts) / float64_of_int (Z.of_nat (length phts)))%float
    end /\
  (0 <=? (MEVDetector.DetectMEV phts).1)%float = true /\
  ((MEVDetector.DetectMEV phts).1 <=? 1)%float = true.
Proof.
  split; [|split; [apply DetectMEV_score|by apply DetectMEV_bounds]].
  unfold scores. apply Forall_map, Forall_forall. intros p _.
  apply analyzeTransaction_bounds.
Qed.

Lemma DetectMEV_mean_bounded_witness :
  Z.of_nat (length risky_phts) < 2 ^ 63 /\
  Forall (fun s => (0 <=? s)%float = true /\ (s <=? 1)%float = true) (scores risky_phts) /\
  (MEVDetector.DetectMEV risky_phts).1 =
    (float_sum (scores risky_phts) / float64_of_int (Z.of_nat (length risky_phts)))%float /\
  (0 <=? (MEVDetector.DetectMEV risky_phts).1)%float = true /\
  ((MEVDetector.DetectMEV risky_phts).1 <=? 1)%float = true.
Proof.
  split; [vm_compute; reflexivity|].
  apply (DetectMEV_mean_bounded risky_phts). vm_compute. reflexivity.
Defined.

(** C7 as stated fails. Three transfers that bid 20 gwei score
    1 - 0.3 = 0.7 each in [float64]; their sum is rounded twice and the
    quotient once, and the aggregate score is 0.6999999999999998, below
    the arithmetic mean of the three scores, which is their common value,
    and below each of them. *)
Lemma DetectMEV_below_mean :
  scores brisk_phts = [0.7; 0.7; 0.7]%float /\
  (MEVDetector.DetectMEV brisk_phts).1 = 0.6999999999999998%float /\
  (float64_value (MEVDetector.DetectMEV brisk_phts).1 <
   (float64_value 0.7 + float64_value 0.7 + float64_value 0.7) / 3)%Q /\
  ((MEVDetector.DetectMEV brisk_phts).1 <? 0.7)%float = true.
Proof. repeat split; vm_compute; reflexivity. Qed.

(** ** The signature tests of the detector *)

(** [common.Bytes2Hex] writes no "0x" prefix while every listed signature
    carries one: the selector of [swapExactTokensForTokens] is not
    recognised, and a payload alone costs the contract-interaction penalty
    only. *)
Example selector_not_recognised :
  Bytes2Hex (bs [0x38; 0xed; 0x17; 0x39]) = "38ed1739"%string /\
  MEVDetector.hasDEXFunctionSignature (bs [0x38; 0xed; 0x17; 0x39; 0x00]) = false.
Proof. vm_compute. done. Qed.

(** ** Preparing a B1 block *)

Section EngineFacts.
Context {CS : CommitmentScheme} {PS : ProofSystem}.
Variable readings : nat -> Z * bytes.

(** A failed build leaves the engine, and so its cache, as it was. *)
Lemma prepareB1Block_on_failure (pendingTxs : list Transaction) (now : Z)
    (header : option Header) (p : P2SConsensus) :
  (prepareB1Block_on readings pendingTxs now header p).1 = Ok None \/
  (prepareB1Block_on readings pendingTxs now header p).2 = p.
Proof.
  unfold prepareB1Block_on.
  destruct (convertToPHTs readings pendingTxs) as [phts| |]; [|by right..].
  destruct (MEVDetector.DetectMEV phts) as [mevScore attacks].
  destruct (mevScore <? MinMEVScore (config p))%float; [by right|].
  destruct (B1Block_Validate _ _); [by right|by left].
Qed.

(** C4. When the pending batch converts to [phts] and the aggregate score
    [DetectMEV] gives them is strictly below the configured minimum,
    [prepareB1Block] returns the error "insufficient MEV protection" for the
    whole block and the engine is unchanged: no B1 block enters the cache. *)
Theorem MEV_gate_rejects_whole_block (pendingTxs : list Transaction) (now : Z)
    (header : option Header) (p : P2SConsensus) (phts : list PHTTransaction)
    (Hconv : convertToPHTs readings pendingTxs = Ok phts)
    (Hlow : ((MEVDetector.DetectMEV phts).1 <? MinMEVScore (config p))%float = true) :
  prepareB1Block_on readings pendingTxs now header p =
  (Ok (Some "insufficient MEV protection"%string), p).
Proof.
  unfold prepareB1Block_on. rewrite Hconv.
  destruct (MEVDetector.DetectMEV phts) as [mevScore attacks]. cbn [fst] in Hlow.
  by rewrite Hlow.
Qed.

(** C9. The empty batch scores exactly 1 with no attack label, so it passes
    the comparison of the admission gate under every minimum score that is at
    most 1: [prepareB1Block], whose batch is empty, does not return the
    admission error. *)
Theorem empty_batch_passes_gate (now : Z) (header : option Header) (p : P2SConsensus)
    (Hmin : (MinMEVScore (config p) <=? 1)%float = true) :
  MEVDetector.DetectMEV [] = (1%float, []) /\
  ((MEVDetector.DetectMEV []).1 <? MinMEVScore (config p))%float = false /\
  exists r, (prepareB1Block readings now header p).1 = Ok r /\
            r ≠ Some "insufficient MEV protection"%string.
Proof.
  apply leb_not_ltb in Hmin.
  split; [done|]. split; [done|].
  unfold prepareB1Block, prepareB1Block_on.
  cbn [getPendingTransactions convertToPHTs convertToPHTs_from MEVDetector.DetectMEV
       length Nat.eqb].
  rewrite Hmin. destruct header; cbn; eexists; (split; [reflexivity|discriminate]).
Qed.

(** ** Validating a B2 block in the engine *)




End EngineFacts.

Lemma MEV_gate_rejects_whole_block_witness :
  convertToPHTs example_readings [tx_risky] = Ok risky_phts /\
  ((MEVDetector.DetectMEV risky_phts).1 <?
   MinMEVScore (config (NewP2SConsensus DefaultP2SConfig)))%float = true /\
  prepareB1Block_on example_readings [tx_risky] 1700000000
    (b1_Header example_b1) (NewP2SConsensus DefaultP2SConfig) =
  (Ok (Some "insufficient MEV protection"%string), NewP2SConsensus DefaultP2SConfig).
Proof.
  split; [exact risky_phts_created|]. split; [vm_compute; reflexivity|].
  apply (MEV_gate_rejects_whole_block example_readings [tx_risky] 1700000000
           (b1_Header example_b1) (NewP2SConsensus DefaultP2SConfig) risky_phts);
    [exact risky_phts_created|vm_compute; reflexivity].
Defined.

Example risky_batch_score :
  MEVDetector.DetectMEV risky_phts =
  (0.14999999999999991%float, ["sandwich_attack"; "front_running"; "arbitrage"]%string).
Proof. vm_compute. reflexivity. Qed.

(** The engine as shipped fetches an empty batch: under the default
    configuration the gate lets it through and the block is then refused for
    holding no PHT; the cache stays empty. *)
Example prepareB1Block_default :
  prepareB1Block example_readings 1700000000 (b1_Header example_b1)
    (NewP2SConsensus DefaultP2SConfig) =
  (Ok (Some "no PHTs in B1 block"%string), NewP2SConsensus DefaultP2SConfig).
Proof. vm_compute. reflexivity. Qed.

(** With a minimum above 1 the shipped engine, on its empty batch, stops at
    the gate. *)
Example prepareB1Block_strict_minimum :
  let p := NewP2SConsensus {| MinMEVScore := 1.5%float; MaxMEVScore := 1%float;
                              MinStake := 1000000000000000000;
                              MaxValidators := 100 |} in
  prepareB1Block example_readings 1700000000 (b1_Header example_b1) p =
  (Ok (Some "insufficient MEV protection"%string), p).
Proof. vm_compute. reflexivity. Qed.

(** With the Merkle proof system [finalizeB2Block] never stores a B2 block:
    converting the first PHT panics, and over a B1 block without PHTs the B2
    block has no MT and is refused. *)
Lemma finalizeB2Block_never_completes (clock : nat -> Z) (now : Z)
    (header : option Header) (p : P2SConsensus) :
  (finalizeB2Block clock now header p).2 = p.
Proof.
  unfold finalizeB2Block.
  destruct header as [h|]; [|done].
  destruct (GetB1Block _ _) as [b1Block|]; [|done].
  destruct (b1_PHTs b1Block) as [|pht rest] eqn:Hphts.
  - cbn. unfold B2Block_Validate. cbn.
    by destruct (negb (Header_Hash _ =? b1_BlockHash b1Block)).
  - unfold convertPHTsToMTs. cbn [convertPHTsToMTs_from].
    destruct pht as [pht|]; [|done].
    cbn [CreateMT_ptr]. by rewrite CreateMT_panics.
Qed.

Lemma empty_batch_passes_gate_witness :
  (MinMEVScore (config (NewP2SConsensus DefaultP2SConfig)) <=? 1)%float = true /\
  MEVDetector.DetectMEV [] = (1%float, []) /\
  ((MEVDetector.DetectMEV []).1 <?
   MinMEVScore (config (NewP2SConsensus DefaultP2SConfig)))%float = false /\
  exists r,
    (prepareB1Block example_readings 1700000000 (b1_Header example_b1)
       (NewP2SConsensus DefaultP2SConfig)).1 = Ok r /\
    r ≠ Some "insufficient MEV protection"%string.
Proof.
  split; [reflexivity|].
  apply (empty_batch_passes_gate example_readings 1700000000 (b1_Header example_b1)
           (NewP2SConsensus DefaultP2SConfig)).
  reflexivity.
Defined.


(** With the Merkle proof system the engine is built with, a B2 block
    without MTs passes whatever its parent holds, and a B2 block that
    reveals the first of the two PHTs of its parent ends in the panic of
    [VerifyMT] ([VerifyMT_panics]), as it does when the parent holds that PHT
    alone. *)
Example one_of_two_revealed :
  validateB2Block (PS := NewMerkleProofSystem) 0xB2 (engine_with []) = Ok None /\
  validateB2Block (PS := NewMerkleProofSystem) 0xB2 (engine_with (take 1 example_mts)) =
    Panic "index out of range" /\
  validate_mts (PS := NewMerkleProofSystem) 0 (take 1 example_mts)
    (take 1 (b1_PHTs example_b1)) = Panic "index out of range".
Proof.
  split; [vm_compute; reflexivity|].
  assert (Hfirst : forall phts,
            validate_mts (PS := NewMerkleProofSystem) 0 (take 1 example_mts)
              (take 1 (b1_PHTs example_b1) ++ phts) = Panic "index out of range").
  { intros phts.
    assert (Hmt : exists mt, take 1 example_mts = [Some mt]) by (eexists; reflexivity).
    assert (Hpht : exists pht, take 1 (b1_PHTs example_b1) = [Some pht])
      by (eexists; reflexivity).
    destruct Hmt as [mt ->], Hpht as [pht ->].
    cbn [app validate_mts length Nat.leb lookup list_lookup VerifyMT_ptr].
    by rewrite VerifyMT_panics. }
  split; [|by rewrite <- (Hfirst []), app_nil_r].
  unfold validateB2Block.
  assert (Hb2 : GetB2Block 0xB2 (cache (engine_with (take 1 example_mts))) =
                Some (example_b2_at 1700000014 (take 1 example_mts)))
    by (vm_compute; reflexivity).
  rewrite Hb2. cbn [b2_B1BlockHash b2_MTs example_b2_at].
  assert (Hb1 : GetB1Block 0xB1 (cache (engine_with (take 1 example_mts))) = Some example_b1)
    by (vm_compute; reflexivity).
  rewrite Hb1, <- (take_drop 1 (b1_PHTs example_b1)). apply Hfirst.
Qed.

(** ** Eviction from the PHT cache *)

Lemma scan_oldest_from {V} (timestamp : V -> Z) (range : list (Z * V)) (h0 t0 : Z) :
  let '(h, t) :=
    fold_left
      (fun '(oldestHash, oldestTime) '(hash, v) =>
         if timestamp v <? oldestTime then (hash, timestamp v)
         else (oldestHash, oldestTime))
      range (h0, t0) in
  Forall (fun e => t <= timestamp e.2) range /\
  ((h = h0 /\ t = t0) \/
   (t < t0 /\ exists v, (h, v) ∈ range /\ timestamp v = t)).
Proof.
  revert h0 t0. induction range as [|[k v] range IH]; intros h0 t0; cbn [fold_left].
  - split; [constructor|by left].
  - destruct (Z.ltb_spec (timestamp v) t0) as [Hlt|Hge].
    + specialize (IH k (timestamp v)).
      destruct (fold_left _ range (k, timestamp v)) as [h t].
      destruct IH as [Hall [[-> ->]|(Hlt' & v' & Hin & Hv')]].
      * split; [constructor; [cbn; lia|done]|].
        right. split; [done|]. exists v. split; [left|done].
      * split; [constructor; [cbn; lia|done]|].
        right. split; [lia|]. exists v'. split; [by right|done].
    + specialize (IH h0 t0).
      destruct (fold_left _ range (h0, t0)) as [h t].
      destruct IH as [Hall [[-> ->]|(Hlt' & v' & Hin & Hv')]].
      * split; [constructor; [cbn; lia|done]|]. by left.
      * split; [constructor; [cbn; lia|done]|].
        right. split; [done|]. exists v'. split; [by right|done].
Qed.

(** When no entry is older than the largest [uint64], the scan keeps the
    zero hash and nothing cached under another key is deleted. *)
Lemma evict_oldest_none {V} (timestamp : V -> Z) (range : list (Z * V)) (m : gmap Z V) :
  Forall (fun e => uint64_max <= timestamp e.2) range -> m !! 0 = None ->
  evict_oldest timestamp range m = m.
Proof.
  intros Hall Hzero. unfold evict_oldest, scan_oldest.
  pose proof (scan_oldest_from timestamp range 0 uint64_max) as Hscan.
  destruct (fold_left _ range (0, uint64_max)) as [h t].
  destruct Hscan as [_ [[-> ->]|(Hlt & v & Hin & Hv)]].
  - by apply delete_id.
  - rewrite Forall_forall in Hall. specialize (Hall _ Hin). cbn in Hall. lia.
Qed.

(** When some entry is older than the largest [uint64], the scan finds the
    key of an entry that no entry is older than, for every visiting order. *)
Lemma evict_oldest_some {V} (timestamp : V -> Z) (range : list (Z * V)) (m : gmap Z V) :
  range ≡ₚ map_to_list m ->
  (exists k v, m !! k = Some v /\ timestamp v < uint64_max) ->
  exists k v,
    m !! k = Some v /\
    (forall k' v', m !! k' = Some v' -> timestamp v <= timestamp v') /\
    evict_oldest timestamp range m = delete k m.
Proof.
  intros Hperm (k0 & v0 & Hk0 & Hv0). unfold evict_oldest, scan_oldest.
  pose proof (scan_oldest_from timestamp range 0 uint64_max) as Hscan.
  destruct (fold_left _ range (0, uint64_max)) as [h t].
  destruct Hscan as [Hall Hcase]. rewrite Forall_forall in Hall.
  assert (Hin0 : (k0, v0) ∈ range) by (by rewrite Hperm, elem_of_map_to_list).
  destruct Hcase as [[-> ->]|(Hlt & v & Hin & Hv)].
  - specialize (Hall _ Hin0). cbn in Hall. lia.
  - exists h, v. rewrite Hperm, elem_of_map_to_list in Hin.
    split; [done|]. split; [|done].
    intros k' v' Hk'. rewrite Hv. apply (Hall (k', v')).
    by rewrite Hperm, elem_of_map_to_list.
Qed.

(** At capacity with an entry older than the largest [uint64], inserting
    under a new key evicts one entry that no entry is older than, and the
    size stays the same. *)
Lemma SetPHT_in_evicts_oldest (range : list (Z * PHTTransaction)) (hash : Z)
    (pht : PHTTransaction) (c : P2SCache) :
  range ≡ₚ map_to_list (phtCache c) ->
  maxSize c <= Z.of_nat (size (phtCache c)) ->
  phtCache c !! hash = None ->
  (exists k v, phtCache c !! k = Some v /\ pht_Timestamp v < uint64_max) ->
  exists k v,
    phtCache c !! k = Some v /\
    (forall k' v', phtCache c !! k' = Some v' -> pht_Timestamp v <= pht_Timestamp v') /\
    phtCache (SetPHT_in range hash pht c) = <[hash := pht]> (delete k (phtCache c)) /\
    size (phtCache (SetPHT_in range hash pht c)) = size (phtCache c).
Proof.
  intros Hperm Hfull Hnew Hold.
  destruct (evict_oldest_some pht_Timestamp range (phtCache c) Hperm Hold)
    as (k & v & Hk & Hmin & Hevict).
  exists k, v. split; [done|]. split; [done|].
  unfold SetPHT_in. destruct (Z.geb_spec (Z.of_nat (size (phtCache c))) (maxSize c)); [|lia].
  cbn [with_pht evictOldestPHT_in phtCache]. rewrite Hevict. split; [done|].
  rewrite map_size_insert_None by (rewrite lookup_delete_ne; [done|congruence]).
  rewrite map_size_delete, Hk. cbn.
  assert (size (phtCache c) ≠ 0%nat)
    by (intros H0; apply map_size_empty_inv in H0; by rewrite H0 in Hk).
  lia.
Qed.

Lemma insert_all_below_capacity (c0 : P2SCache) (l : list (Z * PHTTransaction)) :
  phtCache c0 = ∅ -> NoDup l.*1 -> Z.of_nat (length l) <= maxSize c0 ->
  phtCache (insert_all l c0) = list_to_map l /\
  maxSize (insert_all l c0) = maxSize c0.
Proof.
  intros Hempty. induction l as [|[k v] l IH] using rev_ind; intros Hnd Hlen.
  - unfold insert_all. cbn. by rewrite Hempty.
  - rewrite fmap_app, NoDup_app in Hnd. destruct Hnd as (Hnd & Hfresh & _).
    rewrite length_app in Hlen. cbn [length] in Hlen.
    destruct IH as [Hmap Hmax]; [done|lia|].
    unfold insert_all. rewrite fold_left_app. cbn [fold_left fst snd].
    fold (insert_all l c0). set (cl := insert_all l c0) in *.
    unfold SetPHT, SetPHT_in. rewrite Hmap, Hmax, map_size_list_to_map by done.
    destruct (Z.geb_spec (Z.of_nat (length l)) (maxSize c0)) as [|_]; [lia|].
    cbn [with_pht phtCache maxSize]. rewrite Hmap. split; [|done].
    symmetry. apply list_to_map_snoc. intros Hin. apply (Hfresh k Hin). cbn. left.
Qed.

(** X28. Inserting [maxSize+1] PHTs under distinct keys, stamped in strictly
    increasing order, into an empty cache leaves [maxSize] entries: the first
    one inserted is gone and all the others are there. *)
Lemma SetPHT_increasing_stamps (c0 : P2SCache) (e1 : Z * PHTTransaction)
    (l2 : list (Z * PHTTransaction)) (e_last : Z * PHTTransaction) :
  phtCache c0 = ∅ ->
  maxSize c0 = Z.of_nat (S (length l2)) ->
  NoDup (e1 :: l2 ++ [e_last]).*1 ->
  StronglySorted (fun e e' => pht_Timestamp e.2 < pht_Timestamp e'.2)
    (e1 :: l2 ++ [e_last]) ->
  pht_Timestamp e_last.2 <= uint64_max ->
  let c := insert_all (e1 :: l2 ++ [e_last]) c0 in
  size (phtCache c) = S (length l2) /\
  GetPHT e1.1 c = None /\
  forall e, e ∈ l2 ++ [e_last] -> GetPHT e.1 c = Some e.2.
Proof.
  intros Hempty Hmax Hnd Hsorted Hlast c. subst c.
  change (e1 :: l2 ++ [e_last]) with ((e1 :: l2) ++ [e_last]) in *.
  set (l := e1 :: l2) in *.
  assert (Hndl : NoDup l.*1 /\ e_last.1 ∉ l.*1).
  { rewrite fmap_app, NoDup_app in Hnd. destruct Hnd as (Hndl & Hfresh & _).
    split; [done|]. intros Hin. apply (Hfresh _ Hin). cbn. left. }
  destruct Hndl as [Hndl Hfresh].
  destruct (insert_all_below_capacity c0 l Hempty Hndl) as [Hmap Hmax'].
  { rewrite Hmax. unfold l. cbn [length]. lia. }
  assert (Hhead : Forall (fun e' => pht_Timestamp e1.2 < pht_Timestamp e'.2)
                    (l2 ++ [e_last])).
  { unfold l in Hsorted. cbn [app] in Hsorted.
    by apply StronglySorted_inv in Hsorted as [_ ?]. }
  rewrite Forall_forall in Hhead.
  assert (He1 : phtCache (insert_all l c0) !! e1.1 = Some e1.2).
  { rewrite Hmap. apply elem_of_list_to_map_1; [done|].
    destruct e1. unfold l. left. }
  set (cl := insert_all l c0) in *.
  replace (insert_all (l ++ [e_last]) c0) with (SetPHT e_last.1 e_last.2 cl)
    by (unfold cl, insert_all; by rewrite fold_left_app).
  unfold GetPHT, SetPHT.
  destruct (SetPHT_in_evicts_oldest (map_to_list (phtCache cl)) e_last.1 e_last.2 cl)
    as (k & v & Hk & Hmin & Hcache & Hsize).
  { done. }
  { rewrite Hmax', Hmax, Hmap, map_size_list_to_map by done. unfold l. cbn [length]. lia. }
  { rewrite Hmap. by apply not_elem_of_list_to_map_1. }
  { exists e1.1, e1.2. split; [done|].
    assert (pht_Timestamp e1.2 < pht_Timestamp e_last.2); [|lia].
    apply Hhead. rewrite elem_of_app, list_elem_of_singleton. by right. }
  assert (Hkey : k = e1.1).
  { rewrite Hmap in Hk. apply elem_of_list_to_map_2 in Hk.
    unfold l in Hk. apply elem_of_cons in Hk as [Heq|Hin]; [by subst e1|].
    pose proof (Hmin _ _ He1) as Hle.
    assert (pht_Timestamp e1.2 < pht_Timestamp v); [|lia].
    apply (Hhead (k, v)). rewrite elem_of_app. by left. }
  subst k. rewrite Hsize, Hcache, Hmap, map_size_list_to_map by done.
  split; [done|].
  assert (Hne : e_last.1 ≠ e1.1).
  { intros Heq. apply Hfresh. rewrite Heq. unfold l. cbn. left. }
  split.
  - by rewrite lookup_insert_ne, lookup_delete_eq.
  - intros e He. apply elem_of_app in He as [He|He].
    + assert (He' : (e.1, e.2) ∈ l) by (destruct e; unfold l; by right).
      assert (e.1 ≠ e_last.1).
      { intros Heq. apply Hfresh. rewrite <- Heq.
        apply list_elem_of_fmap. by exists (e.1, e.2). }
      assert (e.1 ≠ e1.1).
      { intros Heq. unfold l in Hndl. cbn in Hndl. apply NoDup_cons in Hndl as [Hn _].
        apply Hn. rewrite <- Heq. apply list_elem_of_fmap. by exists e. }
      rewrite lookup_insert_ne, lookup_delete_ne by done.
      by apply elem_of_list_to_map_1.
    + apply list_elem_of_singleton in He as ->. by rewrite lookup_insert_eq.
Qed.

(** The example of the specification, on a cache of capacity 2: PHTs
    stamped 10, 20 and 30 inserted in that order leave the one stamped 10
    out and the other two in. *)
Example eviction_10_20_30 :
  let stamped t := {| pht_Sender := 0; pht_GasPrice := 1; pht_Commitment := [];
                      pht_Nonce := []; pht_Timestamp := t; pht_Recipient := 0;
                      pht_Value := 0; pht_CallData := []; pht_TxType := 0;
                      pht_GasLimit := 0; pht_TxHash := 0 |} in
  let c0 := {| b1Blocks := ∅; b2Blocks := ∅; phtCache := ∅; mtCache := ∅;
               commitmentCache := ∅; maxSize := 2 |} in
  let c := SetPHT 0x30 (stamped 30) (SetPHT 0x20 (stamped 20) (SetPHT 0x10 (stamped 10) c0)) in
  size (phtCache c) = 2%nat /\ GetPHT 0x10 c = None /\
  GetPHT 0x20 c = Some (stamped 20) /\ GetPHT 0x30 c = Some (stamped 30).
Proof. vm_compute. done. Qed.

(** Below capacity, or with no entry older than the largest [uint64] and
    nothing under the zero hash, inserting under a new key adds an entry. *)
Lemma SetPHT_in_grows (range : list (Z * PHTTransaction)) (hash : Z)
    (pht : PHTTransaction) (c : P2SCache) :
  Forall (fun e => uint64_max <= pht_Timestamp e.2) range ->
  phtCache c !! 0 = None -> phtCache c !! hash = None ->
  size (phtCache (SetPHT_in range hash pht c)) = S (size (phtCache c)).
Proof.
  intros Hall Hzero Hnew. unfold SetPHT_in.
  destruct (Z.of_nat (size (phtCache c)) >=? maxSize c);
    cbn [with_pht evictOldestPHT_in phtCache];
    rewrite ?evict_oldest_none by done; by apply map_size_insert_None.
Qed.

(** C8 at the failing input. After 1000 insertions of PHTs stamped
    [2^64-1] under the keys 1 to 1000 the cache of capacity 1000 is full; one
    more [SetPHT], under the key 1001, evicts nothing, in whatever order the
    scan visits the map, and the cache holds 1001 entries. *)
Theorem SetPHT_exceeds_maxSize :
  maxSize (filled 1000) = 1000 /\
  size (phtCache (filled 1000)) = 1000%nat /\
  forall range, range ≡ₚ map_to_list (phtCache (filled 1000)) ->
    size (phtCache (SetPHT_in range 1001 (max_stamped 1001) (filled 1000))) = 1001%nat.
Proof.
  assert (Hmax : maxSize (filled 1000) = 1000) by (vm_compute; reflexivity).
  assert (Hsize : size (phtCache (filled 1000)) = 1000%nat)
    by (vm_compute; reflexivity).
  assert (Hall : forallb (fun e => uint64_max <=? pht_Timestamp e.2)
                   (map_to_list (phtCache (filled 1000))) = true)
    by (vm_compute; reflexivity).
  assert (Hzero : phtCache (filled 1000) !! 0 = None) by (vm_compute; reflexivity).
  assert (Hnew : phtCache (filled 1000) !! 1001 = None) by (vm_compute; reflexivity).
  revert Hmax Hsize Hall Hzero Hnew. generalize (filled 1000).
  intros c Hmax Hsize Hall Hzero Hnew.
  split; [exact Hmax|]. split; [exact Hsize|].
  intros range Hperm. rewrite <- Hsize. apply SetPHT_in_grows; [|exact Hzero|exact Hnew].
  rewrite Forall_forall. intros e He. rewrite Hperm in He.
  rewrite forallb_forall in Hall. apply Z.leb_le, Hall.
  by apply list_elem_of_In.
Qed.

(** ** The detector: signature tests, labels and risk levels *)

Lemma Bytes2Hex_length (l : bytes) : String.length (Bytes2Hex l) = (2 * length l)%nat.
Proof.
  unfold Bytes2Hex. induction l as [|b l IH]; [done|].
  cbn [flat_map app string_of_list_ascii String.length length]. rewrite IH. lia.
Qed.

Lemma has_signature_prefixed (signatures : list string) (callData : bytes) :
  Forall (fun sig => String.length sig = 10%nat) signatures ->
  MEVDetector.has_signature signatures callData = false.
Proof.
  intros Hsigs. unfold MEVDetector.has_signature.
  destruct (Nat.ltb_spec (length callData) 4) as [|Hlen]; [done|].
  apply not_true_iff_false. rewrite existsb_exists. intros (sig & Hin & Heq).
  apply String.eqb_eq in Heq. rewrite Forall_forall in Hsigs.
  apply list_elem_of_In, Hsigs in Hin. rewrite <- Heq, Bytes2Hex_length, length_firstn in Hin.
  lia.
Qed.

Lemma isSandwichPattern_threshold (pht : PHTTransaction) :
  MEVDetector.isSandwichPattern pht =
  (pht_GasPrice pht >? 10000000000) || (pht_Value pht >? 1000000000000000000).
Proof.
  unfold MEVDetector.isSandwichPattern, MEVDetector.hasDEXFunctionSignature.
  rewrite has_signature_prefixed by (by repeat constructor).
  rewrite andb_false_r. by destruct (_ >? _), (_ >? _).
Qed.

Lemma isFrontRunPattern_threshold (pht : PHTTransaction) :
  MEVDetector.isFrontRunPattern pht = (pht_GasPrice pht >? 50000000000).
Proof.
  unfold MEVDetector.isFrontRunPattern, MEVDetector.hasFrontRunPattern.
  rewrite has_signature_prefixed by (by repeat constructor).
  rewrite andb_false_r. by destruct (_ >? _).
Qed.

Lemma isArbitragePattern_recipient (pht : PHTTransaction) :
  MEVDetector.isArbitragePattern pht =
  MEVDetector.isKnownArbitrageContract (pht_Recipient pht).
Proof.
  unfold MEVDetector.isArbitragePattern, MEVDetector.hasArbitrageFunctionSignature.
  rewrite has_signature_prefixed by (by repeat constructor).
  rewrite andb_false_r. by destruct (MEVDetector.isKnownArbitrageContract _).
Qed.

Lemma isLiquidationPattern_recipient (pht : PHTTransaction) :
  MEVDetector.isLiquidationPattern pht =
  MEVDetector.isKnownLiquidationContract (pht_Recipient pht).
Proof.
  unfold MEVDetector.isLiquidationPattern, MEVDetector.hasLiquidationFunctionSignature.
  rewrite has_signature_prefixed by (by repeat constructor).
  rewrite andb_false_r. by destruct (MEVDetector.isKnownLiquidationContract _).
Qed.

Lemma front_run_is_sandwich (pht : PHTTransaction) :
  MEVDetector.isFrontRunPattern pht = true -> MEVDetector.isSandwichPattern pht = true.
Proof.
  rewrite isFrontRunPattern_threshold, isSandwichPattern_threshold.
  intros H. apply orb_true_iff. left. apply Z.gtb_lt. apply Z.gtb_lt in H. lia.
Qed.

Lemma high_value_is_sandwich (pht : PHTTransaction) :
  MEVDetector.isHighValuePattern pht = true -> MEVDetector.isSandwichPattern pht = true.
Proof.
  unfold MEVDetector.isHighValuePattern. rewrite isSandwichPattern_threshold.
  intros H. apply orb_true_iff. right. apply Z.gtb_lt. apply Z.gtb_lt in H. lia.
Qed.

Lemma arbitrage_excludes_liquidation (pht : PHTTransaction) :
  MEVDetector.isArbitragePattern pht = true ->
  MEVDetector.isLiquidationPattern pht = false.
Proof.
  rewrite isArbitragePattern_recipient, isLiquidationPattern_recipient.
  unfold MEVDetector.isKnownArbitrageContract, MEVDetector.isKnownLiquidationContract.
  cbn [existsb]. rewrite !orb_false_r, !orb_true_iff, !Z.eqb_eq.
  intros [->|[->| ->]]; reflexivity.
Qed.

(** X1. The four signature tests of the detector never match:
    [common.Bytes2Hex] writes the first four bytes of the call data as eight
    hexadecimal digits, and every signature they are compared with carries
    the prefix 0x, ten characters. So the pattern tests do not read the call
    data: the sandwich test holds exactly when the gas price exceeds 10 gwei
    or the value exceeds 1 ETH, the front-run test exactly when the gas
    price exceeds 50 gwei, and the arbitrage and liquidation tests exactly
    when the recipient is on the respective list of contracts. *)
Theorem signature_tests_never_match (callData : bytes) (pht : PHTTransaction) :
  (MEVDetector.hasDEXFunctionSignature callData = false /\
   MEVDetector.hasFrontRunPattern callData = false /\
   MEVDetector.hasArbitrageFunctionSignature callData = false /\
   MEVDetector.hasLiquidationFunctionSignature callData = false) /\
  MEVDetector.isSandwichPattern pht =
    (pht_GasPrice pht >? 10000000000) || (pht_Value pht >? 1000000000000000000) /\
  MEVDetector.isFrontRunPattern pht = (pht_GasPrice pht >? 50000000000) /\
  MEVDetector.isArbitragePattern pht =
    MEVDetector.isKnownArbitrageContract (pht_Recipient pht) /\
  MEVDetector.isLiquidationPattern pht =
    MEVDetector.isKnownLiquidationContract (pht_Recipient pht).
Proof.
  split; [repeat split; apply has_signature_prefixed; by repeat constructor|].
  split; [apply isSandwichPattern_threshold|].
  split; [apply isFrontRunPattern_threshold|].
  split; [apply isArbitragePattern_recipient|apply isLiquidationPattern_recipient].
Qed.

Lemma analyzeTransaction_exact_tests (pht : PHTTransaction) :
  analyzeTransaction_exact pht =
  analysis_of_tests_exact
    (MEVDetector.isSandwichPattern pht) (MEVDetector.isFrontRunPattern pht)
    (MEVDetector.isArbitragePattern pht) (MEVDetector.isLiquidationPattern pht)
    (MEVDetector.isHighValuePattern pht) (MEVDetector.isContractInteractionPattern pht).
Proof. reflexivity. Qed.

(** The outcomes of the six tests that a transaction can produce: a
    front-run or high-value match comes with a sandwich match, and no
    recipient is on both contract lists. *)
Ltac test_cases pht :=
  generalize (front_run_is_sandwich pht) (high_value_is_sandwich pht)
             (arbitrage_excludes_liquidation pht);
  generalize (MEVDetector.isSandwichPattern pht) (MEVDetector.isFrontRunPattern pht)
             (MEVDetector.isArbitragePattern pht) (MEVDetector.isLiquidationPattern pht)
             (MEVDetector.isHighValuePattern pht)
             (MEVDetector.isContractInteractionPattern pht);
  intros [] [] [] [] [] [] HFS HHS HAL;
  try (specialize (HFS eq_refl); discriminate HFS);
  try (specialize (HHS eq_refl); discriminate HHS);
  try (specialize (HAL eq_refl); discriminate HAL);
  clear HFS HHS HAL.

(** X3. The labels of one transaction: front_running comes with
    sandwich_attack, arbitrage and liquidation never come together, there
    are at most three labels, and a transaction labelled front_running
    scores at most 1/2, in [float64] as in exact arithmetic. *)
Theorem attack_label_constraints (pht : PHTTransaction) :
  let labels := (MEVDetector.analyzeTransaction pht).2 in
  ("front_running"%string ∈ labels -> "sandwich_attack"%string ∈ labels) /\
  ~ ("arbitrage"%string ∈ labels /\ "liquidation"%string ∈ labels) /\
  (length labels <= 3)%nat /\
  ("front_running"%string ∈ labels ->
   ((MEVDetector.analyzeTransaction pht).1 <=? 0.5)%float = true /\
   ((analyzeTransaction_exact pht).1 <= 1 # 2)%Q).
Proof.
  rewrite analyzeTransaction_tests, analyzeTransaction_exact_tests. test_cases pht; cbv zeta;
    (split; [refine (bool_decide_unpack _ _); vm_compute; exact I|]);
    (split; [refine (bool_decide_unpack _ _); vm_compute; exact I|]);
    (split; [vm_compute; lia|]);
    first [ intros _; vm_compute; split; [reflexivity|discriminate]
          | intros H; exfalso; revert H; refine (bool_decide_unpack _ _); vm_compute; exact I ].
Qed.

(** X4. The score Go computes in [float64] for one transaction lies in
    [0,1], comes with the labels of the analysis in exact arithmetic, and
    is below the default gate 0.7 exactly when the exact score is: rounding
    moves no single transaction across that gate. *)
Theorem float_score_agrees_at_gate (pht : PHTTransaction) :
  let s := (MEVDetector.analyzeTransaction pht).1 in
  (0 <=? s)%float = true /\ (s <=? 1)%float = true /\
  (MEVDetector.analyzeTransaction pht).2 = (analyzeTransaction_exact pht).2 /\
  (s <? 0.7)%float = Qltb (analyzeTransaction_exact pht).1 0.7.
Proof.
  rewrite analyzeTransaction_tests, analyzeTransaction_exact_tests.
  generalize (MEVDetector.isSandwichPattern pht) (MEVDetector.isFrontRunPattern pht)
             (MEVDetector.isArbitragePattern pht) (MEVDetector.isLiquidationPattern pht)
             (MEVDetector.isHighValuePattern pht)
             (MEVDetector.isContractInteractionPattern pht).
  intros [] [] [] [] [] []; vm_compute; done.
Qed.

(** X5. [AnalyzeMEVRisk] rates a transaction low exactly when neither the
    sandwich test nor the liquidation test matches, and it recommends
    nothing exactly when none of the sandwich, arbitrage and liquidation
    tests matches. *)
Theorem low_risk_iff (pht : PHTTransaction) :
  (RiskLevel (AnalyzeMEVRisk pht) = "low"%string <->
   MEVDetector.isSandwichPattern pht = false /\
   MEVDetector.isLiquidationPattern pht = false) /\
  (Recommendations (AnalyzeMEVRisk pht) = [] <->
   MEVDetector.isSandwichPattern pht = false /\
   MEVDetector.isArbitragePattern pht = false /\
   MEVDetector.isLiquidationPattern pht = false).
Proof.
  unfold AnalyzeMEVRisk. rewrite analyzeTransaction_tests.
  test_cases pht; vm_compute; (split; split; try done; intros H; decompose [and] H; done).
Qed.

(** X6. Rounding moves a risk level. For a transaction with a gas price
    above 50 gwei, a payload, a value of at most 10 ETH and a recipient on
    neither list, the penalties 0.3, 0.2 and 0.1 leave exactly 0.4 in
    rational arithmetic, where the level high starts; the [float64] score is
    below 0.4 and the level [AnalyzeMEVRisk] reports is critical. *)
Theorem rounding_lowers_risk_tier (pht : PHTTransaction)
    (Hgas : 50000000000 < pht_GasPrice pht)
    (Hvalue : pht_Value pht <= 10000000000000000000)
    (Hdata : pht_CallData pht ≠ [])
    (Harb : MEVDetector.isKnownArbitrageContract (pht_Recipient pht) = false)
    (Hliq : MEVDetector.isKnownLiquidationContract (pht_Recipient pht) = false) :
  ((analyzeTransaction_exact pht).1 == 0.4)%Q /\
  (Score (AnalyzeMEVRisk pht) <? 0.4)%float = true /\
  RiskLevel (AnalyzeMEVRisk pht) = "critical"%string.
Proof.
  unfold AnalyzeMEVRisk.
  rewrite analyzeTransaction_exact_tests, analyzeTransaction_tests.
  rewrite isSandwichPattern_threshold, isFrontRunPattern_threshold,
    isArbitragePattern_recipient, isLiquidationPattern_recipient, Harb, Hliq.
  unfold MEVDetector.isHighValuePattern, MEVDetector.isContractInteractionPattern.
  destruct (Z.gtb_spec (pht_GasPrice pht) 10000000000); [|lia].
  destruct (Z.gtb_spec (pht_GasPrice pht) 50000000000); [|lia].
  destruct (Z.gtb_spec (pht_Value pht) 10000000000000000000); [lia|].
  destruct (pht_CallData pht); [done|]. cbn [length Nat.ltb Nat.leb orb].
  vm_compute. done.
Qed.

Lemma rounding_lowers_risk_tier_witness :
  50000000000 < pht_GasPrice hurried_pht /\
  pht_Value hurried_pht <= 10000000000000000000 /\
  pht_CallData hurried_pht ≠ [] /\
  MEVDetector.isKnownArbitrageContract (pht_Recipient hurried_pht) = false /\
  MEVDetector.isKnownLiquidationContract (pht_Recipient hurried_pht) = false /\
  ((analyzeTransaction_exact hurried_pht).1 == 0.4)%Q /\
  (Score (AnalyzeMEVRisk hurried_pht) <? 0.4)%float = true /\
  RiskLevel (AnalyzeMEVRisk hurried_pht) = "critical"%string.
Proof.
  split; [cbn; lia|]. split; [cbn; lia|]. split; [discriminate|].
  split; [reflexivity|]. split; [reflexivity|].
  apply (rounding_lowers_risk_tier hurried_pht);
    [cbn; lia|cbn; lia|discriminate|reflexivity|reflexivity].
Defined.

(** ** The labels of a batch *)

Lemma removeDuplicateAttacks_from (attacks : list string) (seen : gset string)
    (result : list string) :
  (forall a, a ∈ seen <-> a ∈ result) -> NoDup result ->
  exists new,
    (fold_left
       (fun (st : gset string * list string) attack =>
          let '(seen, result) := st in
          if bool_decide (attack ∈ seen) then st
          else ({[attack]} ∪ seen, result ++ [attack]))
       attacks (seen, result)).2 = result ++ new /\
    NoDup (result ++ new) /\
    sublist new attacks /\
    (forall a, a ∈ new <-> a ∈ attacks /\ a ∉ result) /\
    (NoDup attacks -> (forall a, a ∈ attacks -> a ∉ result) -> new = attacks).
Proof.
  revert seen result.
  induction attacks as [|attack attacks IH]; intros seen result Hseen Hnd; cbn [fold_left].
  - exists []. rewrite app_nil_r. split; [done|]. split; [done|]. split; [done|].
    split; [|done]. intros a. rewrite elem_of_nil. tauto.
  - case_bool_decide as Hin.
    + destruct (IH seen result Hseen Hnd) as (new & Heq & Hnd' & Hsub & Hmem & Hid).
      exists new. split; [done|]. split; [done|]. split; [by apply sublist_cons|].
      apply Hseen in Hin. split.
      * intros a. rewrite Hmem, elem_of_cons. split; [tauto|].
        intros [[->|Ha] Hnot]; [done|tauto].
      * intros _ Hfresh. exfalso. apply (Hfresh attack); [left|done].
    + assert (Hnot : attack ∉ result) by (by rewrite <- Hseen).
      destruct (IH ({[attack]} ∪ seen) (result ++ [attack])) as (new & Heq & Hnd' & Hsub & Hmem & Hid).
      { intros a. rewrite elem_of_union, elem_of_singleton, elem_of_app, list_elem_of_singleton, Hseen. tauto. }
      { apply NoDup_app. split; [done|]. split; [|apply NoDup_singleton].
        intros a Ha Ha'. apply list_elem_of_singleton in Ha' as ->. done. }
      exists (attack :: new). rewrite Heq, <- app_assoc. cbn [app].
      split; [done|]. split; [by rewrite <- app_assoc in Hnd'|].
      split; [by apply sublist_skip|]. split.
      * intros a. rewrite !elem_of_cons, Hmem, elem_of_app, list_elem_of_singleton.
        split.
        -- intros [->|[Ha Hn]]; [tauto|]. split; [tauto|]. intros Hr. apply Hn. tauto.
        -- intros [[->|Ha] Hn]; [tauto|]. destruct (decide (a = attack)) as [->|Hne]; [tauto|].
           right. split; [done|]. intros [Hr|Hr]; tauto.
      * intros Hnda Hfresh. apply NoDup_cons in Hnda as [Hnotin Hnda]. f_equal.
        apply Hid; [done|]. intros a Ha. rewrite elem_of_app, list_elem_of_singleton.
        intros [Hr| ->]; [|done]. apply (Hfresh a); [by right|done].
Qed.


Lemma accumulate_labels (phts : list PHTTransaction) (acc : float * list string) :
  (fold_left
     (fun acc pht =>
        let '(score, attacks) := MEVDetector.analyzeTransaction pht in
        ((acc.1 + score)%float, acc.2 ++ attacks))
     phts acc).2 =
  acc.2 ++ concat (map (fun pht => (MEVDetector.analyzeTransaction pht).2) phts).
Proof.
  revert acc. induction phts as [|pht phts IH]; intros acc; cbn [fold_left map concat].
  - by rewrite app_nil_r.
  - rewrite IH. destruct (MEVDetector.analyzeTransaction pht) as [score attacks].
    cbn [fst snd]. by rewrite app_assoc.
Qed.

Lemma DetectMEV_labels_concat (phts : list PHTTransaction) :
  (MEVDetector.DetectMEV phts).2 =
  MEVDetector.removeDuplicateAttacks
    (concat (map (fun pht => (MEVDetector.analyzeTransaction pht).2) phts)).
Proof.
  unfold MEVDetector.DetectMEV. destruct phts as [|pht phts]; [done|].
  cbn [length Nat.eqb].
  pose proof (accumulate_labels (pht :: phts) (0%float, [])) as Hlabels.
  fold (MEVDetector.accumulate (pht :: phts)) in Hlabels.
  destruct (MEVDetector.accumulate (pht :: phts)) as [total attacks].
  cbn [fst snd app] in *. by rewrite Hlabels.
Qed.

Lemma elem_of_concat_map {A B} (f : A -> list B) (l : list A) (b : B) :
  b ∈ concat (map f l) <-> exists a, a ∈ l /\ b ∈ f a.
Proof.
  induction l as [|a l IH]; cbn [map concat].
  - rewrite elem_of_nil. split; [done|]. intros (a & Ha & _). by apply elem_of_nil in Ha.
  - rewrite elem_of_app, IH. split.
    + intros [Hb|(a' & Ha' & Hb)]; [exists a; split; [left|done]|].
      exists a'. split; [by right|done].
    + intros (a' & Ha' & Hb). apply elem_of_cons in Ha' as [->|Ha']; [by left|].
      right. by exists a'.
Qed.

Lemma analyzeTransaction_labels_known (pht : PHTTransaction) (a : string) :
  a ∈ (MEVDetector.analyzeTransaction pht).2 ->
  a ∈ ["sandwich_attack"; "front_running"; "arbitrage"; "liquidation"]%string.
Proof.
  rewrite analyzeTransaction_tests.
  generalize (MEVDetector.isSandwichPattern pht) (MEVDetector.isFrontRunPattern pht)
             (MEVDetector.isArbitragePattern pht) (MEVDetector.isLiquidationPattern pht)
             (MEVDetector.isHighValuePattern pht)
             (MEVDetector.isContractInteractionPattern pht).
  intros s f r l h c.
  assert (Hsub : (analysis_of_tests s f r l h c).2 ⊆
                 ["sandwich_attack"; "front_running"; "arbitrage"; "liquidation"]%string).
  { destruct s, f, r, l, h, c; refine (bool_decide_unpack _ _); vm_compute; exact I. }
  apply Hsub.
Qed.

(** X8. The labels [DetectMEV] reports are without repetition, are exactly
    the labels that some transaction of the batch got, and are among the
    four labels of the detector: at most four. *)
Theorem DetectMEV_labels (phts : list PHTTransaction) :
  NoDup (MEVDetector.DetectMEV phts).2 /\
  (forall a, a ∈ (MEVDetector.DetectMEV phts).2 <->
             exists pht, pht ∈ phts /\ a ∈ (MEVDetector.analyzeTransaction pht).2) /\
  (MEVDetector.DetectMEV phts).2 ⊆
    ["sandwich_attack"; "front_running"; "arbitrage"; "liquidation"]%string /\
  (length (MEVDetector.DetectMEV phts).2 <= 4)%nat.
Proof.
  rewrite DetectMEV_labels_concat.
  set (all := concat _). unfold MEVDetector.removeDuplicateAttacks.
  destruct (removeDuplicateAttacks_from all ∅ []) as (new & -> & Hnd & _ & Hmem & _).
  { intros a. rewrite elem_of_nil, elem_of_empty. tauto. }
  { constructor. }
  cbn [app] in *.
  assert (Hall : forall a, a ∈ new <->
            exists pht, pht ∈ phts /\ a ∈ (MEVDetector.analyzeTransaction pht).2).
  { intros a. rewrite Hmem, elem_of_nil. unfold all. rewrite elem_of_concat_map. tauto. }
  assert (Hsub : new ⊆ ["sandwich_attack"; "front_running"; "arbitrage"; "liquidation"]%string).
  { intros a Ha. apply Hall in Ha as (pht & _ & Ha).
    by apply (analyzeTransaction_labels_known pht). }
  split; [done|]. split; [done|]. split; [done|].
  apply (submseteq_length _ ["sandwich_attack"; "front_running"; "arbitrage"; "liquidation"]%string).
  by apply NoDup_submseteq.
Qed.

(** ** The susceptibility test of the PHT manager *)

Lemma IsMEVSusceptible_tests (pht : PHTTransaction) :
  IsMEVSusceptible pht =
  (pht_GasPrice pht >? 1000000000) && (pht_Value pht >? 1000000000000000000) &&
  (0 <? length (pht_CallData pht))%nat.
Proof.
  unfold IsMEVSusceptible, PHTManager_GetMEVScore.
  destruct (pht_GasPrice pht >? 1000000000), (pht_Value pht >? 1000000000000000000),
    (0 <? length (pht_CallData pht))%nat; vm_compute; reflexivity.
Qed.

(** X9. [IsMEVSusceptible] holds exactly when the gas price exceeds
    1 gwei, the value exceeds 1 ETH and the call data is not empty; a PHT it
    holds of scores below 0.7 in the detector as well. *)
Theorem IsMEVSusceptible_iff (pht : PHTTransaction) :
  (IsMEVSusceptible pht = true <->
   1000000000 < pht_GasPrice pht /\ 1000000000000000000 < pht_Value pht /\
   pht_CallData pht ≠ []) /\
  (IsMEVSusceptible pht = true ->
   ((MEVDetector.analyzeTransaction pht).1 <? 0.7)%float = true).
Proof.
  rewrite IsMEVSusceptible_tests, !andb_true_iff, Nat.ltb_lt.
  split.
  - rewrite !Z.gtb_lt.
    assert ((0 < length (pht_CallData pht))%nat <-> pht_CallData pht ≠ []) as ->
      by (destruct (pht_CallData pht); cbn [length]; split; [lia|done|done|lia]).
    tauto.
  - intros [[_ Hvalue] Hdata].
    rewrite analyzeTransaction_tests, isSandwichPattern_threshold, Hvalue, orb_true_r.
    unfold MEVDetector.isContractInteractionPattern.
    apply Nat.ltb_lt in Hdata. rewrite Hdata.
    generalize (MEVDetector.isFrontRunPattern pht) (MEVDetector.isArbitragePattern pht)
               (MEVDetector.isLiquidationPattern pht) (MEVDetector.isHighValuePattern pht).
    intros [] [] [] []; vm_compute; reflexivity.
Qed.

(** ** Bytes and numbers *)

Lemma byte_to_Z_range (b : byte) : 0 <= byte_to_Z b < 256.
Proof. unfold byte_to_Z. pose proof (Byte.to_N_bounded b). lia. Qed.

Lemma byte_to_of_Z (z : Z) : byte_to_Z (byte_of_Z z) = z mod 256.
Proof.
  unfold byte_to_Z, byte_of_Z.
  pose proof (Z.mod_pos_bound z 256 eq_refl) as Hrange.
  pose proof (Byte.to_of_N_option_map (Z.to_N (z mod 256))) as Hof.
  destruct (Byte.of_N (Z.to_N (z mod 256))) as [b|]; cbn [option_map] in Hof.
  - destruct (N.leb_spec (Z.to_N (z mod 256)) 255); [|lia].
    injection Hof as ->. lia.
  - destruct (N.leb_spec (Z.to_N (z mod 256)) 255); [done|lia].
Qed.

Lemma byte_of_to_Z (b : byte) : byte_of_Z (byte_to_Z b) = b.
Proof.
  unfold byte_of_Z. rewrite Z.mod_small by apply byte_to_Z_range.
  unfold byte_to_Z. by rewrite N2Z.id, Byte.of_to_N.
Qed.

Lemma be_bytes_length (n : nat) (z : Z) : length (be_bytes n z) = n.
Proof. induction n as [|n IH]; [done|]. cbn [be_bytes length]. by rewrite IH. Qed.

Lemma le_bytes_length (n : nat) (z : Z) : length (le_bytes n z) = n.
Proof. unfold le_bytes. by rewrite length_map, length_seq. Qed.

Lemma mod_recombine (z : Z) (k : nat) :
  z mod 256 ^ Z.of_nat k + 256 ^ Z.of_nat k * ((z / 256 ^ Z.of_nat k) mod 256) =
  z mod 256 ^ Z.of_nat (S k).
Proof.
  rewrite Nat2Z.inj_succ, Z.pow_succ_r by lia.
  rewrite (Z.mul_comm 256). symmetry. apply Z.rem_mul_r; lia.
Qed.

Lemma shiftr_bytes (z : Z) (k : nat) :
  Z.shiftr z (8 * Z.of_nat k) = z / 256 ^ Z.of_nat k.
Proof.
  rewrite Z.shiftr_div_pow2 by lia. f_equal.
  change 256 with (2 ^ 8). rewrite <- Z.pow_mul_r by lia. done.
Qed.

Lemma be_value_from (n : nat) (z acc : Z) :
  fold_left (fun acc b => acc * 256 + byte_to_Z b) (be_bytes n z) acc =
  acc * 256 ^ Z.of_nat n + z mod 256 ^ Z.of_nat n.
Proof.
  revert acc. induction n as [|n IH]; intros acc.
  - cbn. rewrite Z.mod_1_r. lia.
  - cbn [be_bytes fold_left]. rewrite IH, byte_to_of_Z, shiftr_bytes, <- mod_recombine.
    rewrite Nat2Z.inj_succ, Z.pow_succ_r by lia. lia.
Qed.

Lemma be_value_be_bytes (n : nat) (z : Z) :
  be_value (be_bytes n z) = z mod 2 ^ (8 * Z.of_nat n).
Proof.
  unfold be_value. rewrite be_value_from, Z.mul_0_l, Z.add_0_l.
  change 256 with (2 ^ 8). by rewrite <- Z.pow_mul_r by lia.
Qed.

Lemma be_value_range (l : bytes) : 0 <= be_value l < 256 ^ Z.of_nat (length l).
Proof.
  unfold be_value.
  assert (H : forall acc k, 0 <= acc < 256 ^ Z.of_nat k ->
            0 <= fold_left (fun acc b => acc * 256 + byte_to_Z b) l acc
              < 256 ^ Z.of_nat (k + length l)).
  { induction l as [|b l IH]; intros acc k Hacc; cbn [fold_left length].
    - by rewrite Nat.add_0_r.
    - replace (k + S (length l))%nat with (S k + length l)%nat by lia.
      apply IH. pose proof (byte_to_Z_range b).
      rewrite Nat2Z.inj_succ, Z.pow_succ_r by lia. lia. }
  apply (H 0 0%nat). cbn. lia.
Qed.

Lemma big_Bytes_length (x : Z) :
  x ≠ 0 -> length (big_Bytes x) = Z.to_nat (Z.log2 (Z.abs x) / 8 + 1).
Proof.
  intros Hx. unfold big_Bytes. destruct (Z.eqb_spec (Z.abs x) 0); [lia|].
  apply be_bytes_length.
Qed.

Lemma big_Bytes_zero : big_Bytes 0 = [].
Proof. reflexivity. Qed.

(** [Bytes] writes no more bytes than the number needs. *)
Lemma big_Bytes_short (x : Z) (n : nat) :
  Z.abs x < 2 ^ (8 * Z.of_nat n) -> (length (big_Bytes x) <= n)%nat.
Proof.
  intros Hlt. destruct (decide (x = 0)) as [->|Hx]; [rewrite big_Bytes_zero; cbn; lia|].
  rewrite big_Bytes_length by done.
  assert (Hlog : Z.log2 (Z.abs x) < 8 * Z.of_nat n) by (apply Z.log2_lt_pow2; lia).
  assert (Z.log2 (Z.abs x) / 8 < Z.of_nat n) by (apply Z.div_lt_upper_bound; lia).
  pose proof (Z.log2_nonneg (Z.abs x)).
  assert (0 <= Z.log2 (Z.abs x) / 8) by (apply Z.div_pos; lia).
  lia.
Qed.

(** A number with its top byte in use is written on exactly that many
    bytes. *)
Lemma big_Bytes_full (x : Z) (n : nat) :
  2 ^ (8 * Z.of_nat n) <= x < 2 ^ (8 * Z.of_nat (S n)) ->
  big_Bytes x = be_bytes (S n) x.
Proof.
  intros [Hlo Hhi].
  assert (0 < x) by (pose proof (Z.pow_pos_nonneg 2 (8 * Z.of_nat n)); lia).
  unfold big_Bytes. rewrite Z.abs_eq by lia.
  destruct (Z.eqb_spec x 0); [lia|]. f_equal.
  assert (Hlog1 : 8 * Z.of_nat n <= Z.log2 x) by (apply Z.log2_le_pow2; lia).
  assert (Hlog2 : Z.log2 x < 8 * Z.of_nat (S n)) by (apply Z.log2_lt_pow2; lia).
  assert (Z.log2 x / 8 = Z.of_nat n); [|lia].
  symmetry. apply Z.div_unique with (r := Z.log2 x - 8 * Z.of_nat n); lia.
Qed.

Lemma big_SetBytes_Bytes (x : Z) : big_SetBytes (big_Bytes x) = Z.abs x.
Proof.
  unfold big_SetBytes, big_Bytes. destruct (Z.eqb_spec (Z.abs x) 0) as [->|Hx]; [done|].
  rewrite be_value_be_bytes. apply Z.mod_small.
  assert (0 < Z.abs x) by lia.
  pose proof (Z.log2_nonneg (Z.abs x)).
  assert (0 <= Z.log2 (Z.abs x) / 8) by (apply Z.div_pos; lia).
  split; [lia|]. apply Z.log2_lt_pow2; [done|].
  rewrite Z2Nat.id by lia.
  pose proof (Z.mod_pos_bound (Z.log2 (Z.abs x)) 8 eq_refl).
  pose proof (Z.div_mod (Z.log2 (Z.abs x)) 8). lia.
Qed.

Lemma le_value_snoc (l : bytes) (b : byte) :
  le_value (l ++ [b]) = le_value l + byte_to_Z b * 256 ^ Z.of_nat (length l).
Proof.
  induction l as [|b' l IH]; cbn [app le_value fold_right length].
  - cbn. lia.
  - fold (le_value (l ++ [b])). fold (le_value l).
    rewrite IH, Nat2Z.inj_succ, Z.pow_succ_r by lia. lia.
Qed.

Lemma le_value_range (l : bytes) : 0 <= le_value l < 256 ^ Z.of_nat (length l).
Proof.
  induction l as [|b l IH]; cbn [le_value fold_right length]; [cbn; lia|].
  fold (le_value l). pose proof (byte_to_Z_range b).
  rewrite Nat2Z.inj_succ, Z.pow_succ_r by lia. lia.
Qed.

Lemma le_bytes_S (n : nat) (z : Z) :
  le_bytes (S n) z = le_bytes n z ++ [byte_of_Z (Z.shiftr z (8 * Z.of_nat n))].
Proof. unfold le_bytes. by rewrite seq_S, map_app. Qed.

Lemma le_value_le_bytes (n : nat) (z : Z) :
  le_value (le_bytes n z) = z mod 2 ^ (8 * Z.of_nat n).
Proof.
  replace (2 ^ (8 * Z.of_nat n)) with (256 ^ Z.of_nat n)
    by (change 256 with (2 ^ 8); by rewrite <- Z.pow_mul_r by lia).
  induction n as [|n IH].
  - cbn. by rewrite Z.mod_1_r.
  - rewrite le_bytes_S, le_value_snoc, IH, le_bytes_length, byte_to_of_Z, shiftr_bytes.
    rewrite <- mod_recombine. lia.
Qed.

(** Bits set in disjoint ranges add up. *)
Lemma lor_shifted_byte (x b : Z) (k : nat) :
  0 <= x < 256 ^ Z.of_nat k -> 0 <= b ->
  Z.lor x (Z.shiftl b (8 * Z.of_nat k)) = x + b * 256 ^ Z.of_nat k.
Proof.
  intros Hx Hb. rewrite Z.shiftl_mul_pow2 by lia.
  replace (2 ^ (8 * Z.of_nat k)) with (256 ^ Z.of_nat k)
    by (change 256 with (2 ^ 8); by rewrite <- Z.pow_mul_r by lia).
  symmetry. apply Z.add_nocarry_lor. apply Z.bits_inj'. intros i Hi.
  rewrite Z.land_spec, Z.bits_0.
  destruct (Z.lt_ge_cases i (8 * Z.of_nat k)) as [Hlow|Hhigh].
  - replace (256 ^ Z.of_nat k) with (2 ^ (8 * Z.of_nat k))
      by (change 256 with (2 ^ 8); by rewrite <- Z.pow_mul_r by lia).
    rewrite Z.mul_pow2_bits_low by done. apply andb_false_r.
  - assert (Z.testbit x i = false) as ->; [|done].
    destruct (decide (x = 0)) as [->|Hx0]; [apply Z.bits_0|].
    apply Z.bits_above_log2; [lia|].
    assert (Z.log2 x < 8 * Z.of_nat k); [|lia].
    apply Z.log2_lt_pow2; [lia|].
    change 256 with (2 ^ 8) in Hx. rewrite <- Z.pow_mul_r in Hx by lia. lia.
Qed.

(** ** Slices and little-endian reads *)

Lemma slice_spec (data : bytes) (lo hi : nat) :
  (lo <= hi)%nat -> (hi <= length data)%nat ->
  slice data lo hi = Ok (firstn (hi - lo) (skipn lo data)).
Proof.
  intros Hlo Hhi. unfold slice.
  destruct (Nat.leb_spec lo hi); [|lia]. destruct (Nat.leb_spec hi (length data)); [done|lia].
Qed.

Lemma slice_middle (pre x post : bytes) (lo hi : nat) :
  lo = length pre -> hi = (lo + length x)%nat ->
  slice (pre ++ x ++ post) lo hi = Ok x.
Proof.
  intros -> ->. rewrite slice_spec by (rewrite ?length_app; lia).
  rewrite drop_app_length. f_equal.
  replace (length pre + length x - length pre)%nat with (length x) by lia.
  apply take_app_length.
Qed.

Lemma read_le_S (n : nat) (data : bytes) (offset : nat) :
  read_le (S n) data offset =
  x ← read_le n data offset;
  b ← index data (offset + n);
  Ok (Z.lor x (Z.shiftl (byte_to_Z b) (8 * Z.of_nat n))).
Proof.
  unfold read_le. rewrite seq_S, foldM_app. cbn [Nat.add foldM].
  destruct (foldM _ (seq 0 n) 0) as [x| |]; [|done..]. cbn.
  by destruct (index data (offset + n)).
Qed.

(** Within bounds the loop reads the little-endian number. *)
Lemma read_le_spec (n : nat) (data : bytes) (offset : nat) :
  (offset + n <= length data)%nat ->
  read_le n data offset = Ok (le_value (firstn n (skipn offset data))).
Proof.
  intros Hlen. induction n as [|n IH]; [done|].
  rewrite read_le_S, IH by lia. cbn -[index Z.lor Z.shiftl le_value Z.mul].
  unfold index. destruct (_ !! _) as [b|] eqn:Hb;
    [|apply lookup_ge_None in Hb; lia].
  cbn -[Z.lor Z.shiftl le_value Z.mul].
  assert (Hb' : skipn offset data !! n = Some b) by (by rewrite lookup_drop).
  rewrite (take_S_r _ _ _ Hb'), le_value_snoc, length_take, length_drop.
  replace (n `min` (length data - offset))%nat with n by lia.
  f_equal. apply lor_shifted_byte; [|apply byte_to_Z_range].
  pose proof (le_value_range (take n (skipn offset data))) as Hr.
  rewrite length_take, length_drop in Hr.
  by replace (n `min` (length data - offset))%nat with n in Hr by lia.
Qed.

Lemma read_le_middle (n : nat) (pre post : bytes) (z : Z) (offset : nat) :
  offset = length pre ->
  read_le n (pre ++ le_bytes n z ++ post) offset = Ok (z mod 2 ^ (8 * Z.of_nat n)).
Proof.
  intros ->. rewrite read_le_spec by (rewrite !length_app, le_bytes_length; lia).
  rewrite drop_app_length.
  rewrite <- (le_bytes_length n z) at 1. rewrite take_app_length.
  by rewrite le_value_le_bytes.
Qed.

(** ** Serialization of a PHT *)

Lemma slice_prefix (x post : bytes) (hi : nat) :
  hi = length x -> slice (x ++ post) 0 hi = Ok x.
Proof. intros ->. apply (slice_middle [] x post); done. Qed.

Lemma PHT_Serialize_bytes (pht : PHTTransaction) :
  PHT_Serialize pht =
  Ok (Address_Bytes (pht_Sender pht) ++ big_Bytes (pht_GasPrice pht) ++
      pht_Commitment pht ++ pht_Nonce pht ++ le_bytes 8 (pht_Timestamp pht)).
Proof. unfold PHT_Serialize. cbn [app]. by rewrite <- !app_assoc. Qed.

(** X10. [PHTTransaction.Deserialize] never panics. On fewer than 124
    bytes it returns the error insufficient data; otherwise it succeeds,
    reads the commitment and the nonce at the offsets 52 and 84, a sender
    below 2^160, a gas price below 2^256 and a time stamp below 2^64, and
    keeps the hidden fields and the transaction hash of the receiver. *)
Theorem PHT_Deserialize_never_panics (pht : PHTTransaction) (data : bytes) :
  match PHT_Deserialize pht data with
  | Err e => e = "insufficient data"%string /\ (length data < 124)%nat
  | Panic _ => False
  | Ok pht' =>
      (124 <= length data)%nat /\
      0 <= pht_Sender pht' < 2 ^ 160 /\
      0 <= pht_GasPrice pht' < 2 ^ 256 /\
      pht_Commitment pht' = firstn 32 (skipn 52 data) /\
      pht_Nonce pht' = firstn 32 (skipn 84 data) /\
      0 <= pht_Timestamp pht' < 2 ^ 64 /\
      with_visible_of pht' pht = pht'
  end.
Proof.
  unfold PHT_Deserialize.
  destruct (Nat.ltb_spec (length data) (20 + 32 + 32 + 32 + 8)) as [Hshort|Hlong];
    [split; [done|lia]|].
  rewrite !slice_spec by lia. cbn [mbind result_bind rbind Nat.add].
  rewrite read_le_spec by (cbn; lia). cbn [mbind result_bind rbind Nat.add].
  cbn [pht_Sender pht_GasPrice pht_Commitment pht_Nonce pht_Timestamp].
  split; [cbn in Hlong; lia|].
  split; [apply Z.mod_pos_bound; done|].
  split.
  { pose proof (be_value_range (firstn (32 - 0) (skipn 20 data))) as Hr.
    unfold big_SetBytes. rewrite length_take, length_drop in Hr.
    replace (Z.of_nat ((32 - 0) `min` (length data - 20))) with 32 in Hr by lia.
    cbn [Nat.sub]. change (2 ^ 256) with (256 ^ 32). exact Hr. }
  split; [done|]. split; [done|].
  split; [|done].
  pose proof (le_value_range (firstn 8 (skipn 116 data))) as Hr.
  rewrite length_take, length_drop in Hr.
  replace (Z.of_nat (8 `min` (length data - 116))) with 8 in Hr by lia.
  change (2 ^ 64) with (256 ^ 8). exact Hr.
Qed.

(** X11. Round trip of a PHT whose gas price occupies exactly 32 bytes and
    whose commitment and nonce have 32 bytes each: [Serialize] writes 124
    bytes, and [Deserialize] reads the five visible fields back into any
    receiver. *)
Theorem PHT_roundtrip (pht r : PHTTransaction)
    (Hsender : 0 <= pht_Sender pht < 2 ^ 160)
    (Hgas : 2 ^ 248 <= pht_GasPrice pht < 2 ^ 256)
    (Hcommitment : length (pht_Commitment pht) = 32%nat)
    (Hnonce : length (pht_Nonce pht) = 32%nat)
    (Htimestamp : 0 <= pht_Timestamp pht < 2 ^ 64) :
  exists data,
    PHT_Serialize pht = Ok data /\ length data = 124%nat /\
    PHT_Deserialize r data = Ok (with_visible_of pht r).
Proof.
  eexists. split; [apply PHT_Serialize_bytes|].
  rewrite (big_Bytes_full _ 31) by (cbn; lia).
  set (A := Address_Bytes (pht_Sender pht)).
  set (G := be_bytes 32 (pht_GasPrice pht)).
  set (T := le_bytes 8 (pht_Timestamp pht)).
  assert (HA : length A = 20%nat) by apply be_bytes_length.
  assert (HG : length G = 32%nat) by apply be_bytes_length.
  assert (HT : length T = 8%nat) by apply le_bytes_length.
  split; [rewrite !length_app; lia|].
  unfold PHT_Deserialize.
  destruct (Nat.ltb_spec (length (A ++ G ++ pht_Commitment pht ++ pht_Nonce pht ++ T))
              (20 + 32 + 32 + 32 + 8)) as [Hshort|_];
    [rewrite !length_app in Hshort; lia|].
  cbn [Nat.add].
  rewrite (slice_prefix A _ 20) by lia. cbn [mbind result_bind rbind].
  rewrite (slice_middle A G _ 20 52) by lia. cbn [mbind result_bind rbind].
  rewrite (app_assoc A G), (slice_middle (A ++ G) (pht_Commitment pht) _ 52 84)
    by (rewrite ?length_app; lia). cbn [mbind result_bind rbind].
  rewrite (app_assoc (A ++ G)),
    (slice_middle ((A ++ G) ++ pht_Commitment pht) (pht_Nonce pht) _ 84 116)
    by (rewrite ?length_app; lia). cbn [mbind result_bind rbind].
  rewrite (app_assoc _ (pht_Nonce pht)).
  rewrite <- (app_nil_r T). unfold T. rewrite (read_le_middle 8 _ [])
    by (rewrite ?length_app; lia). cbn [mbind result_bind rbind].
  unfold with_visible_of. f_equal. f_equal.
  - unfold BytesToAddress, A, Address_Bytes. rewrite be_value_be_bytes.
    change (2 ^ (8 * Z.of_nat 20)) with (2 ^ 160). rewrite Z.mod_mod by done.
    by apply Z.mod_small.
  - unfold big_SetBytes, G. rewrite be_value_be_bytes. apply Z.mod_small.
    change (2 ^ (8 * Z.of_nat 32)) with (2 ^ 256). lia.
  - by apply Z.mod_small.
Qed.

Lemma PHT_roundtrip_witness :
  (0 <= pht_Sender wide_pht < 2 ^ 160) /\
  (2 ^ 248 <= pht_GasPrice wide_pht < 2 ^ 256) /\
  length (pht_Commitment wide_pht) = 32%nat /\
  length (pht_Nonce wide_pht) = 32%nat /\
  (0 <= pht_Timestamp wide_pht < 2 ^ 64) /\
  exists data,
    PHT_Serialize wide_pht = Ok data /\ length data = 124%nat /\
    PHT_Deserialize (max_stamped 1) data = Ok (with_visible_of wide_pht (max_stamped 1)).
Proof.
  split; [cbn; lia|]. split; [cbn; lia|]. split; [reflexivity|]. split; [reflexivity|].
  split; [cbn; lia|].
  apply (PHT_roundtrip wide_pht (max_stamped 1)); [cbn; lia|cbn; lia|reflexivity..|cbn; lia].
Defined.

(** ** The size of a commitment *)

Lemma sha256_value_nonneg (msg : bytes) : 0 <= big_SetBytes (sha256 msg).
Proof. unfold big_SetBytes. apply be_value_range. Qed.

Lemma commitment_of_length (msg : bytes) :
  (1 <= length (commitment_of msg) <= 32)%nat.
Proof.
  split.
  - pose proof (commitment_nonempty msg) as Hne.
    destruct (commitment_of msg); [done|cbn; lia].
  - unfold commitment_of. apply big_Bytes_short.
    rewrite big_Exp_spec by apply sha256_value_nonneg.
    pose proof (Z.mod_pos_bound
      (PedersenCommitment.generator ^ big_SetBytes (sha256 msg))
      PedersenCommitment.modulus eq_refl) as Hr.
    assert (PedersenCommitment.modulus < 2 ^ (8 * Z.of_nat 32)) by reflexivity.
    lia.
Qed.

(** X12. [Commit] fails exactly on the empty field list, and a commitment
    has between 1 and 32 bytes. *)
Theorem Commit_length (data : list bytes) :
  match PedersenCommitment.Commit data with
  | Ok commitment => data ≠ [] /\ (1 <= length commitment <= 32)%nat
  | Err e => data = [] /\ e = "no data to commit"%string
  | Panic _ => False
  end.
Proof.
  destruct data as [|d data]; [done|].
  rewrite Commit_concat by done. split; [done|]. apply commitment_of_length.
Qed.

Lemma PHT_Deserialize_short (pht r : PHTTransaction) :
  Z.abs (pht_GasPrice pht) < 2 ^ 248 ->
  (length (pht_Commitment pht) <= 32)%nat -> (length (pht_Nonce pht) <= 32)%nat ->
  exists data,
    PHT_Serialize pht = Ok data /\ (length data < 124)%nat /\
    PHT_Deserialize r data = Err "insufficient data".
Proof.
  intros Hgas Hc Hn. eexists. split; [apply PHT_Serialize_bytes|].
  pose proof (big_Bytes_short (pht_GasPrice pht) 31 Hgas) as Hg.
  assert (Hlen : (length (Address_Bytes (pht_Sender pht) ++ big_Bytes (pht_GasPrice pht) ++
                    pht_Commitment pht ++ pht_Nonce pht ++
                    le_bytes 8 (pht_Timestamp pht)) < 124)%nat).
  { unfold Address_Bytes. rewrite !length_app, be_bytes_length, le_bytes_length. lia. }
  split; [done|]. unfold PHT_Deserialize.
  destruct (Nat.ltb_spec (length (Address_Bytes (pht_Sender pht) ++
              big_Bytes (pht_GasPrice pht) ++ pht_Commitment pht ++ pht_Nonce pht ++
              le_bytes 8 (pht_Timestamp pht))) (20 + 32 + 32 + 32 + 8)) as [|Hge]; [done|].
  change (20 + 32 + 32 + 32 + 8)%nat with 124%nat in Hge. lia.
Qed.

(** X13. A PHT that [CreatePHT] makes under the Pedersen scheme from a
    transaction with a gas price below 2^248 and a nonce of at most 32 bytes
    is not read back: [Serialize] writes the gas price without leading
    zeros, fewer than 124 bytes in all, and [Deserialize] returns the error
    insufficient data. *)
Theorem created_PHT_is_not_read_back (now : Z) (nonce : bytes) (tx : Transaction)
    (r : PHTTransaction)
    (Hgas : Z.abs (tx_GasPrice tx) < 2 ^ 248)
    (Hnonce : (length nonce <= 32)%nat) :
  match CreatePHT (CS := NewPedersenCommitment) now nonce tx with
  | Ok pht =>
      exists data,
        PHT_Serialize pht = Ok data /\ (length data < 124)%nat /\
        PHT_Deserialize r data = Err "insufficient data"
  | Err _ | Panic _ => True
  end.
Proof.
  unfold CreatePHT. destruct (tx_Sender tx) as [sender| |]; [|done..].
  cbn [mbind result_bind rbind cs_Commit NewPedersenCommitment].
  rewrite Commit_concat by done. cbn [mbind result_bind rbind].
  apply PHT_Deserialize_short; cbn [pht_GasPrice pht_Commitment pht_Nonce]; [done| |done].
  apply commitment_of_length.
Qed.

Lemma created_PHT_is_not_read_back_witness :
  Z.abs (tx_GasPrice tx_a) < 2 ^ 248 /\
  (length (example_readings 0).2 <= 32)%nat /\
  match CreatePHT (CS := NewPedersenCommitment)
          (example_readings 0).1 (example_readings 0).2 tx_a with
  | Ok pht =>
      exists data,
        PHT_Serialize pht = Ok data /\ (length data < 124)%nat /\
        PHT_Deserialize (max_stamped 1) data = Err "insufficient data"
  | Err _ | Panic _ => True
  end.
Proof.
  split; [cbn; lia|]. split; [cbn; lia|].
  apply (created_PHT_is_not_read_back _ _ tx_a (max_stamped 1)); [cbn; lia|cbn; lia].
Defined.

(** ** Serialization of an MT *)

Lemma slice_panics (data : bytes) (lo hi : nat) :
  (length data < hi)%nat -> slice data lo hi = Panic "slice bounds out of range".
Proof.
  intros Hhi. unfold slice. destruct (Nat.leb_spec hi (length data)); [lia|].
  by rewrite andb_false_r.
Qed.

Lemma index_spec (data : bytes) (i : nat) :
  (i < length data)%nat -> exists b, index data i = Ok b /\ skipn i data !! 0%nat = Some b.
Proof.
  intros Hi. unfold index. destruct (_ !! _) as [b|] eqn:Hb;
    [|apply lookup_ge_None in Hb; lia].
  exists b. split; [done|]. by rewrite lookup_drop, Nat.add_0_r.
Qed.

Lemma index_panics (data : bytes) (i : nat) :
  (length data <= i)%nat -> index data i = Panic "index out of range".
Proof.
  intros Hi. unfold index. destruct (_ !! _) as [b|] eqn:Hb; [|done].
  apply lookup_lt_Some in Hb. lia.
Qed.

Lemma read_le_panics (n : nat) (data : bytes) (offset : nat) :
  (length data < offset + S n)%nat ->
  read_le (S n) data offset = Panic "index out of range".
Proof.
  intros Hlen. induction n as [|n IH].
  - rewrite read_le_S. cbn -[index]. rewrite index_panics by lia. done.
  - rewrite read_le_S. destruct (le_lt_dec (offset + S n) (length data)) as [Hin|Hout].
    + rewrite read_le_spec by done. cbn -[index Z.lor Z.shiftl Z.mul le_value].
      rewrite index_panics by lia. done.
    + by rewrite IH.
Qed.

(** X14. The three outcomes of [MTTransaction.Deserialize]: the error
    insufficient data exactly on fewer than 109 bytes; a panic exactly when
    the data has at least 109 bytes and fewer than 109 plus the two lengths
    it declares; success otherwise, with the call data and the proof cut at
    the declared lengths and the transaction hash of the receiver kept. *)
Theorem MT_Deserialize_outcome (mt : MTTransaction) (data : bytes) :
  let callDataLen := declared_callDataLen data in
  let proofLen := declared_proofLen data in
  match MT_Deserialize mt data with
  | Err e => e = "insufficient data"%string /\ (length data < 109)%nat
  | Panic _ => (109 <= length data < 109 + callDataLen + proofLen)%nat
  | Ok mt' =>
      (109 + callDataLen + proofLen <= length data)%nat /\
      mt_CallData mt' = firstn callDataLen (skipn 56 data) /\
      mt_Proof mt' = firstn proofLen (skipn (101 + callDataLen) data) /\
      mt_TxHash mt' = mt_TxHash mt
  end.
Proof.
  cbv zeta. unfold declared_proofLen, declared_callDataLen, MT_Deserialize.
  set (callDataLen := Z.to_nat (le_value (firstn 4 (skipn 52 data)))).
  destruct (Nat.ltb_spec (length data) (20 + 32 + 4 + 1 + 8 + 32 + 4 + 8)) as [Hshort|Hlong];
    [split; [done|exact Hshort]|].
  change (20 + 32 + 4 + 1 + 8 + 32 + 4 + 8)%nat with 109%nat in Hlong.
  change (0 + 20 + 32 + 4)%nat with 56%nat. change (0 + 20 + 32)%nat with 52%nat.
  change (0 + 20)%nat with 20%nat.
  rewrite (slice_spec data 0 20), (slice_spec data 20 52) by lia.
  cbn [mbind result_bind rbind].
  rewrite (read_le_spec 4 data 52) by lia. cbn [mbind result_bind rbind].
  fold callDataLen.
  destruct (le_lt_dec (56 + callDataLen) (length data)) as [H1|H1];
    [|rewrite (slice_panics data 56 (56 + callDataLen)) by lia; cbn; lia].
  rewrite (slice_spec data 56 (56 + callDataLen)) by lia. cbn [mbind result_bind rbind].
  destruct (le_lt_dec (length data) (56 + callDataLen)) as [H2|H2];
    [rewrite (index_panics data (56 + callDataLen)) by lia; cbn; lia|].
  destruct (index_spec data (56 + callDataLen) H2) as (b & -> & _).
  cbn [mbind result_bind rbind].
  destruct (le_lt_dec (56 + callDataLen + 1 + 8) (length data)) as [H3|H3];
    [|rewrite (read_le_panics 7 data (56 + callDataLen + 1)) by lia; cbn; lia].
  rewrite (read_le_spec 8 data (56 + callDataLen + 1)) by lia. cbn [mbind result_bind rbind].
  destruct (le_lt_dec (56 + callDataLen + 1 + 8 + 32) (length data)) as [H4|H4];
    [|rewrite (slice_panics data (56 + callDataLen + 1 + 8)) by lia; cbn; lia].
  rewrite (slice_spec data (56 + callDataLen + 1 + 8)) by lia. cbn [mbind result_bind rbind].
  destruct (le_lt_dec (56 + callDataLen + 1 + 8 + 32 + 4) (length data)) as [H5|H5];
    [|rewrite (read_le_panics 3 data (56 + callDataLen + 1 + 8 + 32)) by lia; cbn; lia].
  rewrite (read_le_spec 4 data (56 + callDataLen + 1 + 8 + 32)) by lia.
  cbn [mbind result_bind rbind].
  replace (97 + callDataLen)%nat with (56 + callDataLen + 1 + 8 + 32)%nat by lia.
  set (proofLen := Z.to_nat (le_value (firstn 4 (skipn (56 + callDataLen + 1 + 8 + 32) data)))).
  destruct (le_lt_dec (56 + callDataLen + 1 + 8 + 32 + 4 + proofLen) (length data)) as [H6|H6];
    [|rewrite (slice_panics data (56 + callDataLen + 1 + 8 + 32 + 4)) by lia; cbn; lia].
  rewrite (slice_spec data (56 + callDataLen + 1 + 8 + 32 + 4)) by lia.
  cbn [mbind result_bind rbind].
  destruct (le_lt_dec (56 + callDataLen + 1 + 8 + 32 + 4 + proofLen + 8) (length data))
    as [H7|H7];
    [|rewrite (read_le_panics 7 data (56 + callDataLen + 1 + 8 + 32 + 4 + proofLen)) by lia;
      cbn; lia].
  rewrite (read_le_spec 8 data (56 + callDataLen + 1 + 8 + 32 + 4 + proofLen)) by lia.
  cbn [mbind result_bind rbind mt_CallData mt_Proof mt_TxHash].
  split; [lia|]. split.
  - f_equal. lia.
  - split; [|done]. f_equal; [lia|f_equal; lia].
Qed.

Lemma slice_at (data pre x post : bytes) (lo hi : nat) :
  data = pre ++ x ++ post -> lo = length pre -> hi = (lo + length x)%nat ->
  slice data lo hi = Ok x.
Proof. intros ->. apply slice_middle. Qed.

Lemma read_le_at (n : nat) (data pre post : bytes) (z : Z) (offset : nat) :
  data = pre ++ le_bytes n z ++ post -> offset = length pre ->
  0 <= z < 2 ^ (8 * Z.of_nat n) ->
  read_le n data offset = Ok z.
Proof.
  intros -> -> Hz. rewrite read_le_middle by done. f_equal. by apply Z.mod_small.
Qed.

Lemma index_at (data pre post : bytes) (b : byte) (i : nat) :
  data = pre ++ [b] ++ post -> i = length pre -> index data i = Ok b.
Proof.
  intros -> ->. unfold index.
  by rewrite lookup_app_r, Nat.sub_diag by lia.
Qed.

Lemma MT_Serialize_bytes (mt : MTTransaction) :
  MT_Serialize mt =
  Ok (Address_Bytes (mt_Recipient mt) ++ big_Bytes (mt_Value mt) ++
      le_bytes 4 (Z.of_nat (length (mt_CallData mt))) ++ mt_CallData mt ++
      [byte_of_Z (mt_TxType mt)] ++ le_bytes 8 (mt_GasLimit mt) ++
      Hash_Bytes (mt_PHTHash mt) ++
      le_bytes 4 (Z.of_nat (length (mt_Proof mt))) ++ mt_Proof mt ++
      le_bytes 8 (mt_Timestamp mt)).
Proof. unfold MT_Serialize. cbn [app]. by rewrite <- !app_assoc. Qed.

(** X15. Round trip of an MT whose value occupies exactly 32 bytes, with
    every field in the range of its type and call data and proof shorter
    than 2^32 bytes: [Serialize] writes 109 bytes plus the call data and the
    proof, and [Deserialize] reads every field but the transaction hash back
    into any receiver. *)
Theorem MT_roundtrip (mt r : MTTransaction)
    (Hrecipient : 0 <= mt_Recipient mt < 2 ^ 160)
    (Hvalue : 2 ^ 248 <= mt_Value mt < 2 ^ 256)
    (HcallData : Z.of_nat (length (mt_CallData mt)) < 2 ^ 32)
    (HtxType : 0 <= mt_TxType mt < 256)
    (HgasLimit : 0 <= mt_GasLimit mt < 2 ^ 64)
    (HphtHash : 0 <= mt_PHTHash mt < 2 ^ 256)
    (Hproof : Z.of_nat (length (mt_Proof mt)) < 2 ^ 32)
    (Htimestamp : 0 <= mt_Timestamp mt < 2 ^ 64) :
  exists data,
    MT_Serialize mt = Ok data /\
    length data = (109 + length (mt_CallData mt) + length (mt_Proof mt))%nat /\
    MT_Deserialize r data = Ok (with_fields_of mt r).
Proof.
  eexists. split; [apply MT_Serialize_bytes|].
  rewrite (big_Bytes_full _ 31) by (cbn; lia).
  set (R := Address_Bytes (mt_Recipient mt)).
  set (V := be_bytes 32 (mt_Value mt)).
  set (L1 := le_bytes 4 (Z.of_nat (length (mt_CallData mt)))).
  set (CD := mt_CallData mt) in *.
  set (GL := le_bytes 8 (mt_GasLimit mt)).
  set (H := Hash_Bytes (mt_PHTHash mt)).
  set (L2 := le_bytes 4 (Z.of_nat (length (mt_Proof mt)))).
  set (P := mt_Proof mt) in *.
  set (T := le_bytes 8 (mt_Timestamp mt)).
  assert (HR : length R = 20%nat) by apply be_bytes_length.
  assert (HV : length V = 32%nat) by apply be_bytes_length.
  assert (HL1 : length L1 = 4%nat) by apply le_bytes_length.
  assert (HGL : length GL = 8%nat) by apply le_bytes_length.
  assert (HH : length H = 32%nat) by apply be_bytes_length.
  assert (HL2 : length L2 = 4%nat) by apply le_bytes_length.
  assert (HT : length T = 8%nat) by apply le_bytes_length.
  set (data := R ++ V ++ L1 ++ CD ++ [byte_of_Z (mt_TxType mt)] ++ GL ++ H ++ L2 ++ P ++ T).
  assert (Hlen : length data = (109 + length CD + length P)%nat).
  { unfold data. rewrite !length_app. cbn [length]. lia. }
  split; [done|].
  unfold MT_Deserialize.
  destruct (Nat.ltb_spec (length data) (20 + 32 + 4 + 1 + 8 + 32 + 4 + 8)) as [Hshort|_];
    [change (20 + 32 + 4 + 1 + 8 + 32 + 4 + 8)%nat with 109%nat in Hshort; lia|].
  cbv zeta.
  change (0 + 20 + 32 + 4)%nat with 56%nat. change (0 + 20 + 32)%nat with 52%nat.
  change (0 + 20)%nat with 20%nat.
  erewrite (slice_at data [] R _ 0 20); [|reflexivity|done|lia].
  cbn [mbind result_bind rbind].
  erewrite (slice_at data R V _ 20 52); [|reflexivity|lia|lia].
  cbn [mbind result_bind rbind].
  erewrite (read_le_at 4 data (R ++ V) _ (Z.of_nat (length CD)) 52);
    [|unfold data; rewrite <- ?app_assoc; reflexivity|rewrite length_app; lia|cbn; lia].
  cbn [mbind result_bind rbind]. rewrite Nat2Z.id.
  erewrite (slice_at data (R ++ V ++ L1) CD _ 56 (56 + length CD));
    [|unfold data; rewrite <- ?app_assoc; reflexivity|rewrite !length_app; lia|lia].
  cbn [mbind result_bind rbind].
  erewrite (index_at data (R ++ V ++ L1 ++ CD) _ (byte_of_Z (mt_TxType mt)) (56 + length CD));
    [|unfold data; rewrite <- ?app_assoc; reflexivity|rewrite !length_app; lia].
  cbn [mbind result_bind rbind].
  erewrite (read_le_at 8 data (R ++ V ++ L1 ++ CD ++ [byte_of_Z (mt_TxType mt)]) _
             (mt_GasLimit mt) (56 + length CD + 1));
    [|unfold data; rewrite <- ?app_assoc; reflexivity|rewrite !length_app; cbn [length]; lia|cbn; lia].
  cbn [mbind result_bind rbind].
  erewrite (slice_at data (R ++ V ++ L1 ++ CD ++ [byte_of_Z (mt_TxType mt)] ++ GL) H _
             (56 + length CD + 1 + 8) (56 + length CD + 1 + 8 + 32));
    [|unfold data; rewrite <- ?app_assoc; reflexivity|rewrite !length_app; cbn [length]; lia|lia].
  cbn [mbind result_bind rbind].
  erewrite (read_le_at 4 data (R ++ V ++ L1 ++ CD ++ [byte_of_Z (mt_TxType mt)] ++ GL ++ H) _
             (Z.of_nat (length P)) (56 + length CD + 1 + 8 + 32));
    [|unfold data; rewrite <- ?app_assoc; reflexivity|rewrite !length_app; cbn [length]; lia|cbn; lia].
  cbn [mbind result_bind rbind]. rewrite Nat2Z.id.
  erewrite (slice_at data
             (R ++ V ++ L1 ++ CD ++ [byte_of_Z (mt_TxType mt)] ++ GL ++ H ++ L2) P T
             (56 + length CD + 1 + 8 + 32 + 4) (56 + length CD + 1 + 8 + 32 + 4 + length P));
    [|unfold data; rewrite <- ?app_assoc; reflexivity|rewrite !length_app; cbn [length]; lia|lia].
  cbn [mbind result_bind rbind].
  erewrite (read_le_at 8 data
             (R ++ V ++ L1 ++ CD ++ [byte_of_Z (mt_TxType mt)] ++ GL ++ H ++ L2 ++ P) []
             (mt_Timestamp mt) (56 + length CD + 1 + 8 + 32 + 4 + length P));
    [|unfold data; rewrite <- ?app_assoc, ?app_nil_r; reflexivity
     |rewrite !length_app; cbn [length]; lia|cbn; lia].
  cbn [mbind result_bind rbind].
  unfold with_fields_of. f_equal. f_equal.
  - unfold BytesToAddress, R, Address_Bytes. rewrite be_value_be_bytes.
    change (2 ^ (8 * Z.of_nat 20)) with (2 ^ 160). rewrite Z.mod_mod by done.
    by apply Z.mod_small.
  - unfold big_SetBytes, V. rewrite be_value_be_bytes. apply Z.mod_small.
    change (2 ^ (8 * Z.of_nat 32)) with (2 ^ 256). lia.
  - rewrite byte_to_of_Z. by apply Z.mod_small.
  - unfold BytesToHash, H, Hash_Bytes. rewrite be_value_be_bytes.
    change (2 ^ (8 * Z.of_nat 32)) with (2 ^ 256). rewrite Z.mod_mod by done.
    by apply Z.mod_small.
Qed.

Lemma MT_roundtrip_witness :
  (0 <= mt_Recipient wide_mt < 2 ^ 160) /\
  (2 ^ 248 <= mt_Value wide_mt < 2 ^ 256) /\
  Z.of_nat (length (mt_CallData wide_mt)) < 2 ^ 32 /\
  (0 <= mt_TxType wide_mt < 256) /\
  (0 <= mt_GasLimit wide_mt < 2 ^ 64) /\
  (0 <= mt_PHTHash wide_mt < 2 ^ 256) /\
  Z.of_nat (length (mt_Proof wide_mt)) < 2 ^ 32 /\
  (0 <= mt_Timestamp wide_mt < 2 ^ 64) /\
  exists data,
    MT_Serialize wide_mt = Ok data /\
    length data = (109 + length (mt_CallData wide_mt) + length (mt_Proof wide_mt))%nat /\
    MT_Deserialize (reveal 0 [] (max_stamped 1)) data =
    Ok (with_fields_of wide_mt (reveal 0 [] (max_stamped 1))).
Proof.
  repeat (split; [cbn; lia|]).
  apply (MT_roundtrip wide_mt (reveal 0 [] (max_stamped 1))); cbn; lia.
Defined.

(** ** Creating and validating a PHT *)

(** X16. [CreatePHT] under the Pedersen scheme fails only when the sender
    cannot be recovered. The PHT it returns carries a commitment that
    [VerifyCommitment] accepts for the PHT's own hidden fields, and
    [ValidatePHT] rejects it only for an empty nonce, a zero time stamp or a
    gas price that is not positive, tested in that order. *)
Theorem CreatePHT_then_ValidatePHT (now : Z) (nonce : bytes) (tx : Transaction) :
  match CreatePHT (CS := NewPedersenCommitment) now nonce tx with
  | Ok pht =>
      tx_Sender tx = Ok (pht_Sender pht) /\
      (let '(recipient, value, callData, txType, gasLimit) := GetHiddenFields pht in
       VerifyCommitment (CS := NewPedersenCommitment) pht recipient value callData
         txType gasLimit = true) /\
      ValidatePHT (CS := NewPedersenCommitment) pht =
        (if (length nonce =? 0)%nat then Some "missing anti-MEV nonce"%string
         else if to_uint64 now =? 0 then Some "missing timestamp"%string
         else if tx_GasPrice tx <=? 0 then Some "invalid gas price"%string
         else None)
  | Err e => tx_Sender tx = Err e
  | Panic e => tx_Sender tx = Panic e
  end.
Proof.
  unfold CreatePHT. destruct (tx_Sender tx) as [sender| |]; [|done..].
  cbn [mbind result_bind rbind cs_Commit NewPedersenCommitment].
  rewrite Commit_concat by done. cbn [mbind result_bind rbind].
  assert (Hverify : forall recipient value callData txType gasLimit,
    PedersenCommitment.Verify
      (commitment_of (concat (hiddenData recipient value callData txType gasLimit)))
      (hiddenData recipient value callData txType gasLimit) = true).
  { intros. apply Verify_iff. by apply Commit_concat. }
  split; [done|]. split.
  - unfold GetHiddenFields, VerifyCommitment.
    cbn [pht_Recipient pht_Value pht_CallData pht_TxType pht_GasLimit pht_Commitment
         cs_Verify NewPedersenCommitment].
    apply Hverify.
  - unfold ValidatePHT.
    cbn [pht_Recipient pht_Value pht_CallData pht_TxType pht_GasLimit pht_Commitment
         pht_Nonce pht_Timestamp pht_GasPrice cs_Verify NewPedersenCommitment].
    by rewrite Hverify.
Qed.

(** X17. What the commitment leaves open: [VerifyCommitment] under the
    Pedersen scheme gives the same answer for two revealed tuples whose
    value bytes followed by the call data are the same byte string and whose
    gas limits differ by a multiple of 256. *)
Theorem hidden_fields_not_bound (pht : PHTTransaction) (recipient txType gasLimit : Z)
    (value value' : Z) (callData callData' : bytes) (k : Z)
    (Hsame : big_Bytes value ++ callData = big_Bytes value' ++ callData') :
  VerifyCommitment (CS := NewPedersenCommitment) pht recipient value callData
    txType gasLimit =
  VerifyCommitment (CS := NewPedersenCommitment) pht recipient value' callData'
    txType (gasLimit + 256 * k).
Proof.
  unfold VerifyCommitment. cbn [cs_Verify NewPedersenCommitment].
  unfold PedersenCommitment.Verify. rewrite !Commit_concat by done.
  assert (Hbyte : byte_of_Z (gasLimit + 256 * k) = byte_of_Z gasLimit).
  { unfold byte_of_Z. by rewrite Z.mul_comm, Z.mod_add. }
  unfold hiddenData. cbn [concat]. rewrite Hbyte, !app_assoc.
  rewrite <- (app_assoc (Address_Bytes recipient) (big_Bytes value)), Hsame.
  by rewrite !app_assoc.
Qed.

Lemma hidden_fields_not_bound_witness :
  big_Bytes 1 ++ bs [2] = big_Bytes 258 ++ [] /\
  VerifyCommitment (CS := NewPedersenCommitment) wide_pht 0xB0B 1 (bs [2]) 0 21000 =
  VerifyCommitment (CS := NewPedersenCommitment) wide_pht 0xB0B 258 [] 0 (21000 + 256 * 3).
Proof.
  split; [reflexivity|].
  apply (hidden_fields_not_bound wide_pht 0xB0B 0 21000 1 258 (bs [2]) [] 3). reflexivity.
Defined.

(** ** The validator registry *)

Lemma call_keeps_config (c : registry_call) (v : ValidatorManager) :
  vm_MinStake (call c v) = vm_MinStake v /\
  vm_MaxValidators (call c v) = vm_MaxValidators v.
Proof.
  destruct c as [now a s|a|now a s|now a s|now a b]; cbn [call].
  - unfold AddValidator. destruct (s <? vm_MinStake v); [done|].
    by destruct (Z.of_nat (size (validators v)) >=? vm_MaxValidators v).
  - unfold RemoveValidator. by destruct (_ !! _).
  - unfold UpdateStake. by destruct (_ !! _).
  - unfold UpdateReputation. by destruct (_ !! _).
  - unfold UpdateLastBlock. by destruct (_ !! _).
Qed.

Lemma call_keeps_invariant (c : registry_call) (v : ValidatorManager) :
  Z.of_nat (size (validators v)) <= Z.max 0 (vm_MaxValidators v) ->
  map_Forall (registered_well (vm_MinStake v)) (validators v) ->
  Z.of_nat (size (validators (call c v))) <= Z.max 0 (vm_MaxValidators v) /\
  map_Forall (registered_well (vm_MinStake v)) (validators (call c v)).
Proof.
  intros Hsize Hall.
  destruct c as [now a s|a|now a s|now a s|now a b]; cbn [call].
  - unfold AddValidator.
    destruct (Z.ltb_spec s (vm_MinStake v)) as [|Hstake]; [done|].
    destruct (Z.geb_spec (Z.of_nat (size (validators v))) (vm_MaxValidators v)) as [|Hroom];
      [done|].
    cbn [snd validators with_validators]. split.
    + destruct (validators v !! a) eqn:Ha.
      * rewrite map_size_insert_Some by done. done.
      * rewrite map_size_insert_None by done. lia.
    + apply map_Forall_insert_2; [|done].
      split; [done|]. split; [|done]. cbn. by rewrite bool_decide_eq_true_2.
  - unfold RemoveValidator. destruct (validators v !! a) eqn:Ha; [|done].
    cbn [snd validators with_validators]. split.
    + rewrite map_size_delete, Ha. lia.
    + by apply map_Forall_delete.
  - unfold UpdateStake. destruct (validators v !! a) as [val|] eqn:Ha; [|done].
    cbn [snd validators with_validators]. split.
    + by rewrite map_size_insert_Some.
    + apply map_Forall_insert_2; [|done].
      destruct (Hall a val Ha) as (Haddr & _ & Hrep).
      split; [done|]. split; [|done]. cbn.
      destruct (Z.ltb_spec s (vm_MinStake v)).
      * by rewrite bool_decide_eq_false_2 by lia.
      * by rewrite bool_decide_eq_true_2.
  - unfold UpdateReputation. destruct (validators v !! a) as [val|] eqn:Ha; [|done].
    cbn [validators with_validators]. split.
    + by rewrite map_size_insert_Some.
    + apply map_Forall_insert_2; [|done].
      destruct (Hall a val Ha) as (Haddr & Hact & _).
      split; [done|]. split; [done|]. cbn.
      destruct (Z.gtb_spec (to_int64 (v_Reputation val + s)) 1000); [done|].
      destruct (Z.ltb_spec (to_int64 (v_Reputation val + s)) (-1000)); lia.
  - unfold UpdateLastBlock. destruct (validators v !! a) as [val|] eqn:Ha; [|done].
    cbn [validators with_validators]. split.
    + by rewrite map_size_insert_Some.
    + apply map_Forall_insert_2; [|done]. by destruct (Hall a val Ha) as (? & ? & ?).
Qed.

(** X18. Every registry reached from [NewValidatorManager] by calls of
    [AddValidator], [RemoveValidator], [UpdateStake], [UpdateReputation] and
    [UpdateLastBlock] keeps its configuration, holds at most [MaxValidators]
    validators, files every validator under its own address, has a
    validator active exactly when its stake is at least [MinStake], and
    keeps every reputation within [-1000, 1000]; [IsActiveValidator] holds
    exactly of the registered addresses with at least the minimum stake. *)
Theorem registry_invariant (minStake maxValidators : Z) (cs : list registry_call) :
  let v := calls cs (NewValidatorManager minStake maxValidators) in
  vm_MinStake v = minStake /\ vm_MaxValidators v = maxValidators /\
  GetValidatorCount v <= Z.max 0 maxValidators /\
  map_Forall (registered_well minStake) (validators v) /\
  forall address,
    (IsValidator address v = true <-> is_Some (GetValidator address v)) /\
    (IsActiveValidator address v = true <->
     exists validator,
       GetValidator address v = Some validator /\ minStake <= v_Stake validator).
Proof.
  cbv zeta. unfold calls, GetValidatorCount. rewrite <- fold_left_rev_right.
  assert (Hinv : let v := fold_right (fun c v => call c v)
                            (NewValidatorManager minStake maxValidators) (rev cs) in
    vm_MinStake v = minStake /\ vm_MaxValidators v = maxValidators /\
    Z.of_nat (size (validators v)) <= Z.max 0 maxValidators /\
    map_Forall (registered_well minStake) (validators v)).
  { induction (rev cs) as [|c l IH]; cbn [fold_right].
    - split; [done|]. split; [done|]. cbn [NewValidatorManager validators].
      split; [rewrite map_size_empty; lia|]. apply map_Forall_empty.
    - destruct IH as (Hmin & Hmax & Hsize & Hall).
      set (v := fold_right _ _ l) in *.
      destruct (call_keeps_config c v) as [Hmin' Hmax'].
      rewrite Hmin', Hmax'. split; [done|]. split; [done|].
      rewrite <- Hmin, <- Hmax. apply call_keeps_invariant; by rewrite ?Hmin, ?Hmax. }
  cbv zeta in Hinv. destruct Hinv as (Hmin & Hmax & Hsize & Hall).
  set (v := fold_right _ _ (rev cs)) in *.
  split; [done|]. split; [done|]. split; [done|]. split; [done|].
  intros address. unfold IsValidator, IsActiveValidator, GetValidator. split.
  - apply bool_decide_eq_true.
  - destruct (validators v !! address) as [validator|] eqn:Hv.
    + destruct (Hall address validator Hv) as (_ & Hactive & _). rewrite Hactive.
      rewrite bool_decide_eq_true. split.
      * intros Hstake. by exists validator.
      * by intros (validator' & [= <-] & Hstake).
    + split; [done|]. by intros (validator & [=] & _).
Qed.

(** X2. The new reputation after [UpdateReputation], for a registered
    validator with a reputation within [-1000, 1000] and an [int64] score:
    when the sum fits [int64] it is the sum cut to [-1000, 1000]; when the
    sum reaches 2^63 the addition wraps around and the reputation becomes
    -1000; when the sum is below -2^63 it becomes 1000. *)
Theorem UpdateReputation_wraps (now address score : Z) (v : ValidatorManager)
    (validator : Validator)
    (Hregistered : GetValidator address v = Some validator)
    (Hreputation : -1000 <= v_Reputation validator <= 1000)
    (Hscore : - 2 ^ 63 <= score < 2 ^ 63) :
  let sum := v_Reputation validator + score in
  exists reputation,
    GetValidator address (UpdateReputation now address score v) =
      Some (with_reputation reputation now validator) /\
    (2 ^ 63 <= sum -> reputation = -1000) /\
    (sum < - 2 ^ 63 -> reputation = 1000) /\
    (- 2 ^ 63 <= sum < 2 ^ 63 -> reputation = Z.max (-1000) (Z.min 1000 sum)).
Proof.
  cbv zeta. unfold GetValidator in *. unfold UpdateReputation. rewrite Hregistered.
  cbn [validators with_validators]. rewrite lookup_insert_eq.
  eexists. split; [reflexivity|].
  unfold to_int64.
  set (sum := v_Reputation validator + score).
  assert (Hcases : 2 ^ 63 <= sum /\ (sum + 2 ^ 63) mod 2 ^ 64 = sum + 2 ^ 63 - 2 ^ 64 \/
                   sum < - 2 ^ 63 /\ (sum + 2 ^ 63) mod 2 ^ 64 = sum + 2 ^ 63 + 2 ^ 64 \/
                   - 2 ^ 63 <= sum < 2 ^ 63 /\ (sum + 2 ^ 63) mod 2 ^ 64 = sum + 2 ^ 63).
  { destruct (Z_lt_le_dec sum (2 ^ 63)) as [Hlt|Hge].
    - destruct (Z_lt_le_dec sum (- 2 ^ 63)) as [Hneg|Hpos].
      + right. left. split; [done|].
        symmetry. apply (Z.mod_unique _ _ (-1)); unfold sum in *; lia.
      + right. right. split; [lia|]. apply Z.mod_small. lia.
    - left. split; [done|].
      symmetry. apply (Z.mod_unique _ _ 1); unfold sum in *; lia. }
  destruct Hcases as [[Hhi ->]|[[Hlo ->]|[Hin ->]]].
  - destruct (Z.gtb_spec (sum + 2 ^ 63 - 2 ^ 64 - 2 ^ 63) 1000); [unfold sum in *; lia|].
    destruct (Z.ltb_spec (sum + 2 ^ 63 - 2 ^ 64 - 2 ^ 63) (-1000)); [|unfold sum in *; lia].
    split; [done|]. split; lia.
  - destruct (Z.gtb_spec (sum + 2 ^ 63 + 2 ^ 64 - 2 ^ 63) 1000); [|unfold sum in *; lia].
    destruct (Z.ltb_spec 1000 (-1000)); [lia|].
    split; [lia|]. split; [done|lia].
  - split; [lia|]. split; [lia|]. intros _.
    destruct (Z.gtb_spec (sum + 2 ^ 63 - 2 ^ 63) 1000).
    + destruct (Z.ltb_spec 1000 (-1000)); lia.
    + destruct (Z.ltb_spec (sum + 2 ^ 63 - 2 ^ 63) (-1000)); lia.
Qed.

Lemma UpdateReputation_wraps_witness :
  GetValidator 0xA1 (with_validators {[ 0xA1 := fresh_validator ]}
                       (NewValidatorManager 1000000000000000000 100)) =
    Some fresh_validator /\
  (-1000 <= v_Reputation fresh_validator <= 1000) /\
  (- 2 ^ 63 <= 2 ^ 63 - 1 < 2 ^ 63) /\
  exists reputation,
    GetValidator 0xA1
      (UpdateReputation 1700000600 0xA1 (2 ^ 63 - 1)
         (with_validators {[ 0xA1 := fresh_validator ]}
            (NewValidatorManager 1000000000000000000 100))) =
      Some (with_reputation reputation 1700000600 fresh_validator) /\
    (2 ^ 63 <= v_Reputation fresh_validator + (2 ^ 63 - 1) -> reputation = -1000) /\
    (v_Reputation fresh_validator + (2 ^ 63 - 1) < - 2 ^ 63 -> reputation = 1000) /\
    (- 2 ^ 63 <= v_Reputation fresh_validator + (2 ^ 63 - 1) < 2 ^ 63 ->
     reputation = Z.max (-1000) (Z.min 1000 (v_Reputation fresh_validator + (2 ^ 63 - 1)))).
Proof.
  split; [reflexivity|]. split; [cbn; lia|]. split; [lia|].
  apply (UpdateReputation_wraps 1700000600 0xA1 (2 ^ 63 - 1)
           (with_validators {[ 0xA1 := fresh_validator ]}
              (NewValidatorManager 1000000000000000000 100)) fresh_validator);
    [reflexivity|cbn; lia|lia].
Defined.

(** ** Selection from the registry *)

Lemma totalWeight_permutation (range range' : list (Z * Validator)) :
  range ≡ₚ range' ->
  WeightedRandomSelection.totalWeight range = WeightedRandomSelection.totalWeight range'.
Proof.
  unfold WeightedRandomSelection.totalWeight. generalize 0.
  intros acc Hperm. revert acc.
  induction Hperm as [|[a v] l l' _ IH|[a v] [a' v'] l|l l' l'' _ IH1 _ IH2]; intros acc.
  - done.
  - cbn [fold_left]. apply IH.
  - cbn [fold_left]. f_equal. destruct (v_IsActive v), (v_IsActive v'); lia.
  - by rewrite IH1.
Qed.

Lemma first_active_Some (range : list (Z * Validator)) (address : Z) :
  WeightedRandomSelection.first_active range = Some address ->
  exists validator, (address, validator) ∈ range /\ v_IsActive validator = true.
Proof.
  induction range as [|[a v] range IH]; cbn [WeightedRandomSelection.first_active]; [done|].
  destruct (v_IsActive v) eqn:Hactive.
  - intros [= ->]. exists v. split; [left|done].
  - intros H. destruct (IH H) as (v' & Hin & Hact). exists v'. split; [by right|done].
Qed.

Lemma first_active_None (range : list (Z * Validator)) :
  WeightedRandomSelection.first_active range = None ->
  Forall (fun e => v_IsActive e.2 = false) range.
Proof.
  induction range as [|[a v] range IH]; cbn [WeightedRandomSelection.first_active];
    [constructor|].
  destruct (v_IsActive v) eqn:Hactive; [done|]. intros H. constructor; [done|by apply IH].
Qed.

Lemma pick_Some (range : list (Z * Validator)) (currentWeight randomWeight address : Z) :
  WeightedRandomSelection.pick range currentWeight randomWeight = Some address ->
  exists validator, (address, validator) ∈ range /\ v_IsActive validator = true.
Proof.
  revert currentWeight.
  induction range as [|[a v] range IH]; intros cw; cbn [WeightedRandomSelection.pick]; [done|].
  destruct (v_IsActive v) eqn:Hactive.
  - destruct (_ >=? _).
    + intros [= ->]. exists v. split; [left|done].
    + intros H. destruct (IH _ H) as (v' & Hin & Hact). exists v'. split; [by right|done].
  - intros H. destruct (IH _ H) as (v' & Hin & Hact). exists v'. split; [by right|done].
Qed.

(** X19. [SelectProposer], in whatever order its three loops visit the
    registry and for every draw, returns either the address of a registered
    active validator and no error, or the zero address with the error no
    validators available (the registry is empty) or no active validators
    (the total weight is zero). The third error of the function, no active
    validators found, is never returned. *)
Theorem SelectProposer_returns_active (registry : gmap Z Validator)
    (range1 range2 range3 : list (Z * Validator)) (draw : Z)
    (Hrange1 : range1 ≡ₚ map_to_list registry)
    (Hrange2 : range2 ≡ₚ map_to_list registry)
    (Hrange3 : range3 ≡ₚ map_to_list registry) :
  match WeightedRandomSelection.SelectProposer_ranges range1 range2 range3 draw with
  | (address, None) =>
      exists validator,
        registry !! address = Some validator /\ v_IsActive validator = true
  | (address, Some e) =>
      address = 0 /\
      ((registry = ∅ /\ e = "no validators available"%string) \/
       (registry ≠ ∅ /\
        WeightedRandomSelection.totalWeight (map_to_list registry) = 0 /\
        e = "no active validators"%string))
  end.
Proof.
  unfold WeightedRandomSelection.SelectProposer_ranges.
  destruct (Nat.eqb_spec (length range1) 0) as [Hempty|Hnonempty].
  { split; [done|]. left. split; [|done].
    apply map_to_list_empty_iff. destruct range1; [|done].
    by apply Permutation_nil_l in Hrange1. }
  assert (Hne : registry ≠ ∅).
  { intros ->. rewrite map_to_list_empty in Hrange1.
    apply Permutation_nil_r in Hrange1. by subst range1. }
  rewrite (totalWeight_permutation _ _ Hrange1).
  destruct (Z.eqb_spec (WeightedRandomSelection.totalWeight (map_to_list registry)) 0)
    as [Hzero|Hweight].
  { split; [done|]. right. done. }
  assert (Hfound : forall address validator range,
            range ≡ₚ map_to_list registry ->
            (address, validator) ∈ range -> registry !! address = Some validator).
  { intros a v range Hperm Hin. by rewrite Hperm, elem_of_map_to_list in Hin. }
  destruct (WeightedRandomSelection.pick range2 0 _) as [address|] eqn:Hpick.
  { apply pick_Some in Hpick as (v & Hin & Hact). exists v. split; [|done].
    by apply (Hfound _ _ range2). }
  destruct (WeightedRandomSelection.first_active range3) as [address|] eqn:Hfirst.
  { apply first_active_Some in Hfirst as (v & Hin & Hact). exists v. split; [|done].
    by apply (Hfound _ _ range3). }
  exfalso. apply Hweight.
  rewrite <- (totalWeight_permutation _ _ Hrange3).
  unfold WeightedRandomSelection.totalWeight. apply totalWeight_zero.
  apply first_active_None in Hfirst.
  eapply Forall_impl; [exact Hfirst|].
  intros [a v] Hinactive. unfold zero_weight_active. cbn in *. congruence.
Qed.

Lemma SelectProposer_returns_active_witness :
  map_to_list ({[ 0xA1 := fresh_validator ]} : gmap Z Validator) ≡ₚ
    map_to_list ({[ 0xA1 := fresh_validator ]} : gmap Z Validator) /\
  match WeightedRandomSelection.SelectProposer_ranges
          (map_to_list ({[ 0xA1 := fresh_validator ]} : gmap Z Validator))
          (map_to_list ({[ 0xA1 := fresh_validator ]} : gmap Z Validator))
          (map_to_list ({[ 0xA1 := fresh_validator ]} : gmap Z Validator)) 7 with
  | (address, None) =>
      exists validator,
        ({[ 0xA1 := fresh_validator ]} : gmap Z Validator) !! address = Some validator /\
        v_IsActive validator = true
  | (address, Some e) =>
      address = 0 /\
      ((({[ 0xA1 := fresh_validator ]} : gmap Z Validator) = ∅ /\
        e = "no validators available"%string) \/
       (({[ 0xA1 := fresh_validator ]} : gmap Z Validator) ≠ ∅ /\
        WeightedRandomSelection.totalWeight
          (map_to_list ({[ 0xA1 := fresh_validator ]} : gmap Z Validator)) = 0 /\
        e = "no active validators"%string))
  end.
Proof.
  split; [reflexivity|].
  apply (SelectProposer_returns_active {[ 0xA1 := fresh_validator ]}); reflexivity.
Defined.

Lemma active_addresses_filter (range : list (Z * Validator)) :
  active_addresses range = (filter (fun e => v_IsActive e.2 = true) range).*1.
Proof.
  unfold active_addresses.
  assert (H : forall acc,
    fold_left
      (fun activeValidators '(address, validator) =>
         if v_IsActive validator then activeValidators ++ [address]
         else activeValidators) range acc =
    acc ++ (filter (fun e => v_IsActive e.2 = true) range).*1).
  { induction range as [|[a v] range IH]; intros acc; cbn [fold_left].
    - by rewrite app_nil_r.
    - rewrite IH. rewrite filter_cons. cbn [snd].
      destruct (v_IsActive v); [|by rewrite decide_False by done].
      rewrite decide_True by done. cbn [fmap list_fmap fst]. by rewrite <- app_assoc. }
  apply (H []).
Qed.

Lemma active_addresses_registry (registry : gmap Z Validator)
    (range : list (Z * Validator)) :
  range ≡ₚ map_to_list registry ->
  NoDup (active_addresses range) /\
  forall address,
    address ∈ active_addresses range <->
    exists validator, registry !! address = Some validator /\ v_IsActive validator = true.
Proof.
  intros Hperm. rewrite active_addresses_filter. split.
  - apply (sublist_NoDup _ range.*1).
    + rewrite Hperm. apply NoDup_fst_map_to_list.
    + apply fmap_sublist, sublist_filter.
  - intros a. rewrite list_elem_of_fmap. split.
    + intros ([a' v] & -> & Hin). apply list_elem_of_filter in Hin as [Hact Hin].
      rewrite Hperm, elem_of_map_to_list in Hin. by exists v.
    + intros (v & Hv & Hact). exists (a, v). split; [done|].
      apply list_elem_of_filter. split; [done|]. by rewrite Hperm, elem_of_map_to_list.
Qed.

Lemma select_loop_sound (draws : list nat) (activeValidators : list Z) (count : nat)
    (selected : list Z) (used : gset Z) (result : list Z) :
  activeValidators ≠ [] ->
  (forall a, a ∈ used <-> a ∈ selected) -> NoDup selected ->
  selected ⊆ activeValidators -> (length selected <= count)%nat ->
  select_loop draws activeValidators count selected used = Some result ->
  NoDup result /\ result ⊆ activeValidators /\ length result = count.
Proof.
  intros Hne. revert selected used.
  induction draws as [|draw draws IH]; intros selected used Hused Hnd Hsub Hlen;
    cbn [select_loop]; destruct (Nat.ltb_spec (length selected) count) as [Hlt|Hge];
    try done; try (intros [= <-]; split; [done|]; split; [done|lia]).
  set (validator := nth (draw mod length activeValidators) activeValidators 0).
  assert (Hin : validator ∈ activeValidators).
  { apply nth_elem_of, Nat.mod_upper_bound. by destruct activeValidators. }
  case_bool_decide as Hseen; [by apply IH|].
  apply IH.
  - intros a. rewrite elem_of_union, elem_of_singleton, elem_of_app, list_elem_of_singleton,
      Hused. tauto.
  - apply NoDup_app. split; [done|]. split; [|apply NoDup_singleton].
    intros a Ha Ha'. apply list_elem_of_singleton in Ha' as ->. by apply Hseen, Hused.
  - intros a Ha. apply elem_of_app in Ha as [Ha|Ha]; [by apply Hsub|].
    by apply list_elem_of_singleton in Ha as ->.
  - rewrite length_app. cbn [length]. lia.
Qed.

(** On the draws [k, k+1, ...] the loop takes the active validators in
    order. *)
Lemma select_loop_in_order (activeValidators : list Z) (count m k : nat) (used : gset Z) :
  NoDup activeValidators ->
  (k <= count)%nat -> (count <= k + m)%nat -> (count <= length activeValidators)%nat ->
  (forall a, a ∈ used <-> a ∈ firstn k activeValidators) ->
  select_loop (seq k m) activeValidators count (firstn k activeValidators) used =
  Some (firstn count activeValidators).
Proof.
  intros Hnd. revert k used.
  induction m as [|m IH]; intros k used Hk Hcount Hlen Hused; cbn [seq select_loop];
    rewrite length_take;
    destruct (Nat.ltb_spec (k `min` length activeValidators) count) as [Hlt|Hge];
    try lia; try (do 2 f_equal; lia).
  rewrite Nat.mod_small by lia.
  destruct (lookup_lt_is_Some_2 activeValidators k) as [a Ha]; [lia|].
  rewrite (nth_lookup_Some _ _ _ _ Ha).
  assert (Hfresh : a ∉ firstn k activeValidators).
  { intros Hin. apply list_elem_of_lookup in Hin as [i Hi].
    apply lookup_take_Some in Hi as [Hi Hik].
    pose proof (NoDup_lookup _ _ _ _ Hnd Hi Ha). lia. }
  rewrite bool_decide_eq_false_2 by (by rewrite Hused).
  rewrite <- (take_S_r _ _ _ Ha). apply IH; [lia..|].
  intros b. rewrite (take_S_r _ _ _ Ha), elem_of_union, elem_of_singleton, elem_of_app,
    list_elem_of_singleton, Hused. tauto.
Qed.

(** X20. [SelectValidators], whenever its loop ends, returns pairwise
    distinct addresses of registered active validators, as many as the
    smaller of [count] and the number of active validators, and none for a
    count that is not positive. The loop ends on the draws 0, 1, 2, ...,
    with the first active validators in the order visited. *)
Theorem SelectValidators_distinct_active (registry : gmap Z Validator)
    (range : list (Z * Validator)) (count : Z)
    (Hrange : range ≡ₚ map_to_list registry) :
  let active := Z.of_nat (length (active_addresses range)) in
  (forall draws selected,
     SelectValidators_in range draws count = Some selected ->
     NoDup selected /\
     (forall address, address ∈ selected ->
        exists validator,
          registry !! address = Some validator /\ v_IsActive validator = true) /\
     Z.of_nat (length selected) = Z.max 0 (Z.min count active)) /\
  SelectValidators_in range (seq 0 (length range)) count =
    Some (firstn (Z.to_nat count) (active_addresses range)).
Proof.
  cbv zeta. destruct (active_addresses_registry registry range Hrange) as [Hnd Hmem].
  assert (Hshort : (length (active_addresses range) <= length range)%nat).
  { rewrite active_addresses_filter, length_fmap. apply length_filter. }
  unfold SelectValidators_in.
  destruct (Z.leb_spec count 0) as [Hcount|Hcount]; cbn [orb].
  { split.
    - intros draws selected [= <-]. split; [constructor|]. split; [|cbn; lia].
      intros a Ha. by apply elem_of_nil in Ha.
    - by replace (Z.to_nat count) with 0%nat by lia. }
  destruct (Nat.eqb_spec (length range) 0) as [Hempty|Hnonempty].
  { split.
    - intros draws selected [= <-]. split; [constructor|]. split; [|cbn; lia].
      intros a Ha. by apply elem_of_nil in Ha.
    - destruct (active_addresses range); [by rewrite take_nil|cbn in Hshort; lia]. }
  destruct (Nat.eqb_spec (length (active_addresses range)) 0) as [Hnone|Hsome].
  { split.
    - intros draws selected [= <-]. split; [constructor|]. rewrite Hnone. split; [|cbn; lia].
      intros a Ha. by apply elem_of_nil in Ha.
    - destruct (active_addresses range); [by rewrite take_nil|done]. }
  set (n := length (active_addresses range)) in *.
  set (count' := if count >? Z.of_nat n then Z.of_nat n else count).
  assert (Hcount' : count' = Z.min count (Z.of_nat n)).
  { unfold count'. destruct (Z.gtb_spec count (Z.of_nat n)); lia. }
  split.
  - intros draws selected Hsel.
    apply select_loop_sound in Hsel as (Hnd' & Hsub & Hlen).
    + split; [done|]. split; [|lia]. intros a Ha. by apply Hmem, Hsub.
    + intros Hnil. unfold n in Hsome. by rewrite Hnil in Hsome.
    + intros a. rewrite elem_of_nil, elem_of_empty. tauto.
    + constructor.
    + intros a Ha. by apply elem_of_nil in Ha.
    + cbn. lia.
  - rewrite (select_loop_in_order (active_addresses range) (Z.to_nat count')
               (length range) 0 ∅ Hnd); [|lia|lia|fold n; lia|].
    + f_equal. rewrite Hcount'.
      destruct (Z.min_spec count (Z.of_nat n)) as [[_ ->]|[Hbig ->]]; [done|].
      rewrite !firstn_all2; [done|fold n; lia|fold n; lia].
    + intros a. cbn [firstn]. rewrite elem_of_nil, elem_of_empty. tauto.
Qed.

Lemma SelectValidators_distinct_active_witness :
  map_to_list ({[ 0xA1 := fresh_validator ]} : gmap Z Validator) ≡ₚ
    map_to_list ({[ 0xA1 := fresh_validator ]} : gmap Z Validator) /\
  SelectValidators {[ 0xA1 := fresh_validator ]} [0%nat] 1 = Some [0xA1] /\
  SelectValidators_in (map_to_list ({[ 0xA1 := fresh_validator ]} : gmap Z Validator))
    (seq 0 (length (map_to_list ({[ 0xA1 := fresh_validator ]} : gmap Z Validator)))) 1 =
  Some (firstn (Z.to_nat 1)
          (active_addresses
             (map_to_list ({[ 0xA1 := fresh_validator ]} : gmap Z Validator)))).
Proof.
  split; [reflexivity|]. split; [vm_compute; reflexivity|].
  apply (SelectValidators_distinct_active {[ 0xA1 := fresh_validator ]}
           (map_to_list ({[ 0xA1 := fresh_validator ]} : gmap Z Validator)) 1).
  reflexivity.
Defined.

(** ** The caches *)

(** X21. With a capacity of at least 1, [SetCommitment] keeps the
    commitment cache within [maxSize], stores the commitment under its key,
    changes at most one other key, and leaves the other four maps of the
    cache alone. *)
Theorem SetCommitment_bounded (range : list (string * bytes)) (key : string)
    (commitment : bytes) (c : P2SCache)
    (Hrange : range ≡ₚ map_to_list (commitmentCache c))
    (Hcapacity : 1 <= maxSize c)
    (Hsize : Z.of_nat (size (commitmentCache c)) <= maxSize c) :
  let c' := SetCommitment_in range key commitment c in
  Z.of_nat (size (commitmentCache c')) <= maxSize c' /\
  maxSize c' = maxSize c /\
  GetCommitment key c' = Some commitment /\
  (exists evicted : list string,
     (length evicted <= 1)%nat /\
     forall k, k ≠ key -> k ∉ evicted -> GetCommitment k c' = GetCommitment k c) /\
  b1Blocks c' = b1Blocks c /\ b2Blocks c' = b2Blocks c /\
  phtCache c' = phtCache c /\ mtCache c' = mtCache c.
Proof.
  cbv zeta. unfold SetCommitment_in, GetCommitment.
  destruct (Z.geb_spec (Z.of_nat (size (commitmentCache c))) (maxSize c)) as [Hfull|Hroom].
  - destruct range as [|[k0 v0] range].
    { symmetry in Hrange. apply Permutation_nil_r, map_to_list_empty_iff in Hrange.
      rewrite Hrange, map_size_empty in Hfull. lia. }
    assert (Hk0 : commitmentCache c !! k0 = Some v0).
    { apply elem_of_map_to_list. rewrite <- Hrange. left. }
    cbn [evictOldestCommitment_in with_commitmentCache commitmentCache maxSize
         b1Blocks b2Blocks phtCache mtCache].
    split.
    { destruct (delete k0 (commitmentCache c) !! key) eqn:Hkey.
      - rewrite map_size_insert_Some, map_size_delete, Hk0 by done. lia.
      - rewrite map_size_insert_None, map_size_delete, Hk0 by done.
        assert (size (commitmentCache c) ≠ 0%nat); [|lia].
        intros H0. apply map_size_empty_inv in H0. by rewrite H0 in Hk0. }
    split; [done|]. split; [by rewrite lookup_insert_eq|]. split; [|done].
    exists [k0]. split; [done|]. intros k Hk Hev.
    rewrite lookup_insert_ne, lookup_delete_ne; [done| |done].
    intros ->. apply Hev. left.
  - cbn [with_commitmentCache commitmentCache maxSize b1Blocks b2Blocks phtCache mtCache].
    split.
    { destruct (commitmentCache c !! key) eqn:Hkey.
      - rewrite map_size_insert_Some by done. lia.
      - rewrite map_size_insert_None by done. lia. }
    split; [done|]. split; [by rewrite lookup_insert_eq|]. split; [|done].
    exists []. split; [cbn; lia|]. intros k Hk _. by rewrite lookup_insert_ne.
Qed.

Lemma SetCommitment_bounded_witness :
  map_to_list (commitmentCache full_cache) ≡ₚ map_to_list (commitmentCache full_cache) /\
  1 <= maxSize full_cache /\
  Z.of_nat (size (commitmentCache full_cache)) <= maxSize full_cache /\
  Z.of_nat (size (commitmentCache (SetCommitment "n" (bs [2]) full_cache))) <=
    maxSize (SetCommitment "n" (bs [2]) full_cache).
Proof.
  split; [reflexivity|]. split; [cbn; lia|]. split; [vm_compute; discriminate|].
  apply (SetCommitment_bounded (map_to_list (commitmentCache full_cache)) "n" (bs [2])
           full_cache); [reflexivity|cbn; lia|vm_compute; discriminate].
Defined.

Lemma scan_oldest_fmap {V W} (f : V -> W) (timestamp : W -> Z) (range : list (Z * V)) :
  (scan_oldest timestamp (prod_map id f <$> range)).1 =
  (scan_oldest (fun v => timestamp (f v)) range).1.
Proof.
  unfold scan_oldest. generalize (0, uint64_max).
  induction range as [|[k v] range IH]; intros [h t]; [done|].
  cbn [fmap list_fmap fold_left prod_map fst snd id]. by destruct (_ <? t).
Qed.

Lemma evict_oldest_fmap {V W} (f : V -> W) (timestamp : W -> Z) (range : list (Z * V))
    (m : gmap Z V) :
  evict_oldest timestamp (prod_map id f <$> range) (f <$> m) =
  f <$> evict_oldest (fun v => timestamp (f v)) range m.
Proof.
  unfold evict_oldest. pose proof (scan_oldest_fmap f timestamp range) as Hscan.
  destruct (scan_oldest timestamp _) as [h t], (scan_oldest _ range) as [h' t'].
  cbn [fst] in Hscan. subst h'. by rewrite fmap_delete.
Qed.

(** X22. [SetB1Block] behind the pointers, with a capacity of at least 1
    and every cached block stamped below the largest [uint64]. It keeps the
    B1 cache within [maxSize]; the hash then leads to the block given, its
    [BlockHash] set to the hash. Below capacity no other key goes; at
    capacity one goes, one whose block no cached block is older than. Every
    other key leads to the block it led to, and that block is as it was
    unless it is the block given: a key that held the same pointer now reads
    the new [BlockHash]. When no key held the pointer, the blocks read
    through the pointers are the ones [SetB1Block_in] computes on the blocks
    themselves. *)
Theorem SetB1Block_evicts_oldest (range : list (Z * Z)) (hash address : Z) (s : B1Store)
    (Hrange : range ≡ₚ map_to_list (b1_index s))
    (Hcapacity : 1 <= b1_maxSize s)
    (Hsize : Z.of_nat (size (b1_index s)) <= b1_maxSize s)
    (Hstamps : map_Forall (fun _ a => b1_Timestamp (b1_at s a) < uint64_max) (b1_index s)) :
  let s' := SetB1Block_at range hash address s in
  let stored := set_b1_BlockHash hash (b1_at s address) in
  Z.of_nat (size (b1_index s')) <= b1_maxSize s' /\
  GetB1Block_at hash s' = Some stored /\
  (exists evicted : list Z,
     ((Z.of_nat (size (b1_index s)) < b1_maxSize s /\ evicted = []) \/
      (Z.of_nat (size (b1_index s)) = b1_maxSize s /\
       exists oldest a,
         evicted = [oldest] /\ b1_index s !! oldest = Some a /\
         forall k' a', b1_index s !! k' = Some a' ->
           b1_Timestamp (b1_at s a) <= b1_Timestamp (b1_at s a'))) /\
     forall k, k ≠ hash -> k ∉ evicted ->
       GetB1Block_at k s' =
       match b1_index s !! k with
       | Some a => Some (if decide (a = address) then stored else b1_at s a)
       | None => None
       end) /\
  ((forall k, b1_index s !! k ≠ Some address) ->
   b1Blocks (cache_of_store s') =
   b1Blocks (SetB1Block_in (prod_map id (b1_at s) <$> range) hash (b1_at s address)
               (cache_of_store s))).
Proof.
  cbv zeta. unfold SetB1Block_at, SetB1Block_in, GetB1Block_at, cache_of_store.
  cbn [b1_at b1_index b1_maxSize b1Blocks maxSize].
  rewrite lookup_insert_eq. cbn [fmap option_fmap option_map].
  rewrite decide_True by done. rewrite map_size_fmap.
  set (timestamp := fun a => b1_Timestamp (b1_at s a)).
  set (at' := fun a => if decide (a = address)
                       then set_b1_BlockHash hash (b1_at s address) else b1_at s a).
  assert (Hread : forall (index : gmap Z Z),
            (forall k, b1_index s !! k ≠ Some address) ->
            (forall k a, index !! k = Some a -> b1_index s !! k = Some a) ->
            at' <$> index = b1_at s <$> index).
  { intros index Hfresh Hsub. apply map_fmap_ext. intros k a Hk. unfold at'.
    rewrite decide_False; [done|]. intros ->. by apply (Hfresh k), Hsub. }
  destruct (Z.geb_spec (Z.of_nat (size (b1_index s))) (b1_maxSize s)) as [Hfull|Hroom].
  - assert (Hsome : exists k a, b1_index s !! k = Some a /\ timestamp a < uint64_max).
    { destruct (map_to_list (b1_index s)) as [|[k a] l] eqn:Hl.
      - apply map_to_list_empty_iff in Hl. rewrite Hl, map_size_empty in Hfull. lia.
      - assert (Hk : b1_index s !! k = Some a)
          by (apply elem_of_map_to_list; rewrite Hl; left).
        exists k, a. split; [done|]. by apply (Hstamps k a). }
    destruct (evict_oldest_some timestamp range (b1_index s) Hrange Hsome)
      as (k & a & Hk & Hmin & Hevict).
    rewrite Hevict. split; [|split; [done|split]].
    + destruct (delete k (b1_index s) !! hash) eqn:Hkey.
      * rewrite map_size_insert_Some, map_size_delete, Hk by done. lia.
      * rewrite map_size_insert_None, map_size_delete, Hk by done.
        assert (size (b1_index s) ≠ 0%nat); [|lia].
        intros H0. apply map_size_empty_inv in H0. by rewrite H0 in Hk.
    + exists [k]. split.
      * right. split; [lia|]. by exists k, a.
      * intros k' Hne Hne'. rewrite lookup_insert_ne, lookup_delete_ne; [| |done].
        -- by destruct (b1_index s !! k').
        -- intros ->. apply Hne'. left.
    + intros Hfresh. cbn [with_b1Block evictOldestB1Block_in b1Blocks].
      rewrite evict_oldest_fmap. fold timestamp. rewrite Hevict, fmap_insert.
      unfold at' at 1. rewrite decide_True by done. f_equal.
      apply Hread; [done|]. intros k' a'. rewrite lookup_delete_Some. tauto.
  - split; [|split; [done|split]].
    + destruct (b1_index s !! hash) eqn:Hkey.
      * rewrite map_size_insert_Some by done. lia.
      * rewrite map_size_insert_None by done. lia.
    + exists []. split; [left; by split; [lia|]|].
      intros k' Hne _. rewrite lookup_insert_ne by done.
      by destruct (b1_index s !! k').
    + intros Hfresh. cbn [with_b1Block b1Blocks]. rewrite fmap_insert.
      unfold at' at 1. rewrite decide_True by done. f_equal. by apply Hread.
Qed.

Lemma SetB1Block_evicts_oldest_witness :
  map_to_list (b1_index example_store) ≡ₚ map_to_list (b1_index example_store) /\
  1 <= b1_maxSize example_store /\
  Z.of_nat (size (b1_index example_store)) <= b1_maxSize example_store /\
  map_Forall (fun _ a => b1_Timestamp (b1_at example_store a) < uint64_max)
    (b1_index example_store) /\
  GetB1Block_at 0xB1 example_store = Some example_b1 /\
  GetB1Block_at 0xB1
    (SetB1Block_at (map_to_list (b1_index example_store)) 0xB3 1 example_store) =
  Some (set_b1_BlockHash 0xB3 example_b1).
Proof.
  assert (Hstamps : map_Forall (fun _ a => b1_Timestamp (b1_at example_store a) < uint64_max)
                      (b1_index example_store))
    by (apply map_Forall_singleton; reflexivity).
  split; [reflexivity|]. split; [cbn; lia|]. split; [vm_compute; discriminate|].
  split; [exact Hstamps|]. split; [reflexivity|].
  destruct (SetB1Block_evicts_oldest (map_to_list (b1_index example_store)) 0xB3 1
              example_store) as (_ & _ & (evicted & [[_ ->]|[Hfull _]] & Hothers) & _);
    [reflexivity|cbn; lia|vm_compute; discriminate|exact Hstamps| |].
  - rewrite (Hothers 0xB1); [reflexivity|discriminate|apply not_elem_of_nil].
  - vm_compute in Hfull. discriminate Hfull.
Defined.

(** ** The entry points of the engine *)

Lemma getBlockType_mark (blockType newHash : Z) (header : Header) :
  getBlockType (mark blockType newHash header) = blockType mod 256.
Proof.
  unfold getBlockType, mark. cbn [h_Extra]. by rewrite last_snoc, byte_to_of_Z.
Qed.

Section EntryPointFacts.
Context {CS : CommitmentScheme} {PS : ProofSystem}.
Variable readings : nat -> Z * bytes.

(** X23. [Prepare] as shipped, where the pending batch is empty. It appends
    the byte 1 to [header.Extra], so that [getBlockType] reads 1; it returns
    the error insufficient MEV protection when the configured minimum
    exceeds 1 and no PHTs in B1 block otherwise; it leaves the engine as it
    was. When no B1 block is cached under the new hash of the header,
    [ValidateBlock] on that header returns B1 block not found in cache. *)
Theorem Prepare_never_caches (now newHash : Z) (header : Header) (p : P2SConsensus) :
  let '(err, header', p') := Prepare readings now newHash header p in
  p' = p /\
  h_Extra header' = h_Extra header ++ [x01] /\
  getBlockType header' = 1 /\
  err = Ok (Some (if (1 <? MinMEVScore (config p))%float
                  then "insufficient MEV protection"%string
                  else "no PHTs in B1 block"%string)) /\
  (GetB1Block newHash (cache p) = None ->
   ValidateBlock header' p' = Ok (Some "B1 block not found in cache"%string)).
Proof.
  unfold Prepare, prepareB1Block, prepareB1Block_on, getPendingTransactions.
  cbn [convertToPHTs convertToPHTs_from MEVDetector.DetectMEV length Nat.eqb].
  destruct (1 <? MinMEVScore (config p))%float eqn:Hgate.
  - cbn. split; [done|]. split; [reflexivity|]. split; [by rewrite getBlockType_mark|].
    split; [done|]. intros Hmiss. unfold ValidateBlock. rewrite getBlockType_mark.
    cbn. unfold validateB1Block. cbn [mark h_Hash]. by rewrite Hmiss.
  - cbn. split; [done|]. split; [reflexivity|]. split; [by rewrite getBlockType_mark|].
    split; [done|]. intros Hmiss. unfold ValidateBlock. rewrite getBlockType_mark.
    cbn. unfold validateB1Block. cbn [mark h_Hash]. by rewrite Hmiss.
Qed.

Lemma validate_phts_Some (phts : list PHTTransaction) :
  validate_phts (map Some phts) =
  Ok (match omap ValidatePHT phts with e :: _ => Some e | [] => None end).
Proof.
  induction phts as [|pht phts IH]; [done|]. cbn -[ValidatePHT].
  destruct (ValidatePHT pht); [done|]. apply IH.
Qed.

(** X24. When [prepareB1Block] returns nil on a pending batch, the header
    is present, the batch has converted to a non-empty list of PHTs, and the
    block cached under the header's hash carries that hash, the PHTs, the
    score and the labels of [DetectMEV], a score that is neither below the
    configured minimum nor below 0 nor above 1, and the time stamp of the
    clock, not zero.
    [validateB1Block] on that hash then returns the first error
    [ValidatePHT] finds among the PHTs, or nil. *)
Theorem prepared_block_validates (pendingTxs : list Transaction) (now : Z)
    (header : option Header) (p p' : P2SConsensus)
    (Hprepared : prepareB1Block_on readings pendingTxs now header p = (Ok None, p')) :
  exists h phts block,
    header = Some h /\ convertToPHTs readings pendingTxs = Ok phts /\ phts ≠ [] /\
    config p' = config p /\
    GetB1Block (h_Hash h) (cache p') = Some block /\
    b1_BlockHash block = h_Hash h /\ b1_PHTs block = map Some phts /\
    (b1_MEVScore block, b1_DetectedAttacks block) = MEVDetector.DetectMEV phts /\
    (b1_MEVScore block <? MinMEVScore (config p))%float = false /\
    (b1_MEVScore block <? 0)%float = false /\ (1 <? b1_MEVScore block)%float = false /\
    b1_Timestamp block = to_uint64 now /\ b1_Timestamp block ≠ 0 /\
    validateB1Block (h_Hash h) p' =
      Ok (match omap ValidatePHT phts with e :: _ => Some e | [] => None end).
Proof.
  unfold prepareB1Block_on in Hprepared.
  destruct (convertToPHTs readings pendingTxs) as [phts| |]; [|done..].
  destruct (MEVDetector.DetectMEV phts) as [mevScore attacks] eqn:Hdetect.
  destruct (mevScore <? MinMEVScore (config p))%float eqn:Hgate; [done|].
  destruct (B1Block_Validate now _) as [e|] eqn:Hvalid; [done|].
  destruct header as [h|]; [|done]. injection Hprepared as <-.
  unfold B1Block_Validate in Hvalid.
  cbn [b1_Header b1_BlockType b1_PHTs b1_MEVScore b1_Timestamp] in Hvalid.
  cbn [Z.eqb Pos.eqb negb] in Hvalid. rewrite length_map in Hvalid.
  destruct (Nat.eqb_spec (length phts) 0) as [|Hne]; [done|].
  destruct (B1_check_phts (map Some phts)); [done|].
  destruct (mevScore <? 0)%float eqn:Hlow; [done|].
  destruct (1 <? mevScore)%float eqn:Hhigh; [done|]. cbn [orb] in Hvalid.
  destruct (Z.eqb_spec (to_uint64 now) 0) as [|Hstamp]; [done|].
  eexists h, phts, _. split; [done|]. split; [done|].
  split; [by destruct phts|]. split; [done|].
  unfold validateB1Block, GetB1Block, SetB1Block, SetB1Block_in.
  cbn [with_cache cache config Header_Hash].
  set (c := if _ >=? _ then _ else _).
  cbn [with_b1Block b1Blocks]. rewrite lookup_insert_eq.
  split; [reflexivity|].
  cbn [set_b1_BlockHash b1_BlockHash b1_PHTs b1_MEVScore b1_DetectedAttacks b1_Timestamp].
  split; [done|]. split; [done|]. split; [done|]. split; [done|]. split; [done|].
  split; [done|]. split; [done|]. split; [done|].
  rewrite validate_phts_Some. cbn [mbind result_bind rbind].
  destruct (omap ValidatePHT phts); [|done].
  by rewrite Hgate.
Qed.

End EntryPointFacts.



Section PrepareFacts.
Context {CS : CommitmentScheme} {PS : ProofSystem}.
Variable readings : nat -> Z * bytes.


End PrepareFacts.

Example prepared_example :
  exists p',
    prepareB1Block_on example_readings [tx_a; tx_b] 1700000002 (b1_Header example_b1)
      (NewP2SConsensus DefaultP2SConfig) = (Ok None, p').
Proof.
  eexists. unfold prepareB1Block_on. rewrite example_phts_created.
  vm_compute. reflexivity.
Qed.

Lemma prepared_block_validates_witness :
  exists p',
    prepareB1Block_on example_readings [tx_a; tx_b] 1700000002 (b1_Header example_b1)
      (NewP2SConsensus DefaultP2SConfig) = (Ok None, p') /\
    exists h phts block,
      b1_Header example_b1 = Some h /\
      convertToPHTs example_readings [tx_a; tx_b] = Ok phts /\ phts ≠ [] /\
      config p' = config (NewP2SConsensus DefaultP2SConfig) /\
      GetB1Block (h_Hash h) (cache p') = Some block /\
      b1_BlockHash block = h_Hash h /\ b1_PHTs block = map Some phts /\
      (b1_MEVScore block, b1_DetectedAttacks block) = MEVDetector.DetectMEV phts /\
      (b1_MEVScore block <? MinMEVScore (config (NewP2SConsensus DefaultP2SConfig)))%float
        = false /\
      (b1_MEVScore block <? 0)%float = false /\ (1 <? b1_MEVScore block)%float = false /\
      b1_Timestamp block = to_uint64 1700000002 /\ b1_Timestamp block ≠ 0 /\
      validateB1Block (h_Hash h) p' =
        Ok (match omap ValidatePHT phts with e :: _ => Some e | [] => None end).
Proof.
  destruct prepared_example as [p' Hp']. exists p'. split; [exact Hp'|].
  exact (prepared_block_validates example_readings [tx_a; tx_b] 1700000002
           (b1_Header example_b1) (NewP2SConsensus DefaultP2SConfig) p' Hp').
Defined.



(** X26. [Finalize] with the Merkle proof system never stores a B2 block.
    It appends the byte 2 to [header.Extra], leaves the engine as it was and
    never returns nil: it returns the error B1 block not found when nothing
    is cached under the parent hash, panics when the cached B1 block holds a
    PHT, and over a B1 block without PHTs returns B1 block hash mismatch or
    no MTs in B2 block. *)
Theorem Finalize_never_stores {CS : CommitmentScheme} (clock : nat -> Z)
    (now newHash : Z) (header : Header) (p : P2SConsensus) :
  let '(err, header', p') :=
    Finalize (PS := NewMerkleProofSystem) clock now newHash header p in
  p' = p /\
  h_Extra header' = h_Extra header ++ [x02] /\
  getBlockType header' = 2 /\
  err ≠ Ok None /\
  match GetB1Block (h_ParentHash header) (cache p) with
  | None => err = Ok (Some "B1 block not found"%string)
  | Some b1Block =>
      match b1_PHTs b1Block with
      | Some _ :: _ => err = Panic "index out of range"
      | None :: _ => err = Panic "nil pointer dereference"
      | [] =>
          err = Ok (Some (if Header_Hash (b1_Header b1Block) =? b1_BlockHash b1Block
                          then "no MTs in B2 block"%string
                          else "B1 block hash mismatch"%string))
      end
  end.
Proof.
  unfold Finalize, finalizeB2Block. cbn [mark h_ParentHash h_Hash].
  destruct (GetB1Block (h_ParentHash header) (cache p)) as [b1Block|].
  2:{ split; [done|]. split; [reflexivity|]. split; [by rewrite getBlockType_mark|].
      split; done. }
  destruct (b1_PHTs b1Block) as [|[pht|] rest].
  - cbn [convertPHTsToMTs convertPHTsToMTs_from].
    unfold B2Block_Validate.
    cbn [b2_Header b2_BlockType b2_B1BlockHash b2_MTs map length Nat.eqb Z.eqb Pos.eqb negb].
    destruct (Header_Hash (b1_Header b1Block) =? b1_BlockHash b1Block).
    + split; [done|]. split; [reflexivity|]. split; [by rewrite getBlockType_mark|].
      split; done.
    + split; [done|]. split; [reflexivity|]. split; [by rewrite getBlockType_mark|].
      split; done.
  - unfold convertPHTsToMTs. cbn [convertPHTsToMTs_from CreateMT_ptr].
    rewrite CreateMT_panics. cbn [mbind result_bind rbind].
    split; [done|]. split; [reflexivity|]. split; [by rewrite getBlockType_mark|].
    split; done.
  - unfold convertPHTsToMTs. cbn [convertPHTsToMTs_from CreateMT_ptr mbind result_bind rbind].
    split; [done|]. split; [reflexivity|]. split; [by rewrite getBlockType_mark|].
    split; done.
Qed.

(** X27. With the Merkle proof system, [validateB2Block] panics on every
    cached B2 block that starts with an MT when its cached B1 block starts
    with a PHT, and so does [ValidateBlock] on a header marked B2 with that
    hash. *)
Theorem validateB2Block_panics {CS : CommitmentScheme} (blockHash : Z) (p : P2SConsensus)
    (b2Block : B2Block) (b1Block : B1Block) (mt : MTTransaction) (pht : PHTTransaction)
    (mts : list (option MTTransaction)) (phts : list (option PHTTransaction))
    (Hb2 : GetB2Block blockHash (cache p) = Some b2Block)
    (Hb1 : GetB1Block (b2_B1BlockHash b2Block) (cache p) = Some b1Block)
    (Hmts : b2_MTs b2Block = Some mt :: mts)
    (Hphts : b1_PHTs b1Block = Some pht :: phts) :
  validateB2Block (PS := NewMerkleProofSystem) blockHash p = Panic "index out of range" /\
  forall header,
    getBlockType header = 2 -> h_Hash header = blockHash ->
    ValidateBlock (PS := NewMerkleProofSystem) header p = Panic "index out of range".
Proof.
  assert (Hpanic : validateB2Block (PS := NewMerkleProofSystem) blockHash p =
                   Panic "index out of range").
  { unfold validateB2Block. rewrite Hb2, Hb1, Hmts, Hphts.
    cbn [validate_mts length Nat.leb lookup list_lookup VerifyMT_ptr].
    by rewrite VerifyMT_panics. }
  split; [done|]. intros header Htype Hhash.
  unfold ValidateBlock. by rewrite Htype, Hhash.
Qed.

Lemma validateB2Block_panics_witness :
  GetB2Block 0xB2 (cache (engine_with example_mts)) =
    Some (example_b2_at 1700000014 example_mts) /\
  GetB1Block (b2_B1BlockHash (example_b2_at 1700000014 example_mts))
    (cache (engine_with example_mts)) = Some example_b1 /\
  validateB2Block (PS := NewMerkleProofSystem) 0xB2 (engine_with example_mts) =
    Panic "index out of range".
Proof.
  assert (Hb2 : GetB2Block 0xB2 (cache (engine_with example_mts)) =
                Some (example_b2_at 1700000014 example_mts)) by (vm_compute; reflexivity).
  assert (Hb1 : GetB1Block (b2_B1BlockHash (example_b2_at 1700000014 example_mts))
                  (cache (engine_with example_mts)) = Some example_b1)
    by (vm_compute; reflexivity).
  split; [exact Hb2|]. split; [exact Hb1|].
  eapply (validateB2Block_panics 0xB2 (engine_with example_mts)
            (example_b2_at 1700000014 example_mts) example_b1);
    [exact Hb2|exact Hb1|reflexivity|reflexivity].
Defined.

(** ** First in, first out in the PHT cache *)

Lemma SetPHT_increasing_stamps_witness :
  phtCache (cache_of_capacity 2) = ∅ /\
  maxSize (cache_of_capacity 2) = Z.of_nat (S (length [(0x20, stamped 20)])) /\
  size (phtCache (insert_all [(0x10, stamped 10); (0x20, stamped 20); (0x30, stamped 30)]
                    (cache_of_capacity 2))) = 2%nat /\
  GetPHT 0x10 (insert_all [(0x10, stamped 10); (0x20, stamped 20); (0x30, stamped 30)]
                 (cache_of_capacity 2)) = None.
Proof.
  split; [reflexivity|]. split; [reflexivity|].
  pose proof (SetPHT_increasing_stamps (cache_of_capacity 2) (0x10, stamped 10)
                [(0x20, stamped 20)] (0x30, stamped 30)) as H.
  destruct H as (Hsize & Hgone & _).
  - reflexivity.
  - reflexivity.
  - refine (bool_decide_unpack _ _). vm_compute. exact I.
  - repeat constructor; cbn; lia.
  - cbn. unfold uint64_max. lia.
  - split; [exact Hsize|exact Hgone].
Defined.

(** ** Padding of the Merkle leaves *)

Lemma nextPower_loop_power (fuel nextPower n : nat) :
  (exists k, nextPower = 2 ^ k)%nat -> (nextPower < 2 * n)%nat ->
  (exists k, MerkleProofSystem.nextPower_loop fuel nextPower n = 2 ^ k)%nat /\
  (MerkleProofSystem.nextPower_loop fuel nextPower n < 2 * n)%nat.
Proof.
  revert nextPower. induction fuel as [|fuel IH]; intros nextPower Hpow Hlt;
    cbn [MerkleProofSystem.nextPower_loop]; [done|].
  destruct (Nat.ltb_spec nextPower n) as [Hsmall|_]; [|done].
  apply IH; [|lia]. destruct Hpow as [k ->]. exists (S k). by rewrite Nat.pow_succ_r'.
Qed.

(** X30. [padToPowerOfTwo] appends leaves of 32 zero bytes and nothing
    else. It returns the empty list as it is; for a non-empty list the
    padded length is a power of two, at least the length of the data and
    less than twice it. *)
Theorem padToPowerOfTwo_pads (data : list bytes) :
  exists padding,
    MerkleProofSystem.padToPowerOfTwo data = data ++ padding /\
    Forall (fun leaf => leaf = repeat x00 32) padding /\
    (data = [] -> padding = []) /\
    (data ≠ [] ->
     (exists k, length (data ++ padding) = 2 ^ k)%nat /\
     (length data <= length (data ++ padding) < 2 * length data)%nat).
Proof.
  unfold MerkleProofSystem.padToPowerOfTwo.
  destruct (Nat.eqb_spec (length data) 0) as [Hempty|Hne].
  - exists []. rewrite app_nil_r. split; [done|]. split; [constructor|].
    split; [done|]. intros Hdata. by destruct data.
  - eexists. split; [reflexivity|]. split.
    { apply Forall_forall. intros leaf Hin. apply list_elem_of_In in Hin.
      by apply repeat_spec in Hin. }
    split; [intros ->; done|]. intros _.
    pose proof (nextPower_loop_reaches (length data) 1 (length data)) as Hge.
    pose proof (Nat.pow_gt_lin_r 2 (length data)).
    destruct (nextPower_loop_power (length data) 1 (length data)) as [Hpow Hlt];
      [by exists 0%nat|lia|].
    rewrite length_app, repeat_length.
    replace (length data + (MerkleProofSystem.nextPower_loop (length data) 1 (length data)
                            - length data))%nat
      with (MerkleProofSystem.nextPower_loop (length data) 1 (length data)) by lia.
    split; [done|]. lia.
Qed.
